(** * liblsl [consumer_queue]: a shallow embedding and its verification

    The queue of [src/consumer_queue.h] is a bounded ring buffer between one
    producer and several consumers.  Every slot carries a sequence number
    ([seq_state]) from the index space [0, wrap_at_); the producer owns
    [write_idx_], consumers share [read_idx_].

    The embedding is sequential: a call of [try_push] or [try_pop] is one
    atomic transition of the queue, and the public operations are
    compositions of such transitions; while a consumer is blocked in
    [pop_sample], the producer and other consumers take their turns.
    [try_pop] is also given in its two parts, the claim of a slot and its
    release, for the states in which a consumer is in flight; and the
    producer and one consumer are run statement by statement, with the
    mutex and the condition variable, for the wake-up of a blocked
    consumer.
    Memory orders carry no meaning at this level and are dropped.  The
    mutex, the condition variable, the registry and the unused
    [has_waiter_] flag hold no data the algorithm reads; what the code does
    with them is kept as events of a trace.

    Loops take a bound on their iterations ([fuel]); the theorems say how
    much is enough.  The members that the header only declares (the
    constructor, [read_available], [empty], [flush]) are modelled from the
    specification and marked so. *)

From Stdlib Require Import ZArith Lia.
From Stdlib Require Import Floats.PrimFloat.
From stdpp Require Import base option list.

Local Open Scope Z_scope.

(** ** Machine integers *)

(** [std::size_t] is taken to be 64 bits wide; arithmetic on it wraps. *)
Definition size_t_range : Z := 2 ^ 64.
Definition wrap_size_t (x : Z) : Z := x mod size_t_range.

(** [uint32_t], the return type of [flush]. *)
Definition uint32_range : Z := 2 ^ 32.
Definition wrap_uint32 (x : Z) : Z := x mod uint32_range.

(** ** Outcomes of running a piece of code *)

(** [Undefined] stands for undefined behaviour of the C++ program (a
    remainder by zero, an access outside [buffer_]); [OutOfFuel] for a loop
    that did not finish within the iterations it was given. *)
Inductive outcome (A : Type) : Type :=
| Done (a : A)
| Undefined
| OutOfFuel.
Arguments Done {A} a.
Arguments Undefined {A}.
Arguments OutOfFuel {A}.

#[global] Instance outcome_ret : MRet outcome := fun A a => Done a.
#[global] Instance outcome_bind : MBind outcome := fun A B f m =>
  match m with
  | Done a => f a
  | Undefined => Undefined
  | OutOfFuel => OutOfFuel
  end.

(** ** Samples for the examples *)

(** Four samples to tell apart, and their handles. *)
Inductive mark : Type := mA | mB | mC | mD.

Definition hA : option mark := Some mA.
Definition hB : option mark := Some mB.
Definition hC : option mark := Some mC.
Definition hD : option mark := Some mD.

Section ConsumerQueue.

(** The payload is opaque to the queue. [sample_p] is the shared handle to
    it, which may be null. *)
Context {sample : Type}.
Definition sample_p : Type := option sample.

(** ** Data *)

Record item_t : Type := Item {
  seq_state : Z;
  value : sample_p
}.

Record consumer_queue : Type := Queue {
  buffer_ : list item_t;
  size_ : Z;
  wrap_at_ : Z;
  done_sync_ : bool;
  write_idx_ : Z;
  read_idx_ : Z
}.

Definition set_buffer (b : list item_t) (q : consumer_queue) : consumer_queue :=
  Queue b (size_ q) (wrap_at_ q) (done_sync_ q) (write_idx_ q) (read_idx_ q).
Definition set_done_sync (d : bool) (q : consumer_queue) : consumer_queue :=
  Queue (buffer_ q) (size_ q) (wrap_at_ q) d (write_idx_ q) (read_idx_ q).
Definition set_write_idx (w : Z) (q : consumer_queue) : consumer_queue :=
  Queue (buffer_ q) (size_ q) (wrap_at_ q) (done_sync_ q) w (read_idx_ q).
Definition set_read_idx (r : Z) (q : consumer_queue) : consumer_queue :=
  Queue (buffer_ q) (size_ q) (wrap_at_ q) (done_sync_ q) (write_idx_ q) r.

Definition set_seq_state (s : Z) (it : item_t) : item_t := Item s (value it).
Definition set_value (v : sample_p) (it : item_t) : item_t := Item (seq_state it) v.

(** What the code does, in the order it does it.  [Dropped], [Moved] and
    [Taken] record the payload a [try_pop] found in the slot it claimed. *)
Inductive event : Type :=
| Fence                  (* std::atomic_thread_fence(acquire) *)
| SyncStore              (* done_sync_.store(true) *)
| Stored (s : sample_p)  (* try_push put the sample into a slot *)
| Dropped (s : sample_p) (* try_pop() claimed a slot, payload not taken *)
| Moved (s : sample_p)   (* try_pop(result) claimed a slot, payload moved out *)
| Taken (s : sample_p)   (* the same, by another consumer *)
| Notify                 (* cv_.notify_one() *)
| Lock                   (* mut_ locked *)
| Wait.                  (* blocked on cv_ *)

(** ** Helpers of the class *)

(** [add_wrap]: add, then subtract [wrap_at_] once if the sum reached it. *)
Definition add_wrap (q : consumer_queue) (x delta : Z) : Z :=
  let xp := wrap_size_t (x + delta) in
  if wrap_at_ q <=? xp then wrap_size_t (xp - wrap_at_ q) else xp.

(** [index % size_]: the slot of an index. *)
Definition slot_of (q : consumer_queue) (index : Z) : outcome nat :=
  if size_ q =? 0 then Undefined else Done (Z.to_nat (index mod size_ q)).

(** [buffer_[i]], read. *)
Definition item_at (q : consumer_queue) (i : nat) : outcome item_t :=
  match buffer_ q !! i with
  | Some it => Done it
  | None => Undefined
  end.

(** A write through the reference [item]. *)
Definition update_item (f : item_t -> item_t) (i : nat) (q : consumer_queue)
  : consumer_queue :=
  set_buffer (alter f i (buffer_ q)) q.

(** [copy_or_move(dst, src)]: both overloads leave [src]'s handle in [dst]. *)
Definition copy_or_move (dst src : sample_p) : sample_p := src.

(** The argument pack [T &...result] of [try_pop]: empty, or one handle. *)
Inductive pack : Type :=
| NoArg
| OneArg (result : sample_p).

(** [move_or_drop(src, result...)]: with no destination nothing happens;
    with one, the handle moves there and [src] is left null.  Returns the
    new [src], the new pack and the event. *)
Definition move_or_drop (src : sample_p) (dst : pack)
  : sample_p * pack * list event :=
  match dst with
  | NoArg => (src, NoArg, [Dropped src])
  | OneArg _ => (None, OneArg src, [Moved src])
  end.

(** [read_idx_.compare_exchange_weak(expected, desired)] when it does not
    fail spuriously: success, the queue, and the new value of [expected].
    Spurious failures are the subject of [try_pop_loop_weak] below. *)
Definition compare_exchange (expected desired : Z) (q : consumer_queue)
  : bool * consumer_queue * Z :=
  if read_idx_ q =? expected then (true, set_read_idx desired q, expected)
  else (false, q, read_idx_ q).

(** ** [try_push] *)

Definition try_push (smp : sample_p) (q : consumer_queue)
  : outcome (bool * consumer_queue) :=
  let write_index := write_idx_ q in
  let next_idx := add_wrap q write_index 1 in
  i ← slot_of q write_index;
  item ← item_at q i;
  if negb (write_index =? seq_state item) then Done (false, q)
  else
    let q := set_write_idx next_idx q in
    let q := update_item (fun it => set_value (copy_or_move (value it) smp) it) i q in
    let q := update_item (set_seq_state next_idx) i q in
    Done (true, q).

(** ** [try_pop] *)

(** The [for (;;)] loop: [Some read_index] when it leaves through [break]
    (the slot of [read_index] is claimed), [None] for [return false]. *)
Fixpoint try_pop_loop (fuel : nat) (read_index : Z) (q : consumer_queue)
  : outcome (option Z * consumer_queue) :=
  match fuel with
  | O => OutOfFuel
  | S fuel' =>
    i ← slot_of q read_index;
    item ← item_at q i;
    let seq := seq_state item in
    let next_idx := add_wrap q read_index 1 in
    if seq =? next_idx then
      let '(ok, q', read_index') := compare_exchange read_index next_idx q in
      if ok then Done (Some read_index, q')
      else try_pop_loop fuel' read_index' q'
    else if seq =? read_index then Done (None, q)
    else try_pop_loop fuel' (read_idx_ q) q
  end.

Definition try_pop (dst : pack) (fuel : nat) (q : consumer_queue)
  : outcome (bool * pack * consumer_queue * list event) :=
  '(claimed, q) ← try_pop_loop fuel (read_idx_ q) q;
  match claimed with
  | None => Done (false, dst, q, [])
  | Some read_index =>
    i ← slot_of q read_index;
    item ← item_at q i;
    let '(src, dst, ev) := move_or_drop (value item) dst in
    let q := update_item (set_value src) i q in
    let q := update_item (set_seq_state (add_wrap q read_index (size_ q))) i q in
    Done (true, dst, q, ev)
  end.

(** [try_pop] in two parts.  The first part, up to the [break], ends with
    the successful compare-exchange: the slot of the returned index is
    claimed, its payload and its sequence number are as they were.  The
    second part moves or drops the payload and stores the sequence number
    that frees the slot.  A consumer is in flight between the two. *)
Definition try_pop_claim (fuel : nat) (q : consumer_queue)
  : outcome (option Z * consumer_queue) :=
  try_pop_loop fuel (read_idx_ q) q.

Definition try_pop_release (dst : pack) (read_index : Z) (q : consumer_queue)
  : outcome (pack * consumer_queue * list event) :=
  i ← slot_of q read_index;
  item ← item_at q i;
  let '(src, dst, ev) := move_or_drop (value item) dst in
  let q := update_item (set_value src) i q in
  let q := update_item (set_seq_state (add_wrap q read_index (size_ q))) i q in
  Done (dst, q, ev).

(** The loop of [try_pop] when [compare_exchange_weak] may fail although
    the cursor has the expected value: [spurious] tells, attempt by
    attempt, whether it does.  A failed attempt leaves the queue as it is
    and reloads [read_index] from the cursor.  [try_pop_loop] is this loop
    for attempts that never fail spuriously. *)
Fixpoint try_pop_loop_weak (spurious : list bool) (fuel : nat) (read_index : Z)
    (q : consumer_queue) : outcome (option Z * consumer_queue) :=
  match fuel with
  | O => OutOfFuel
  | S fuel' =>
    i ← slot_of q read_index;
    item ← item_at q i;
    let seq := seq_state item in
    let next_idx := add_wrap q read_index 1 in
    if seq =? next_idx then
      match spurious with
      | true :: spurious' => try_pop_loop_weak spurious' fuel' (read_idx_ q) q
      | _ =>
        let '(ok, q', read_index') := compare_exchange read_index next_idx q in
        if ok then Done (Some read_index, q')
        else try_pop_loop_weak (tail spurious) fuel' read_index' q'
      end
    else if seq =? read_index then Done (None, q)
    else try_pop_loop_weak spurious fuel' (read_idx_ q) q
  end.

(** ** [push_sample] *)

(** The [while (!try_push(...))] loop of [push_sample]. *)
Fixpoint push_sample_loop (fuel : nat) (smp : sample_p) (q : consumer_queue)
  : outcome (consumer_queue * list event) :=
  match fuel with
  | O => OutOfFuel
  | S fuel' =>
    '(pushed, q) ← try_push smp q;
    if pushed : bool then Done (q, [Stored smp])
    else
      (* buffer full, drop oldest sample *)
      let '(q, ev1) :=
        if negb (done_sync_ q) then (set_done_sync true q, [Fence; SyncStore])
        else (q, []) in
      '(_, _, q, ev2) ← try_pop NoArg fuel q;
      '(q, ev3) ← push_sample_loop fuel' smp q;
      Done (q, ev1 ++ ev2 ++ ev3)
  end.

Definition push_sample (fuel : nat) (smp : sample_p) (q : consumer_queue)
  : outcome (consumer_queue * list event) :=
  '(q, ev) ← push_sample_loop fuel smp q;
  Done (q, ev ++ [Lock; Notify]).

(** ** [pop_sample] *)

(** What another thread does to the queue while a consumer is between two
    of its attempts: the producer pushes, or another consumer claims. *)
Inductive act : Type :=
| ActPush (smp : sample_p)
| ActPop.

Definition elsewhere (e : event) : event :=
  match e with
  | Moved s => Taken s
  | _ => e
  end.

Fixpoint interfere (fuel : nat) (others : list act) (q : consumer_queue)
  : outcome (consumer_queue * list event) :=
  match others with
  | [] => Done (q, [])
  | a :: others' =>
    '(q, ev1) ←
      match a with
      | ActPush smp => push_sample fuel smp q
      | ActPop =>
        '(_, _, q, ev) ← try_pop (OneArg None) fuel q; Done (q, elsewhere <$> (ev : list event))
      end;
    '(q, ev2) ← interfere fuel others' q;
    Done (q, ev1 ++ ev2)
  end.

(** How a wait on the condition variable ends. *)
Inductive cv_status : Type :=
| no_timeout
| timeout.

(** [cv_.wait_for(lk, sec, pred)] with [pred = try_pop(result)]:
    [while (!pred()) if (wait(lk) == timeout) return pred();].
    [waits] lists the waits that the call goes through, each with what the
    other threads did meanwhile; when the list is used up the next wait
    times out undisturbed. *)
Fixpoint wait_for (fuel : nat) (waits : list (cv_status * list act))
    (result : pack) (q : consumer_queue)
  : outcome (pack * consumer_queue * list event) :=
  '(ok, result, q, ev1) ← try_pop result fuel q;
  if ok : bool then Done (result, q, ev1)
  else
    match waits with
    | [] =>
      '(_, result, q, ev2) ← try_pop result fuel q;
      Done (result, q, ev1 ++ Wait :: ev2)
    | (st, others) :: waits' =>
      '(q, ev2) ← interfere fuel others q;
      match st with
      | timeout =>
        '(_, result, q, ev3) ← try_pop result fuel q;
        Done (result, q, ev1 ++ Wait :: ev2 ++ ev3)
      | no_timeout =>
        '(result, q, ev3) ← wait_for fuel waits' result q;
        Done (result, q, ev1 ++ Wait :: ev2 ++ ev3)
      end
    end.

Definition handle_of (result : pack) : sample_p :=
  match result with
  | NoArg => None
  | OneArg r => r
  end.

(** [others] is what the other threads do between the first failed attempt
    and the moment this consumer holds the mutex. *)
Definition pop_sample (fuel : nat) (tmo : float) (others : list act)
    (waits : list (cv_status * list act)) (q : consumer_queue)
  : outcome (sample_p * consumer_queue * list event) :=
  let result := OneArg None in
  '(success, result, q, ev1) ← try_pop result fuel q;
  if negb (success : bool) && PrimFloat.ltb 0%float tmo then
    '(q, ev2) ← interfere fuel others q;
    '(ok, result, q, ev3) ← try_pop result fuel q;
    if negb (ok : bool) then
      '(result, q, ev4) ← wait_for fuel waits result q;
      Done (handle_of result, q, ev1 ++ ev2 ++ Lock :: ev3 ++ ev4)
    else Done (handle_of result, q, ev1 ++ ev2 ++ Lock :: ev3)
  else Done (handle_of result, q, ev1).

(** ** Members defined outside the header *)

(** Modelled from the spec: the constructor, which the header only
    declares.  "At construction, readiness[i] = i for all i"; the index
    space is taken "modulo M = 2·C"; both cursors start at the first slot
    and the visibility latch is not yet set. *)
Definition new_consumer_queue (size : Z) : consumer_queue :=
  {| buffer_ := (fun i => Item i None) <$> seqZ 0 size;
     size_ := size;
     wrap_at_ := wrap_size_t (2 * size);
     done_sync_ := false;
     write_idx_ := 0;
     read_idx_ := 0 |}.

(** Modelled from the spec: [read_available], declared in the header only.
    "available-count: (write cursor − read cursor) mod M". *)
Definition read_available (q : consumer_queue) : Z :=
  (write_idx_ q - read_idx_ q) mod wrap_at_ q.

(** Modelled from the spec: [empty], declared in the header only.
    "is-empty: boolean form of the same comparison". *)
Definition empty (q : consumer_queue) : bool :=
  read_available q =? 0.

(** Modelled from the spec: [flush], declared in the header only as
    [uint32_t flush() noexcept].  "repeatedly force-claims and discards
    values until empty; returns the count discarded".  The count has the
    declared return type. *)
Fixpoint flush_loop (fuel : nat) (n : Z) (q : consumer_queue)
  : outcome (Z * consumer_queue * list event) :=
  match fuel with
  | O => OutOfFuel
  | S fuel' =>
    '(ok, _, q, ev1) ← try_pop NoArg fuel q;
    if ok : bool then
      '(n, q, ev2) ← flush_loop fuel' (wrap_uint32 (n + 1)) q;
      Done (n, q, ev1 ++ ev2)
    else Done (n, q, ev1)
  end.

Definition flush (fuel : nat) (q : consumer_queue)
  : outcome (Z * consumer_queue * list event) :=
  flush_loop fuel 0 q.

(** ** Runs of the public operations *)

Inductive op : Type :=
| Push (smp : sample_p)
| Pop (tmo : float) (others : list act) (waits : list (cv_status * list act))
| Flush.

(** What an operation hands back to its caller. *)
Inductive ret : Type :=
| RetPush
| RetPop (result : sample_p)
| RetFlush (n : Z).

Definition step (fuel : nat) (o : op) (q : consumer_queue)
  : outcome (ret * consumer_queue * list event) :=
  match o with
  | Push smp => '(q, ev) ← push_sample fuel smp q; Done (RetPush, q, ev)
  | Pop tmo others waits =>
    '(r, q, ev) ← pop_sample fuel tmo others waits q; Done (RetPop r, q, ev)
  | Flush => '(n, q, ev) ← flush fuel q; Done (RetFlush n, q, ev)
  end.

Fixpoint run (fuel : nat) (ops : list op) (q : consumer_queue)
  : outcome (list ret * consumer_queue * list event) :=
  match ops with
  | [] => Done ([], q, [])
  | o :: ops' =>
    '(r, q, ev1) ← step fuel o q;
    '(rs, q, ev2) ← run fuel ops' q;
    Done (r :: rs, q, ev1 ++ ev2)
  end.

(** ** What the queue holds *)

(** The payload in the slot of index [index]; null when there is no such
    slot. *)
Definition payload_at (q : consumer_queue) (index : Z) : sample_p :=
  default None (value <$> buffer_ q !! Z.to_nat (index mod size_ q)).

(** The unread samples, oldest first: the payloads of the
    [read_available] slots from the read cursor on. *)
Definition contents (q : consumer_queue) : list sample_p :=
  (fun k => payload_at q (read_idx_ q + k)) <$> seqZ 0 (read_available q).

(** The read window is the [size_] indices from the read cursor on; every
    slot has exactly one index in it.  The slot of the [k]-th index of the
    window holds an unread value when it passes the test of [try_pop] at
    that index, [seq_state == add_wrap(index, 1)]. *)
Definition slot_unread (q : consumer_queue) (k : Z) : bool :=
  let index := add_wrap q (read_idx_ q) k in
  match buffer_ q !! Z.to_nat (index mod size_ q) with
  | Some it => seq_state it =? add_wrap q index 1
  | None => false
  end.

(** The number of slots holding an unread value. *)
Definition unread_slots (q : consumer_queue) : Z :=
  Z.of_nat (length (filter (fun k => slot_unread q k = true) (seqZ 0 (size_ q)))).

(** The payloads stored, claimed by anyone, and handed to a consumer, in
    the order of the trace. *)
Definition stored (tr : list event) : list sample_p :=
  omap (fun e => match e with Stored s => Some s | _ => None end) tr.
Definition removed (tr : list event) : list sample_p :=
  omap (fun e => match e with
                 | Dropped s | Moved s | Taken s => Some s
                 | _ => None
                 end) tr.
Definition delivered (tr : list event) : list sample_p :=
  omap (fun e => match e with Moved s | Taken s => Some s | _ => None end) tr.
Definition moved (tr : list event) : list sample_p :=
  omap (fun e => match e with Moved s => Some s | _ => None end) tr.
Definition dropped (tr : list event) : list sample_p :=
  omap (fun e => match e with Dropped s => Some s | _ => None end) tr.
(** The handles the calls of [pop_sample] returned, in order. *)
Definition pop_results (rs : list ret) : list sample_p :=
  omap (fun r => match r with RetPop x => Some x | _ => None end) rs.
(** The handles of a list that are not null. *)
Definition non_null (l : list sample_p) : list sample := omap id l.

Definition fences (tr : list event) : nat :=
  length (omap (fun e => match e with Fence => Some tt | _ => None end) tr).
Definition sync_stores (tr : list event) : nat :=
  length (omap (fun e => match e with SyncStore => Some tt | _ => None end) tr).

(** ** Reachable states *)

(** A capacity the queue can be built with: positive, and small enough
    that an index plus the capacity is still a [size_t].  (The buffer of a
    queue holds a [size_t] and a handle per slot, so a queue that fits the
    address space is well within this.) *)
Definition capacity_ok (C : Z) : Prop := 0 < C ∧ 3 * C ≤ size_t_range.

(** The states the queue goes through: it starts as built by the
    constructor and changes by calls of [try_push] and [try_pop] and by
    the store to [done_sync_].  The calls are complete calls: in these
    states no [try_pop] is in flight between its two parts. *)
Inductive reachable (C : Z) : consumer_queue -> Prop :=
| reach_new : reachable C (new_consumer_queue C)
| reach_try_push q smp b q' :
    reachable C q -> try_push smp q = Done (b, q') -> reachable C q'
| reach_try_pop q dst fuel b dst' q' ev :
    reachable C q -> try_pop dst fuel q = Done (b, dst', q', ev) -> reachable C q'
| reach_sync q :
    reachable C q -> reachable C (set_done_sync true q).

(** ** Invariants *)

(** Shape: the fields fixed at construction, and every index in the index
    space. *)
Record wf (C : Z) (q : consumer_queue) : Prop := Wf {
  wf_size : size_ q = C;
  wf_wrap : wrap_at_ q = 2 * C;
  wf_len : length (buffer_ q) = Z.to_nat C;
  wf_read : 0 ≤ read_idx_ q < 2 * C;
  wf_write : 0 ≤ write_idx_ q < 2 * C;
  wf_seq : Forall (fun it => 0 ≤ seq_state it < 2 * C) (buffer_ q)
}.

(** The protocol, for a capacity of two or more.  [R] and [W] count the
    claims and the stores made so far, [l] is what was stored and not yet
    claimed.  The slot of position [p] is marked [p + 1] while it holds the
    sample stored at [p], and [p] while it waits for that store. *)
Record repr (C R W : Z) (l : list sample_p) (q : consumer_queue) : Prop := Repr {
  repr_bounds : 0 ≤ R ∧ R ≤ W ∧ W ≤ R + C;
  repr_read : read_idx_ q = R mod (2 * C);
  repr_write : write_idx_ q = W mod (2 * C);
  repr_len : Z.of_nat (length l) = W - R;
  repr_slot : forall p, R ≤ p < R + C ->
    exists it, buffer_ q !! Z.to_nat (p mod C) = Some it ∧
      seq_state it = (if p <? W then (p + 1) mod (2 * C) else p mod (2 * C)) ∧
      (p < W -> l !! Z.to_nat (p - R) = Some (value it))
}.

(** With a single slot the two markings coincide and the sequence number
    just follows the write cursor. *)
Definition inv1 (q : consumer_queue) : Prop :=
  exists it, buffer_ q = [it] ∧ seq_state it = write_idx_ q.

Definition inv (C : Z) (q : consumer_queue) : Prop :=
  wf C q ∧ ((2 ≤ C ∧ exists R W l, repr C R W l q) ∨ (C = 1 ∧ inv1 q)).

(** ** Auxiliary definitions *)

(** The state after a successful [try_push]. *)
Definition pushed_state (smp : sample_p) (q : consumer_queue) : consumer_queue :=
  let next_idx := add_wrap q (write_idx_ q) 1 in
  Queue (<[Z.to_nat (write_idx_ q mod size_ q) := Item next_idx smp]> (buffer_ q))
        (size_ q) (wrap_at_ q) (done_sync_ q) next_idx (read_idx_ q).

(** The state after a successful [try_pop] that leaves [src] in the slot. *)
Definition popped_state (src : sample_p) (q : consumer_queue) : consumer_queue :=
  Queue (<[Z.to_nat (read_idx_ q mod size_ q) :=
             Item (add_wrap q (read_idx_ q) (size_ q)) src]> (buffer_ q))
        (size_ q) (wrap_at_ q) (done_sync_ q) (write_idx_ q)
        (add_wrap q (read_idx_ q) 1).

(** What [move_or_drop] leaves in the slot and in the pack. *)
Definition left_in_slot (dst : pack) (src : sample_p) : sample_p :=
  match dst with NoArg => src | OneArg _ => None end.
Definition taken_out (dst : pack) (src : sample_p) : pack :=
  match dst with NoArg => NoArg | OneArg _ => OneArg src end.
Definition claim_event (dst : pack) (src : sample_p) : event :=
  match dst with NoArg => Dropped src | OneArg _ => Moved src end.

(** The flag [done_sync_] as a number. *)
Definition latch (d : bool) : nat := if d then 1%nat else 0%nat.

(** The latch after the branch [if (!done_sync_.load())] and the events of
    that branch. *)
Definition synced (q : consumer_queue) : consumer_queue :=
  if done_sync_ q then q else set_done_sync true q.
Definition sync_events (q : consumer_queue) : list event :=
  if done_sync_ q then [] else [Fence; SyncStore].

(** What was stored is, in order, what was claimed followed by what is
    still unread; what consumers received and what is still unread is a
    part of what was stored, in the same order. *)
Definition fifo (C : Z) (q : consumer_queue) (tr : list event) : Prop :=
  inv C q ∧
  (2 ≤ C -> removed tr ++ contents q = stored tr) ∧
  delivered tr ++ contents q `sublist_of` stored tr.

(** The handle a consumer ends with is the one it moved out, if any. *)
Definition took (r0 : sample_p) (result : pack) (ev : list event) : Prop :=
  (moved ev = [] ∧ result = OneArg r0) ∨
  (exists v, moved ev = [v] ∧ result = OneArg v).

(** The queue of capacity [C] after the operations [ops]. *)
Definition after (C : Z) (ops : list op) : consumer_queue :=
  match run 4 ops (new_consumer_queue C) with
  | Done (_, q, _) => q
  | _ => new_consumer_queue C
  end.

(** The trace of four pushes into a queue of capacity 2. *)
Definition four_pushes_trace (a b c d : sample_p) : list event :=
  [Stored a; Lock; Notify; Stored b; Lock; Notify;
   Fence; SyncStore; Dropped a; Stored c; Lock; Notify;
   Dropped b; Stored d; Lock; Notify].

(** ** Definitions for the further properties *)

(** The array is there: [size_] is positive and [buffer_] has [size_]
    items.  Nothing is asked of the cursors or the sequence numbers. *)
Definition shape (q : consumer_queue) : Prop :=
  0 < size_ q ∧ length (buffer_ q) = Z.to_nat (size_ q).

(** An outcome without its trace. *)
Definition untraced {A} (m : outcome (A * list event)) : outcome A :=
  match m with
  | Done (a, _) => Done a
  | Undefined => Undefined
  | OutOfFuel => OutOfFuel
  end.

(** The calls of [cv_.notify_one()] in a trace. *)
Definition notifies (tr : list event) : nat :=
  length (omap (fun e => match e with Notify => Some tt | _ => None end) tr).
(** The times a consumer blocked on the condition variable. *)
Definition blocks (tr : list event) : nat :=
  length (omap (fun e => match e with Wait => Some tt | _ => None end) tr).

(** Waits during which no other thread touches the queue, and operations
    that run undisturbed. *)
Definition quiet_waits (waits : list (cv_status * list act)) : Prop :=
  Forall (fun w => w.2 = []) waits.
Definition quiet (o : op) : Prop :=
  match o with
  | Pop _ others waits => others = [] ∧ quiet_waits waits
  | _ => True
  end.

(** A bounded first-in-first-out list that drops its oldest element when
    full: what a user of the queue is told it is. *)
Definition list_push (C : Z) (x : sample_p) (l : list sample_p) : list sample_p :=
  (if Z.of_nat (length l) <? C then l else tail l) ++ [x].
Definition list_step (C : Z) (o : op) (l : list sample_p)
  : ret * list sample_p :=
  match o with
  | Push x => (RetPush, list_push C x l)
  | Pop _ _ _ => (RetPop (default None (head l)), tail l)
  | Flush => (RetFlush (wrap_uint32 (Z.of_nat (length l))), [])
  end.
Fixpoint list_run (C : Z) (ops : list op) (l : list sample_p)
  : list ret * list sample_p :=
  match ops with
  | [] => ([], l)
  | o :: ops' =>
    let '(r, l1) := list_step C o l in
    let '(rs, l2) := list_run C ops' l1 in
    (r :: rs, l2)
  end.

(** The producer and one consumer, statement by statement, with the mutex
    and the condition variable. *)
Inductive thread : Type := Producer | Consumer.

(** Where the producer stands in [push_sample]. *)
Inductive producer_pc : Type :=
| PIdle                     (* between two calls *)
| PStore (smp : sample_p)   (* at [try_push], the condition of the [while] *)
| PEvict (smp : sample_p)   (* in the body of the [while], at [try_pop()] *)
| PLock                     (* past the loop, at the [lock_guard] *)
| PNotify                   (* holding the mutex, at [cv_.notify_one()] *)
| PUnlock.                  (* at the end of the block *)

(** Where the consumer stands in [pop_sample]. *)
Inductive consumer_pc : Type :=
| CFirst                    (* at the first [try_pop(result)] *)
| CLock (result : pack)     (* at the [unique_lock] *)
| CSecond (result : pack)   (* holding the mutex, at [if (!try_pop(result))] *)
| CPred (result : pack)     (* in [wait_for], at [while (!pred())] *)
| CWait (result : pack)     (* the predicate has failed: at the wait *)
| CBlocked (result : pack)  (* blocked in the wait, the mutex released *)
| CWoken (st : cv_status) (result : pack)   (* woken, at taking the mutex again *)
| CLast (result : pack)     (* after a timeout, at [return pred()] *)
| CUnlock (result : pack)   (* at the end of the block *)
| CDone (result : sample_p).

Record system : Type := System {
  sys_queue : consumer_queue;
  sys_mutex : option thread;
  sys_prod : producer_pc;
  sys_todo : list sample_p;
  sys_cons : consumer_pc
}.

(** [notify_one] wakes the consumer if it is blocked and does nothing
    otherwise. *)
Definition notified (c : consumer_pc) : consumer_pc :=
  match c with
  | CBlocked result => CWoken no_timeout result
  | _ => c
  end.

(** One statement of one thread.  Taking the mutex needs it free; the
    wait releases it and blocks in one step; a blocked consumer is woken
    by [notify_one], by the timeout, or for no reason.  [tmo] is the
    timeout of the call of [pop_sample]. *)
Inductive sys_step (tmo : float) : system -> system -> Prop :=
| P_begin q m x todo c :
    sys_step tmo (System q m PIdle (x :: todo) c) (System q m (PStore x) todo c)
| P_store_ok q m x todo c q' :
    try_push x q = Done (true, q') ->
    sys_step tmo (System q m (PStore x) todo c) (System q' m PLock todo c)
| P_store_full q m x todo c q' :
    try_push x q = Done (false, q') ->
    sys_step tmo (System q m (PStore x) todo c)
                 (System (synced q') m (PEvict x) todo c)
| P_evict q m x todo c fuel b dst q' ev :
    try_pop NoArg fuel q = Done (b, dst, q', ev) ->
    sys_step tmo (System q m (PEvict x) todo c) (System q' m (PStore x) todo c)
| P_lock q todo c :
    sys_step tmo (System q None PLock todo c)
                 (System q (Some Producer) PNotify todo c)
| P_notify q m todo c :
    sys_step tmo (System q m PNotify todo c) (System q m PUnlock todo (notified c))
| P_unlock q m todo c :
    sys_step tmo (System q m PUnlock todo c) (System q None PIdle todo c)
| C_first_ok q m p todo fuel result q' ev :
    try_pop (OneArg None) fuel q = Done (true, result, q', ev) ->
    sys_step tmo (System q m p todo CFirst)
                 (System q' m p todo (CDone (handle_of result)))
| C_first_empty q m p todo fuel result q' ev :
    try_pop (OneArg None) fuel q = Done (false, result, q', ev) ->
    sys_step tmo (System q m p todo CFirst)
                 (System q' m p todo
                    (if PrimFloat.ltb 0%float tmo then CLock result
                     else CDone (handle_of result)))
| C_lock q p todo result :
    sys_step tmo (System q None p todo (CLock result))
                 (System q (Some Consumer) p todo (CSecond result))
| C_second_ok q m p todo fuel result result' q' ev :
    try_pop result fuel q = Done (true, result', q', ev) ->
    sys_step tmo (System q m p todo (CSecond result))
                 (System q' m p todo (CUnlock result'))
| C_second_empty q m p todo fuel result result' q' ev :
    try_pop result fuel q = Done (false, result', q', ev) ->
    sys_step tmo (System q m p todo (CSecond result))
                 (System q' m p todo (CPred result'))
| C_pred_ok q m p todo fuel result result' q' ev :
    try_pop result fuel q = Done (true, result', q', ev) ->
    sys_step tmo (System q m p todo (CPred result))
                 (System q' m p todo (CUnlock result'))
| C_pred_empty q m p todo fuel result result' q' ev :
    try_pop result fuel q = Done (false, result', q', ev) ->
    sys_step tmo (System q m p todo (CPred result))
                 (System q' m p todo (CWait result'))
| C_wait q m p todo result :
    sys_step tmo (System q m p todo (CWait result))
                 (System q None p todo (CBlocked result))
| C_timeout q m p todo result :
    sys_step tmo (System q m p todo (CBlocked result))
                 (System q m p todo (CWoken timeout result))
| C_spurious q m p todo result :
    sys_step tmo (System q m p todo (CBlocked result))
                 (System q m p todo (CWoken no_timeout result))
| C_relock q p todo st result :
    sys_step tmo (System q None p todo (CWoken st result))
                 (System q (Some Consumer) p todo
                    (match st with
                     | timeout => CLast result
                     | no_timeout => CPred result
                     end))
| C_last q m p todo fuel result b result' q' ev :
    try_pop result fuel q = Done (b, result', q', ev) ->
    sys_step tmo (System q m p todo (CLast result))
                 (System q' m p todo (CUnlock result'))
| C_unlock q m p todo result :
    sys_step tmo (System q m p todo (CUnlock result))
                 (System q None p todo (CDone (handle_of result))).

(** The states of the two threads: the producer has the samples [todo] to
    push, one call each, the consumer is at the start of one call of
    [pop_sample], nobody holds the mutex, and the queue is in a state
    reached by complete calls. *)
Inductive sys_reachable (C : Z) (tmo : float) : system -> Prop :=
| sys_start q todo :
    reachable C q -> sys_reachable C tmo (System q None PIdle todo CFirst)
| sys_next s s' :
    sys_reachable C tmo s -> sys_step tmo s s' -> sys_reachable C tmo s'.

(** Who holds the mutex, by where the threads stand. *)
Definition producer_holds (p : producer_pc) : bool :=
  match p with PNotify | PUnlock => true | _ => false end.
Definition consumer_holds (c : consumer_pc) : bool :=
  match c with
  | CSecond _ | CPred _ | CWait _ | CLast _ | CUnlock _ => true
  | _ => false
  end.
Definition owner (p : producer_pc) (c : consumer_pc) : option thread :=
  if producer_holds p then Some Producer
  else if consumer_holds c then Some Consumer else None.

(** What holds in every state of the two threads.  While the consumer is
    at the wait or blocked in it and a sample is unread, the producer is
    between its store and its [notify_one]. *)
Record sys_inv (C : Z) (s : system) : Prop := SysInv {
  sys_inv_queue : reachable C (sys_queue s);
  sys_inv_mutex : sys_mutex s = owner (sys_prod s) (sys_cons s);
  sys_inv_excl : producer_holds (sys_prod s) = true ->
                 consumer_holds (sys_cons s) = false;
  sys_inv_wait : forall result, sys_cons s = CWait result ->
                 contents (sys_queue s) ≠ [] -> sys_prod s = PLock;
  sys_inv_blocked : forall result, sys_cons s = CBlocked result ->
                    contents (sys_queue s) ≠ [] ->
                    sys_prod s = PLock ∨ sys_prod s = PNotify
}.

(** A single slot whose sequence number is the write cursor, as in a new
    queue of one slot. *)
Definition single_slot (q : consumer_queue) : Prop :=
  size_ q = 1 ∧ exists it, buffer_ q = [it] ∧ seq_state it = write_idx_ q.

(** * Proofs *)

(** ** Arithmetic of the index space *)

Lemma mod_slot_distinct (C p p' : Z) :
  0 < C -> p ≠ p' -> - C < p - p' < C -> p mod C ≠ p' mod C.
Proof.
  intros HC Hne Hd Heq.
  pose proof (Z.div_mod p C ltac:(lia)) as Hp.
  pose proof (Z.div_mod p' C ltac:(lia)) as Hp'.
  rewrite Heq in Hp.
  assert (p - p' = C * (p / C - p' / C)) as Hk by lia.
  assert (p / C - p' / C = 0) by nia.
  lia.
Qed.

Lemma mod_twice (C p : Z) : 0 < C -> (p mod (2 * C)) mod C = p mod C.
Proof.
  intros HC. apply Z.mod_mod_divide. exists 2. lia.
Qed.

Lemma mod_shift (M p d : Z) : (p mod M + d) mod M = (p + d) mod M.
Proof. apply Zplus_mod_idemp_l. Qed.

Lemma mod_wrap_once (M x : Z) : 0 < M -> M ≤ x < 2 * M -> x mod M = x - M.
Proof.
  intros HM Hx. symmetry. apply (Z.mod_unique x M 1); lia.
Qed.

Lemma mod_offset_zero (M p d : Z) :
  0 < M -> 0 ≤ d < M -> (p + d) mod M = p mod M -> d = 0.
Proof.
  intros HM Hd Heq.
  destruct (decide (d = 0)) as [|Hne]; [done|].
  exfalso. apply (mod_slot_distinct M (p + d) p); lia.
Qed.

Lemma wrap_size_t_id (x : Z) : 0 ≤ x < size_t_range -> wrap_size_t x = x.
Proof. intros. unfold wrap_size_t. by apply Z.mod_small. Qed.

Lemma add_wrap_mod (C : Z) (q : consumer_queue) (x delta : Z) :
  capacity_ok C -> wrap_at_ q = 2 * C ->
  0 ≤ x < 2 * C -> 0 ≤ delta ≤ C ->
  add_wrap q x delta = (x + delta) mod (2 * C).
Proof.
  intros [HC Hmax] Hwrap Hx Hd. unfold add_wrap. rewrite Hwrap.
  rewrite (wrap_size_t_id (x + delta)) by lia.
  destruct (Z.leb_spec (2 * C) (x + delta)).
  - rewrite wrap_size_t_id by lia. rewrite mod_wrap_once; lia.
  - rewrite Z.mod_small; lia.
Qed.

Lemma add_wrap_range (C : Z) (q : consumer_queue) (x delta : Z) :
  capacity_ok C -> wrap_at_ q = 2 * C ->
  0 ≤ x < 2 * C -> 0 ≤ delta ≤ C ->
  0 ≤ add_wrap q x delta < 2 * C.
Proof.
  intros HC Hwrap Hx Hd. rewrite (add_wrap_mod C) by done.
  apply Z.mod_pos_bound. destruct HC. lia.
Qed.

(** ** The two primitives, computed *)

Lemma alter_as_insert {A} (f : A -> A) (l : list A) (i : nat) (x : A) :
  l !! i = Some x -> alter f i l = <[i := f x]> l.
Proof.
  intros Hx. apply list_eq. intros j.
  pose proof (lookup_lt_Some _ _ _ Hx).
  destruct (decide (i = j)) as [<-|Hne].
  - rewrite list_lookup_alter_eq, list_lookup_insert_eq, Hx by done. done.
  - by rewrite list_lookup_alter_ne, list_lookup_insert_ne.
Qed.

Lemma try_push_eq (smp : sample_p) (q : consumer_queue) (it : item_t) :
  size_ q ≠ 0 ->
  buffer_ q !! Z.to_nat (write_idx_ q mod size_ q) = Some it ->
  try_push smp q =
    if write_idx_ q =? seq_state it then Done (true, pushed_state smp q)
    else Done (false, q).
Proof.
  intros Hsz Hit. unfold try_push, slot_of, item_at.
  rewrite (proj2 (Z.eqb_neq _ _) Hsz). cbn. rewrite Hit. cbn.
  destruct (write_idx_ q =? seq_state it); cbn; [|done].
  do 2 f_equal. unfold pushed_state, update_item, set_buffer. cbn.
  f_equal. rewrite list_alter_alter_eq.
  by rewrite (alter_as_insert _ _ _ it).
Qed.

Lemma try_pop_loop_eq (fuel : nat) (q : consumer_queue) (it : item_t) :
  size_ q ≠ 0 ->
  buffer_ q !! Z.to_nat (read_idx_ q mod size_ q) = Some it ->
  try_pop_loop (S fuel) (read_idx_ q) q =
    if seq_state it =? add_wrap q (read_idx_ q) 1
    then Done (Some (read_idx_ q), set_read_idx (add_wrap q (read_idx_ q) 1) q)
    else if seq_state it =? read_idx_ q then Done (None, q)
    else try_pop_loop fuel (read_idx_ q) q.
Proof.
  intros Hsz Hit. cbn [try_pop_loop]. unfold slot_of, item_at.
  rewrite (proj2 (Z.eqb_neq _ _) Hsz). cbn. rewrite Hit. cbn.
  destruct (seq_state it =? add_wrap q (read_idx_ q) 1); [|done].
  unfold compare_exchange. by rewrite Z.eqb_refl.
Qed.

Lemma try_pop_loop_weak_nil (fuel : nat) :
  forall (read_index : Z) (q : consumer_queue),
  try_pop_loop_weak [] fuel read_index q = try_pop_loop fuel read_index q.
Proof.
  induction fuel as [|fuel IH]; intros read_index q; [done|].
  cbn [try_pop_loop_weak try_pop_loop tail].
  destruct (slot_of q read_index) as [i| |]; cbn; [|done|done].
  destruct (item_at q i) as [item| |]; cbn; [|done|done].
  destruct (seq_state item =? add_wrap q read_index 1).
  - destruct (compare_exchange read_index (add_wrap q read_index 1) q)
      as [[ok q'] read_index'].
    destruct ok; [done|apply IH].
  - destruct (seq_state item =? read_index); [done|apply IH].
Qed.

(** Spurious failures of the compare-exchange only delay the loop: when
    the slot at the read cursor is marked filled or free, as it is in
    every reachable state, the loop ends as it does without them. *)
Lemma try_pop_loop_weak_eq (spurious : list bool) :
  forall (fuel : nat) (q : consumer_queue) (it : item_t),
  size_ q ≠ 0 ->
  buffer_ q !! Z.to_nat (read_idx_ q mod size_ q) = Some it ->
  seq_state it = add_wrap q (read_idx_ q) 1 ∨ seq_state it = read_idx_ q ->
  (length spurious < fuel)%nat ->
  try_pop_loop_weak spurious fuel (read_idx_ q) q =
    try_pop_loop 1 (read_idx_ q) q.
Proof.
  induction spurious as [|fails spurious IH]; intros fuel q it Hsz Hit Hseq Hfuel;
    (destruct fuel as [|fuel]; [cbn in Hfuel; lia|]);
    rewrite (try_pop_loop_eq 0 q it) by done;
    cbn [try_pop_loop_weak]; unfold slot_of, item_at;
    rewrite (proj2 (Z.eqb_neq _ _) Hsz); cbn; rewrite Hit; cbn.
  - destruct (Z.eqb_spec (seq_state it) (add_wrap q (read_idx_ q) 1)) as [Heq|Hne].
    + unfold compare_exchange. by rewrite Z.eqb_refl.
    + destruct Hseq as [?|Heq]; [done|]. by rewrite Heq, Z.eqb_refl.
  - destruct (Z.eqb_spec (seq_state it) (add_wrap q (read_idx_ q) 1)) as [Heq|Hne].
    + destruct fails.
      * rewrite (IH fuel q it) by (done || cbn in Hfuel; lia).
        rewrite (try_pop_loop_eq 0 q it) by done.
        by rewrite (proj2 (Z.eqb_eq _ _) Heq).
      * unfold compare_exchange. by rewrite Z.eqb_refl.
    + destruct Hseq as [Heq|Heq]; [done|]. by rewrite Heq, Z.eqb_refl.
Qed.

Lemma try_pop_eq (dst : pack) (fuel : nat) (q : consumer_queue) (it : item_t) :
  size_ q ≠ 0 ->
  buffer_ q !! Z.to_nat (read_idx_ q mod size_ q) = Some it ->
  seq_state it = add_wrap q (read_idx_ q) 1 ∨ seq_state it = read_idx_ q ->
  try_pop dst (S fuel) q =
    if seq_state it =? add_wrap q (read_idx_ q) 1
    then Done (true, taken_out dst (value it),
               popped_state (left_in_slot dst (value it)) q,
               [claim_event dst (value it)])
    else Done (false, dst, q, []).
Proof.
  intros Hsz Hit Hseq. unfold try_pop.
  rewrite (try_pop_loop_eq fuel q it) by done.
  destruct (Z.eqb_spec (seq_state it) (add_wrap q (read_idx_ q) 1)) as [Heq|Hne].
  - cbn. unfold slot_of, item_at. cbn.
    rewrite (proj2 (Z.eqb_neq _ _) Hsz). cbn. rewrite Hit. cbn.
    unfold popped_state, update_item, set_buffer.
    destruct dst; cbn; do 2 f_equal; f_equal;
      rewrite list_alter_alter_eq; by rewrite (alter_as_insert _ _ _ it).
  - destruct Hseq as [?|Heq]; [done|].
    rewrite (proj2 (Z.eqb_eq _ _) Heq). done.
Qed.

Lemma try_pop_parts (dst : pack) (fuel : nat) (q : consumer_queue) :
  try_pop dst fuel q =
    '(claimed, q1) ← try_pop_claim fuel q;
    match claimed with
    | None => Done (false, dst, q1, [])
    | Some read_index =>
      '(dst', q2, ev) ← try_pop_release dst read_index q1;
      Done (true, dst', q2, ev)
    end.
Proof.
  unfold try_pop, try_pop_claim, try_pop_release.
  destruct (try_pop_loop fuel (read_idx_ q) q) as [[[read_index|] q1]| |]; try done.
  cbn. destruct (slot_of q1 read_index) as [i| |]; try done. cbn.
  destruct (item_at q1 i) as [item| |]; try done. cbn.
  by destruct (move_or_drop (value item) dst) as [[src dst'] ev].
Qed.

(** ** The shape is kept *)

Lemma wf_slot (C : Z) (q : consumer_queue) (index : Z) :
  0 < C -> wf C q -> exists it, buffer_ q !! Z.to_nat (index mod size_ q) = Some it.
Proof.
  intros HC Hwf. apply lookup_lt_is_Some.
  rewrite (wf_len _ _ Hwf), (wf_size _ _ Hwf).
  pose proof (Z.mod_pos_bound index C HC). lia.
Qed.

Lemma wf_size_nonzero (C : Z) (q : consumer_queue) : 0 < C -> wf C q -> size_ q ≠ 0.
Proof. intros HC Hwf. rewrite (wf_size _ _ Hwf). lia. Qed.

Lemma wf_new (C : Z) : capacity_ok C -> wf C (new_consumer_queue C).
Proof.
  intros [HC Hmax]. split; cbn.
  - done.
  - apply wrap_size_t_id. lia.
  - by rewrite length_fmap, length_seqZ.
  - lia.
  - lia.
  - apply Forall_fmap, Forall_forall. intros i Hi. cbn.
    apply elem_of_seqZ in Hi. lia.
Qed.

Lemma wf_pushed (C : Z) (smp : sample_p) (q : consumer_queue) :
  capacity_ok C -> wf C q -> wf C (pushed_state smp q).
Proof.
  intros HC [Hsz Hwr Hlen Hr Hw Hseq].
  assert (0 ≤ add_wrap q (write_idx_ q) 1 < 2 * C).
  { apply add_wrap_range; try done. destruct HC. lia. }
  split; cbn; try done.
  - by rewrite length_insert.
  - by apply Forall_insert.
Qed.

Lemma wf_popped (C : Z) (src : sample_p) (q : consumer_queue) :
  capacity_ok C -> wf C q -> wf C (popped_state src q).
Proof.
  intros HC [Hsz Hwr Hlen Hr Hw Hseq].
  assert (0 ≤ add_wrap q (read_idx_ q) 1 < 2 * C).
  { apply add_wrap_range; try done. destruct HC. lia. }
  assert (0 ≤ add_wrap q (read_idx_ q) (size_ q) < 2 * C).
  { apply add_wrap_range; try done. destruct HC. lia. }
  split; cbn; try done.
  - by rewrite length_insert.
  - by apply Forall_insert.
Qed.

Lemma wf_sync (C : Z) (d : bool) (q : consumer_queue) :
  wf C q -> wf C (set_done_sync d q).
Proof. intros []. by split. Qed.

(** ** The protocol is kept (capacity two or more) *)

Lemma repr_new (C : Z) : capacity_ok C -> repr C 0 0 [] (new_consumer_queue C).
Proof.
  intros [HC Hmax]. split; cbn; try done.
  - lia.
  - intros p Hp. exists (Item p None).
    rewrite Z.mod_small by lia.
    split; [|split].
    + rewrite list_lookup_fmap, lookup_seqZ_lt by lia.
      cbn. do 2 f_equal. lia.
    + cbn. destruct (Z.ltb_spec p 0); [lia|]. rewrite Z.mod_small; lia.
    + lia.
Qed.

Lemma slot_index_ne (C p p' : Z) :
  0 < C -> p ≠ p' -> - C < p - p' < C ->
  Z.to_nat (p mod C) ≠ Z.to_nat (p' mod C).
Proof.
  intros HC Hne Hd Heq.
  pose proof (Z.mod_pos_bound p C HC). pose proof (Z.mod_pos_bound p' C HC).
  apply (mod_slot_distinct C p p'); try done. lia.
Qed.

Lemma repr_try_push (C R W : Z) (l : list sample_p) (smp : sample_p)
    (q : consumer_queue) :
  capacity_ok C -> wf C q -> repr C R W l q -> W < R + C ->
  try_push smp q = Done (true, pushed_state smp q) ∧
  repr C R (W + 1) (l ++ [smp]) (pushed_state smp q).
Proof.
  intros HC Hwf [Hb Hr Hw Hlen Hslot] Hroom.
  pose proof HC as [HC0 Hmax].
  pose proof (wf_size _ _ Hwf) as Hsz. pose proof (wf_wrap _ _ Hwf) as Hwrap.
  destruct (Hslot W ltac:(lia)) as (it & Hit & Hseq & _).
  rewrite Z.ltb_irrefl in Hseq.
  assert (write_idx_ q mod size_ q = W mod C) as Hidx.
  { rewrite Hw, Hsz. by apply mod_twice. }
  split.
  - rewrite (try_push_eq smp q it); [|rewrite Hsz; lia|by rewrite Hidx].
    by rewrite Hseq, Hw, Z.eqb_refl.
  - assert (add_wrap q (write_idx_ q) 1 = (W + 1) mod (2 * C)) as Hnext.
    { rewrite (add_wrap_mod C); try done; try lia.
      - rewrite Hw. apply mod_shift.
      - apply (wf_write _ _ Hwf). }
    split; cbn.
    + lia.
    + done.
    + done.
    + rewrite length_app. cbn. lia.
    + intros p Hp. rewrite Hidx, Hnext.
      destruct (decide (p = W)) as [->|Hne].
      * exists (Item ((W + 1) mod (2 * C)) smp).
        rewrite list_lookup_insert_eq by (by eapply lookup_lt_Some).
        split; [done|]. cbn. split.
        -- destruct (Z.ltb_spec W (W + 1)); [done|lia].
        -- intros _. rewrite lookup_app_r by lia.
           replace (Z.to_nat (W - R) - length l)%nat with 0%nat by lia. done.
      * destruct (Hslot p Hp) as (it' & Hit' & Hseq' & Hval').
        exists it'. rewrite list_lookup_insert_ne by (apply slot_index_ne; lia).
        split; [done|]. split.
        -- rewrite Hseq'.
           destruct (Z.ltb_spec p W), (Z.ltb_spec p (W + 1)); try done; lia.
        -- intros Hlt. rewrite lookup_app_l by lia. apply Hval'. lia.
Qed.

Lemma repr_try_push_full (C R W : Z) (l : list sample_p) (smp : sample_p)
    (q : consumer_queue) :
  capacity_ok C -> 2 ≤ C -> wf C q -> repr C R W l q -> W = R + C ->
  try_push smp q = Done (false, q).
Proof.
  intros HC HC2 Hwf [Hb Hr Hw Hlen Hslot] ->.
  pose proof HC as [HC0 Hmax].
  pose proof (wf_size _ _ Hwf) as Hsz.
  destruct (Hslot R ltac:(lia)) as (it & Hit & Hseq & _).
  destruct (Z.ltb_spec R (R + C)); [|lia].
  assert (write_idx_ q mod size_ q = R mod C) as Hidx.
  { rewrite Hw, Hsz, mod_twice by done.
    replace (R + C) with (R + 1 * C) by lia. apply Z_mod_plus_full. }
  rewrite (try_push_eq smp q it); [|rewrite Hsz; lia|by rewrite Hidx].
  destruct (Z.eqb_spec (write_idx_ q) (seq_state it)) as [Heq|]; [|done].
  exfalso. rewrite Hw, Hseq in Heq.
  assert (C - 1 = 0); [|lia].
  apply (mod_offset_zero (2 * C) (R + 1)); try lia.
  rewrite <- Heq. f_equal. lia.
Qed.

Lemma repr_next_read (C R W : Z) (l : list sample_p) (q : consumer_queue) :
  capacity_ok C -> wf C q -> repr C R W l q ->
  add_wrap q (read_idx_ q) 1 = (R + 1) mod (2 * C) ∧
  add_wrap q (read_idx_ q) (size_ q) = (R + C) mod (2 * C) ∧
  read_idx_ q mod size_ q = R mod C.
Proof.
  intros HC Hwf Hrepr. pose proof HC as [HC0 Hmax].
  pose proof (wf_read _ _ Hwf). pose proof (wf_wrap _ _ Hwf).
  rewrite (wf_size _ _ Hwf), !(add_wrap_mod C) by (done || lia).
  rewrite (repr_read _ _ _ _ _ Hrepr), !mod_shift, mod_twice by done. done.
Qed.

Lemma repr_try_pop_empty (C R W : Z) (l : list sample_p) (dst : pack)
    (fuel : nat) (q : consumer_queue) :
  capacity_ok C -> wf C q -> repr C R W l q -> R = W ->
  try_pop dst (S fuel) q = Done (false, dst, q, []).
Proof.
  intros HC Hwf Hrepr <-. pose proof HC as [HC0 Hmax].
  destruct (repr_next_read C R R l q) as (Hnext & _ & Hidx); try done.
  destruct Hrepr as [Hb Hr Hw Hlen Hslot].
  destruct (Hslot R ltac:(lia)) as (it & Hit & Hseq & _).
  rewrite Z.ltb_irrefl in Hseq.
  rewrite (try_pop_eq dst fuel q it);
    [|rewrite (wf_size _ _ Hwf); lia|by rewrite Hidx|right; congruence].
  destruct (Z.eqb_spec (seq_state it) (add_wrap q (read_idx_ q) 1)) as [Heq|];
    [|done].
  exfalso. rewrite Hnext, Hseq in Heq.
  assert (1 = 0); [|lia].
  apply (mod_offset_zero (2 * C) R); lia || done.
Qed.

Lemma repr_try_pop (C R W : Z) (l : list sample_p) (dst : pack)
    (fuel : nat) (q : consumer_queue) :
  capacity_ok C -> wf C q -> repr C R W l q -> R < W ->
  exists v l', l = v :: l' ∧
    payload_at q (read_idx_ q) = v ∧
    try_pop dst (S fuel) q =
      Done (true, taken_out dst v, popped_state (left_in_slot dst v) q,
            [claim_event dst v]) ∧
    repr C (R + 1) W l' (popped_state (left_in_slot dst v) q).
Proof.
  intros HC Hwf Hrepr Hlt. pose proof HC as [HC0 Hmax].
  destruct (repr_next_read C R W l q) as (Hnext & Hfree & Hidx); try done.
  destruct Hrepr as [Hb Hr Hw Hlen Hslot].
  destruct (Hslot R ltac:(lia)) as (it & Hit & Hseq & Hval).
  destruct (Z.ltb_spec R W); [|lia].
  specialize (Hval Hlt). rewrite Z.sub_diag in Hval. cbn in Hval.
  destruct l as [|v l']; [done|]. cbn in Hval.
  injection Hval as ->.
  exists (value it), l'. split; [done|]. split; [|split].
  - unfold payload_at. by rewrite Hidx, Hit.
  - rewrite (try_pop_eq dst fuel q it);
      [|rewrite (wf_size _ _ Hwf); lia|by rewrite Hidx|left; congruence].
    by rewrite Hnext, Hseq, Z.eqb_refl.
  - split; cbn.
    + lia.
    + done.
    + done.
    + cbn in Hlen. lia.
    + intros p Hp. rewrite Hidx, Hfree.
      destruct (decide (p = R + C)) as [->|Hne].
      * exists (Item ((R + C) mod (2 * C)) (left_in_slot dst (value it))).
        replace ((R + C) mod C) with (R mod C)
          by (replace (R + C) with (R + 1 * C) by lia;
              symmetry; apply Z_mod_plus_full).
        rewrite list_lookup_insert_eq by (by eapply lookup_lt_Some).
        split; [done|]. cbn. split.
        -- destruct (Z.ltb_spec (R + C) W); [lia|done].
        -- lia.
      * destruct (Hslot p ltac:(lia)) as (it' & Hit' & Hseq' & Hval').
        exists it'. rewrite list_lookup_insert_ne by (apply slot_index_ne; lia).
        split; [done|]. split; [done|].
        intros Hlt'. specialize (Hval' Hlt').
        replace (Z.to_nat (p - R)) with (S (Z.to_nat (p - (R + 1)))) in Hval'
          by lia.
        done.
Qed.

(** ** The single-slot queue *)

Lemma inv1_slot (q : consumer_queue) (index : Z) :
  wf 1 q -> inv1 q ->
  exists it, buffer_ q = [it] ∧ seq_state it = write_idx_ q ∧
    buffer_ q !! Z.to_nat (index mod size_ q) = Some it.
Proof.
  intros Hwf (it & Hbuf & Hseq). exists it. split; [done|]. split; [done|].
  rewrite (wf_size _ _ Hwf), Z.mod_1_r, Hbuf. done.
Qed.

Lemma inv1_add_wrap (q : consumer_queue) (x : Z) :
  capacity_ok 1 -> wf 1 q -> 0 ≤ x < 2 -> add_wrap q x 1 = 1 - x.
Proof.
  intros HC Hwf Hx. rewrite (add_wrap_mod 1); try done; try lia.
  - assert (x = 0 ∨ x = 1) as [->| ->] by lia; done.
  - apply (wf_wrap _ _ Hwf).
Qed.

Lemma inv1_try_push (smp : sample_p) (q : consumer_queue) :
  capacity_ok 1 -> wf 1 q -> inv1 q ->
  try_push smp q = Done (true, pushed_state smp q) ∧ inv1 (pushed_state smp q).
Proof.
  intros HC Hwf Hinv.
  destruct (inv1_slot q (write_idx_ q) Hwf Hinv) as (it & Hbuf & Hseq & Hit).
  split.
  - rewrite (try_push_eq smp q it); [|rewrite (wf_size _ _ Hwf); lia|done].
    by rewrite Hseq, Z.eqb_refl.
  - exists (Item (add_wrap q (write_idx_ q) 1) smp). cbn.
    rewrite (wf_size _ _ Hwf), Z.mod_1_r, Hbuf. done.
Qed.

Lemma inv1_try_pop (dst : pack) (fuel : nat) (q : consumer_queue) :
  capacity_ok 1 -> wf 1 q -> inv1 q ->
  (read_idx_ q = write_idx_ q ∧
   try_pop dst (S fuel) q = Done (false, dst, q, [])) ∨
  (read_idx_ q ≠ write_idx_ q ∧
   let v := payload_at q (read_idx_ q) in
   try_pop dst (S fuel) q =
     Done (true, taken_out dst v, popped_state (left_in_slot dst v) q,
           [claim_event dst v]) ∧
   inv1 (popped_state (left_in_slot dst v) q) ∧
   read_idx_ (popped_state (left_in_slot dst v) q) = write_idx_ q).
Proof.
  intros HC Hwf Hinv.
  destruct (inv1_slot q (read_idx_ q) Hwf Hinv) as (it & Hbuf & Hseq & Hit).
  pose proof (wf_read _ _ Hwf) as Hr. pose proof (wf_write _ _ Hwf) as Hw.
  pose proof (inv1_add_wrap q (read_idx_ q) HC Hwf ltac:(lia)) as Hnext.
  assert (payload_at q (read_idx_ q) = value it) as Hpay.
  { unfold payload_at. by rewrite Hit. }
  destruct (decide (read_idx_ q = write_idx_ q)) as [Heq|Hne]; [left|right];
    (split; [done|]).
  - rewrite (try_pop_eq dst fuel q it);
      [|rewrite (wf_size _ _ Hwf); lia|done|right; congruence].
    destruct (Z.eqb_spec (seq_state it) (add_wrap q (read_idx_ q) 1)); [lia|done].
  - cbn zeta. rewrite Hpay. split; [|split].
    + rewrite (try_pop_eq dst fuel q it);
        [|rewrite (wf_size _ _ Hwf); lia|done|left; lia].
      destruct (Z.eqb_spec (seq_state it) (add_wrap q (read_idx_ q) 1)); [done|lia].
    + eexists. cbn. rewrite (wf_size _ _ Hwf), Z.mod_1_r, Hbuf. cbn.
      split; [done|]. cbn. lia.
    + cbn. lia.
Qed.

(** ** What the queue holds, by the invariants *)

Lemma repr_available (C R W : Z) (l : list sample_p) (q : consumer_queue) :
  capacity_ok C -> wf C q -> repr C R W l q -> read_available q = W - R.
Proof.
  intros [HC0 Hmax] Hwf [Hb Hr Hw Hlen Hslot]. unfold read_available.
  rewrite (wf_wrap _ _ Hwf), Hr, Hw, <- Zminus_mod. apply Z.mod_small. lia.
Qed.

Lemma repr_contents (C R W : Z) (l : list sample_p) (q : consumer_queue) :
  capacity_ok C -> wf C q -> repr C R W l q -> contents q = l.
Proof.
  intros HC Hwf Hrepr. pose proof HC as [HC0 Hmax].
  pose proof (repr_available C R W l q HC Hwf Hrepr) as Hav.
  destruct Hrepr as [Hb Hr Hw Hlen Hslot].
  unfold contents. rewrite Hav. apply list_eq. intros k.
  rewrite list_lookup_fmap.
  destruct (decide (Z.of_nat k < W - R)) as [Hk|Hk].
  - rewrite lookup_seqZ_lt by done. cbn.
    destruct (Hslot (R + Z.of_nat k) ltac:(lia)) as (it & Hit & _ & Hval).
    specialize (Hval ltac:(lia)).
    replace (Z.to_nat (R + Z.of_nat k - R)) with k in Hval by lia.
    rewrite Hval. f_equal. unfold payload_at.
    replace ((read_idx_ q + (0 + Z.of_nat k)) mod size_ q)
      with ((R + Z.of_nat k) mod C).
    + by rewrite Hit.
    + rewrite (wf_size _ _ Hwf), Hr, Z.add_0_l.
      rewrite (Zplus_mod (R mod (2 * C))), mod_twice by done.
      by rewrite <- Zplus_mod.
  - rewrite lookup_seqZ_ge by lia. cbn. symmetry.
    apply lookup_ge_None. lia.
Qed.

Lemma inv1_contents (q : consumer_queue) :
  capacity_ok 1 -> wf 1 q -> inv1 q ->
  (read_idx_ q = write_idx_ q ∧ read_available q = 0 ∧ contents q = []) ∨
  (read_idx_ q ≠ write_idx_ q ∧ read_available q = 1 ∧
   contents q = [payload_at q (read_idx_ q)]).
Proof.
  intros HC Hwf Hinv.
  pose proof (wf_read _ _ Hwf) as Hr. pose proof (wf_write _ _ Hwf) as Hw.
  unfold contents, read_available. rewrite (wf_wrap _ _ Hwf).
  assert (read_idx_ q = 0 ∨ read_idx_ q = 1) as [Hr'|Hr'] by lia;
  assert (write_idx_ q = 0 ∨ write_idx_ q = 1) as [Hw'|Hw'] by lia;
    rewrite Hr', Hw'; cbn; [left|right|right|left]; done.
Qed.

Lemma repr_sync (C R W : Z) (l : list sample_p) (d : bool) (q : consumer_queue) :
  repr C R W l q -> repr C R W l (set_done_sync d q).
Proof. intros []. by split. Qed.

(** ** The invariant and the primitives *)

Lemma inv_wf (C : Z) (q : consumer_queue) : inv C q -> wf C q.
Proof. by intros []. Qed.

Lemma inv_new (C : Z) : capacity_ok C -> inv C (new_consumer_queue C).
Proof.
  intros HC. split; [by apply wf_new|].
  destruct (decide (C = 1)) as [->|Hne].
  - right. split; [done|]. by exists (Item 0 None).
  - left. split; [destruct HC; lia|]. exists 0, 0, []. by apply repr_new.
Qed.

Lemma inv_sync (C : Z) (d : bool) (q : consumer_queue) :
  inv C q -> inv C (set_done_sync d q).
Proof.
  intros [Hwf Hcase]. split; [by apply wf_sync|].
  destruct Hcase as [(HC2 & R & W & l & Hrepr)|(-> & it & Hbuf & Hseq)].
  - left. split; [done|]. exists R, W, l. by apply repr_sync.
  - right. split; [done|]. by exists it.
Qed.

Lemma inv_available (C : Z) (q : consumer_queue) :
  capacity_ok C -> inv C q ->
  0 ≤ read_available q ≤ C ∧ Z.of_nat (length (contents q)) = read_available q.
Proof.
  intros HC [Hwf Hcase].
  assert (0 ≤ read_available q ≤ C) as Hav.
  { destruct Hcase as [(HC2 & R & W & l & Hrepr)|(-> & Hinv)].
    - rewrite (repr_available C R W l q) by done.
      destruct Hrepr as [Hb _ _ _ _]. lia.
    - destruct (inv1_contents q HC Hwf Hinv) as [(_ & -> & _)|(_ & -> & _)]; lia. }
  split; [done|]. unfold contents. rewrite length_fmap, length_seqZ. lia.
Qed.

(** [try_pop] claims the oldest unread sample, if there is one. *)
Lemma inv_try_pop (C : Z) (dst : pack) (fuel : nat) (q : consumer_queue) :
  capacity_ok C -> inv C q ->
  match contents q with
  | [] => try_pop dst (S fuel) q = Done (false, dst, q, [])
  | v :: l' =>
    payload_at q (read_idx_ q) = v ∧
    try_pop dst (S fuel) q =
      Done (true, taken_out dst v, popped_state (left_in_slot dst v) q,
            [claim_event dst v]) ∧
    inv C (popped_state (left_in_slot dst v) q) ∧
    contents (popped_state (left_in_slot dst v) q) = l'
  end.
Proof.
  intros HC [Hwf Hcase].
  destruct Hcase as [(HC2 & R & W & l & Hrepr)|(-> & Hinv)].
  - rewrite (repr_contents C R W l q) by done.
    pose proof (repr_bounds _ _ _ _ _ Hrepr) as Hb.
    pose proof (repr_len _ _ _ _ _ Hrepr) as Hlen.
    destruct (decide (R = W)) as [Heq|Hne].
    + destruct l; [|cbn in Hlen; lia].
      by apply (repr_try_pop_empty C R W []).
    + destruct (repr_try_pop C R W l dst fuel q) as (v & l' & -> & Hpay & Hpop & Hrepr');
        try done; try lia.
      assert (wf C (popped_state (left_in_slot dst v) q)) by by apply wf_popped.
      split; [done|]. split; [done|]. split.
      * split; [done|]. left. split; [done|]. by exists (R + 1), W, l'.
      * by apply (repr_contents C (R + 1) W).
  - destruct (inv1_try_pop dst fuel q HC Hwf Hinv)
      as [(Heq & Hpop)|(Hne & Hpop & Hinv' & Hr')];
    destruct (inv1_contents q HC Hwf Hinv) as [(? & _ & ->)|(? & _ & ->)];
      try done.
    cbn zeta in *. set (v := payload_at q (read_idx_ q)) in *.
    assert (wf 1 (popped_state (left_in_slot dst v) q)) as Hwf'
      by by apply wf_popped.
    split; [done|]. split; [done|]. split.
    + split; [done|]. by right.
    + destruct (inv1_contents _ HC Hwf' Hinv') as [(_ & _ & ->)|(Hne' & _)];
        [done|].
      by rewrite Hr' in Hne'.
Qed.

(** [try_push] stores the sample unless the queue is full. With a single
    slot it always stores, and a sample already there is lost with it. *)
Lemma inv_try_push (C : Z) (smp : sample_p) (q : consumer_queue) :
  capacity_ok C -> inv C q ->
  (2 ≤ C ∧ read_available q = C ∧ try_push smp q = Done (false, q)) ∨
  (try_push smp q = Done (true, pushed_state smp q) ∧
   inv C (pushed_state smp q) ∧
   ((read_available q < C ∧
     contents (pushed_state smp q) = contents q ++ [smp]) ∨
    (C = 1 ∧ read_available q = 1 ∧ contents (pushed_state smp q) = []))).
Proof.
  intros HC [Hwf Hcase].
  assert (wf C (pushed_state smp q)) as Hwf' by by apply wf_pushed.
  destruct Hcase as [(HC2 & R & W & l & Hrepr)|(-> & Hinv)].
  - pose proof (repr_bounds _ _ _ _ _ Hrepr) as Hb.
    pose proof (repr_available C R W l q HC Hwf Hrepr) as Hav.
    destruct (decide (W = R + C)) as [Heq|Hne].
    + left. split; [done|]. split; [lia|].
      by apply (repr_try_push_full C R W l).
    + right. destruct (repr_try_push C R W l smp q) as [Hpush Hrepr'];
        try done; try lia.
      split; [done|]. split.
      * split; [done|]. left. split; [done|]. by exists R, (W + 1), (l ++ [smp]).
      * left. split; [lia|].
        rewrite (repr_contents C R W l q) by done.
        by apply (repr_contents C R (W + 1)).
  - right. destruct (inv1_try_push smp q HC Hwf Hinv) as [Hpush Hinv'].
    split; [done|]. split; [split; [done|by right]|].
    assert (read_idx_ (pushed_state smp q) = read_idx_ q) as Hr by done.
    assert (write_idx_ (pushed_state smp q) = 1 - write_idx_ q) as Hw.
    { cbn. apply inv1_add_wrap; try done. apply (wf_write _ _ Hwf). }
    pose proof (wf_read _ _ Hwf). pose proof (wf_write _ _ Hwf).
    destruct (inv1_contents q HC Hwf Hinv) as [(Heq & -> & ->)|(Hne & -> & ->)];
    destruct (inv1_contents _ HC Hwf' Hinv') as [(Heq' & _ & ->)|(Hne' & _ & ->)];
      try lia.
    + left. split; [lia|]. cbn. f_equal.
      unfold payload_at. cbn.
      rewrite (wf_size _ _ Hwf), !Z.mod_1_r.
      destruct Hinv as (it & -> & _). done.
    + right. done.
Qed.

(** Every reachable state satisfies the invariant. *)
Lemma reachable_inv (C : Z) (q : consumer_queue) :
  capacity_ok C -> reachable C q -> inv C q.
Proof.
  intros HC Hreach.
  induction Hreach as [|q smp b q' _ IH Hpush|q dst fuel b dst' q' ev _ IH Hpop|q _ IH].
  - by apply inv_new.
  - destruct (inv_try_push C smp q HC IH) as [(_ & _ & Heq)|(Heq & Hinv & _)];
      rewrite Heq in Hpush; by simplify_eq.
  - destruct fuel as [|fuel]; [done|].
    pose proof (inv_try_pop C dst fuel q HC IH) as Hspec.
    destruct (contents q) as [|v l'].
    + rewrite Hspec in Hpop. by simplify_eq.
    + destruct Hspec as (_ & Heq & Hinv & _). rewrite Heq in Hpop. by simplify_eq.
  - by apply inv_sync.
Qed.

(** ** Properties kept along a run *)

Lemma try_push_failed (smp : sample_p) (q q' : consumer_queue) :
  try_push smp q = Done (false, q') -> q' = q.
Proof.
  unfold try_push, slot_of, item_at.
  destruct (size_ q =? 0); [done|]. cbn.
  destruct (buffer_ q !! _) as [it|]; [|done]. cbn.
  destruct (write_idx_ q =? seq_state it); cbn; congruence.
Qed.

Lemma bind_Done {A B} (m : outcome A) (f : A -> outcome B) (b : B) :
  m ≫= f = Done b -> exists a, m = Done a ∧ f a = Done b.
Proof. destruct m as [a| |]; cbn; [|done|done]. intros. by exists a. Qed.

(** Splits an equation [m ≫= f = Done b] into the result of [m] and the
    equation of the rest. *)
Ltac step_bind H :=
  let a := fresh "a" in
  let Ha := fresh "Hstep" in
  apply bind_Done in H as (a & Ha & H); cbn beta iota in H.

(** A property [I] of the queue and of the trace so far that every
    primitive step keeps is kept by every public operation. *)
Section Kept.

Variable I : consumer_queue -> list event -> Prop.

Hypothesis kept_push : forall q tr smp q',
  I q tr -> try_push smp q = Done (true, q') -> I q' (tr ++ [Stored smp]).
Hypothesis kept_sync : forall q tr,
  I q tr -> done_sync_ q = false ->
  I (set_done_sync true q) (tr ++ [Fence; SyncStore]).
Hypothesis kept_pop : forall q tr dst fuel b dst' q' ev,
  I q tr -> try_pop dst fuel q = Done (b, dst', q', ev) -> I q' (tr ++ ev).
Hypothesis kept_other : forall q tr dst fuel b dst' q' ev,
  I q tr -> try_pop dst fuel q = Done (b, dst', q', ev) ->
  I q' (tr ++ (elsewhere <$> ev)).
Hypothesis kept_silent : forall q tr e,
  I q tr -> e = Lock ∨ e = Notify ∨ e = Wait -> I q (tr ++ [e]).

Lemma kept_push_sample_loop (fuel : nat) (smp : sample_p) :
  forall q tr q' ev,
  I q tr -> push_sample_loop fuel smp q = Done (q', ev) -> I q' (tr ++ ev).
Proof.
  induction fuel as [|fuel IH]; intros q tr q' ev HI Hrun; [done|].
  cbn [push_sample_loop] in Hrun.
  step_bind Hrun. destruct a as [pushed q1].
  destruct pushed.
  - simplify_eq. by eapply kept_push.
  - apply try_push_failed in Hstep as ->.
    destruct (done_sync_ q) eqn:Hsync; cbn [negb] in Hrun.
    + step_bind Hrun. destruct a as [[[b dst'] q2] ev2].
      step_bind Hrun. destruct a as [q3 ev3]. simplify_eq. cbn.
      rewrite app_assoc. eapply IH; [|done]. by eapply kept_pop.
    + step_bind Hrun. destruct a as [[[b dst'] q2] ev2].
      step_bind Hrun. destruct a as [q3 ev3]. simplify_eq.
      replace (tr ++ Fence :: SyncStore :: ev2 ++ ev3)
        with (((tr ++ [Fence; SyncStore]) ++ ev2) ++ ev3)
        by (by rewrite <- !app_assoc).
      eapply IH; [|done].
      eapply kept_pop; [|done]. by apply kept_sync.
Qed.

Lemma kept_push_sample (fuel : nat) (smp : sample_p) q tr q' ev :
  I q tr -> push_sample fuel smp q = Done (q', ev) -> I q' (tr ++ ev).
Proof.
  intros HI Hrun. unfold push_sample in Hrun.
  step_bind Hrun. destruct a as [q1 ev1]. simplify_eq.
  rewrite app_assoc.
  change [Lock; Notify] with ([Lock] ++ [Notify] : list event).
  rewrite app_assoc.
  apply kept_silent; [|auto]. apply kept_silent; [|auto].
  by eapply kept_push_sample_loop.
Qed.

Lemma kept_interfere (fuel : nat) (others : list act) :
  forall q tr q' ev,
  I q tr -> interfere fuel others q = Done (q', ev) -> I q' (tr ++ ev).
Proof.
  induction others as [|a others IH]; intros q tr q' ev HI Hrun; cbn in Hrun.
  - simplify_eq. by rewrite app_nil_r.
  - step_bind Hrun. destruct a0 as [q1 ev1].
    step_bind Hrun. destruct a0 as [q2 ev2]. simplify_eq.
    rewrite app_assoc. eapply IH; [|done].
    destruct a as [smp|].
    + by eapply kept_push_sample.
    + step_bind Hstep. destruct a as [[[b dst'] q3] ev3]. simplify_eq.
      by eapply kept_other.
Qed.

Lemma kept_wait_for (fuel : nat) (waits : list (cv_status * list act)) :
  forall result q tr result' q' ev,
  I q tr -> wait_for fuel waits result q = Done (result', q', ev) ->
  I q' (tr ++ ev).
Proof.
  induction waits as [|[st others] waits IH];
    intros result q tr result' q' ev HI Hrun; cbn [wait_for] in Hrun.
  - step_bind Hrun. destruct a as [[[ok r1] q1] ev1].
    pose proof (kept_pop _ _ _ _ _ _ _ _ HI Hstep) as HI1.
    destruct ok; [by simplify_eq|].
    step_bind Hrun. destruct a as [[[ok2 r2] q2] ev2]. simplify_eq.
    change (Wait :: ev2) with ([Wait] ++ ev2). rewrite !app_assoc.
    eapply kept_pop; [|done]. apply kept_silent; auto.
  - step_bind Hrun. destruct a as [[[ok r1] q1] ev1].
    pose proof (kept_pop _ _ _ _ _ _ _ _ HI Hstep) as HI1.
    destruct ok; [by simplify_eq|].
    step_bind Hrun. destruct a as [q2 ev2].
    assert (I q2 (((tr ++ ev1) ++ [Wait]) ++ ev2)) as HI2.
    { eapply kept_interfere; [|done]. apply kept_silent; auto. }
    destruct st.
    + step_bind Hrun. destruct a as [[r3 q3] ev3]. simplify_eq.
      change (Wait :: ev2 ++ ev3) with ([Wait] ++ ev2 ++ ev3).
      rewrite !app_assoc. by eapply IH.
    + step_bind Hrun. destruct a as [[[ok3 r3] q3] ev3]. simplify_eq.
      change (Wait :: ev2 ++ ev3) with ([Wait] ++ ev2 ++ ev3).
      rewrite !app_assoc. by eapply kept_pop.
Qed.

Lemma kept_pop_sample (fuel : nat) (tmo : float) (others : list act)
    (waits : list (cv_status * list act)) q tr r q' ev :
  I q tr -> pop_sample fuel tmo others waits q = Done (r, q', ev) ->
  I q' (tr ++ ev).
Proof.
  intros HI Hrun. unfold pop_sample in Hrun.
  step_bind Hrun. destruct a as [[[ok r1] q1] ev1].
  pose proof (kept_pop _ _ _ _ _ _ _ _ HI Hstep) as HI1.
  destruct (negb ok && PrimFloat.ltb 0 tmo); [|by simplify_eq].
  step_bind Hrun. destruct a as [q2 ev2].
  pose proof (kept_interfere _ _ _ _ _ _ HI1 Hstep0) as HI2.
  step_bind Hrun. destruct a as [[[ok3 r3] q3] ev3].
  assert (I q3 ((((tr ++ ev1) ++ ev2) ++ [Lock]) ++ ev3)) as HI3.
  { eapply kept_pop; [|done]. apply kept_silent; auto. }
  destruct ok3; cbn [negb] in Hrun.
  - simplify_eq.
    change (Lock :: ev3) with ([Lock] ++ ev3). by rewrite !app_assoc.
  - step_bind Hrun. destruct a as [[r4 q4] ev4]. simplify_eq.
    change (Lock :: ev3 ++ ev4) with ([Lock] ++ ev3 ++ ev4).
    rewrite !app_assoc. by eapply kept_wait_for.
Qed.

Lemma kept_flush_loop (fuel : nat) :
  forall n q tr n' q' ev,
  I q tr -> flush_loop fuel n q = Done (n', q', ev) -> I q' (tr ++ ev).
Proof.
  induction fuel as [|fuel IH]; intros n q tr n' q' ev HI Hrun; [done|].
  cbn [flush_loop] in Hrun.
  step_bind Hrun. destruct a as [[[ok r1] q1] ev1].
  pose proof (kept_pop _ _ _ _ _ _ _ _ HI Hstep) as HI1.
  destruct ok; [|by simplify_eq].
  step_bind Hrun. destruct a as [[n2 q2] ev2]. simplify_eq.
  rewrite app_assoc. by eapply IH.
Qed.

Lemma kept_step (fuel : nat) (o : op) q tr r q' ev :
  I q tr -> step fuel o q = Done (r, q', ev) -> I q' (tr ++ ev).
Proof.
  intros HI Hrun. destruct o as [smp|tmo others waits|]; cbn in Hrun.
  - step_bind Hrun. destruct a as [q1 ev1]. simplify_eq.
    by eapply kept_push_sample.
  - step_bind Hrun. destruct a as [[r1 q1] ev1]. simplify_eq.
    by eapply kept_pop_sample.
  - step_bind Hrun. destruct a as [[n1 q1] ev1]. simplify_eq.
    by eapply kept_flush_loop.
Qed.

Lemma kept_run (fuel : nat) (ops : list op) :
  forall q tr rs q' ev,
  I q tr -> run fuel ops q = Done (rs, q', ev) -> I q' (tr ++ ev).
Proof.
  induction ops as [|o ops IH]; intros q tr rs q' ev HI Hrun; cbn in Hrun.
  - simplify_eq. by rewrite app_nil_r.
  - step_bind Hrun. destruct a as [[r1 q1] ev1].
    step_bind Hrun. destruct a as [[rs2 q2] ev2]. simplify_eq.
    rewrite app_assoc. eapply IH; [|done]. by eapply kept_step.
Qed.

End Kept.

(** ** Reachability is kept *)

Lemma reachable_run (C : Z) (fuel : nat) (ops : list op) q rs q' ev :
  reachable C q -> run fuel ops q = Done (rs, q', ev) -> reachable C q'.
Proof.
  intros Hq Hrun.
  apply (kept_run (fun q _ => reachable C q)) with (tr := []) in Hrun; try done.
  - intros. by eapply reach_try_push.
  - intros. by apply reach_sync.
  - intros. by eapply reach_try_pop.
  - intros. by eapply reach_try_pop.
Qed.

Lemma reachable_step (C : Z) (fuel : nat) (o : op) q r q' ev :
  reachable C q -> step fuel o q = Done (r, q', ev) -> reachable C q'.
Proof.
  intros Hq Hrun. apply (reachable_run C fuel [o] q [r] q' ev Hq).
  cbn. rewrite Hrun. cbn. by rewrite app_nil_r.
Qed.

(** ** The latch *)

Lemma try_push_done_sync (smp : sample_p) (q : consumer_queue) b q' :
  try_push smp q = Done (b, q') -> done_sync_ q' = done_sync_ q.
Proof.
  unfold try_push, slot_of, item_at.
  destruct (size_ q =? 0); [done|]. cbn.
  destruct (buffer_ q !! _) as [it|]; [|done]. cbn.
  destruct (write_idx_ q =? seq_state it); cbn; intros; by simplify_eq.
Qed.

Lemma try_pop_loop_done_sync (fuel : nat) :
  forall read_index q claimed q',
  try_pop_loop fuel read_index q = Done (claimed, q') ->
  done_sync_ q' = done_sync_ q.
Proof.
  induction fuel as [|fuel IH]; intros read_index q claimed q' Hrun; [done|].
  cbn [try_pop_loop] in Hrun. unfold slot_of, item_at in Hrun.
  destruct (size_ q =? 0); [done|]. cbn in Hrun.
  destruct (buffer_ q !! _) as [it|]; [|done]. cbn in Hrun.
  destruct (seq_state it =? add_wrap q read_index 1).
  - unfold compare_exchange in Hrun.
    destruct (read_idx_ q =? read_index); [by simplify_eq|].
    by apply IH in Hrun.
  - destruct (seq_state it =? read_index); [by simplify_eq|].
    by apply IH in Hrun.
Qed.

Lemma try_pop_done_sync (dst : pack) (fuel : nat) (q : consumer_queue)
    b dst' q' ev :
  try_pop dst fuel q = Done (b, dst', q', ev) ->
  done_sync_ q' = done_sync_ q ∧ fences ev = 0%nat ∧ sync_stores ev = 0%nat.
Proof.
  intros Hrun. unfold try_pop in Hrun.
  step_bind Hrun. destruct a as [claimed q1].
  apply try_pop_loop_done_sync in Hstep.
  destruct claimed as [read_index|]; [|by simplify_eq].
  unfold slot_of, item_at in Hrun.
  destruct (size_ q1 =? 0); [done|]. cbn in Hrun.
  destruct (buffer_ q1 !! _) as [it|]; [|done]. cbn in Hrun.
  destruct dst; cbn in Hrun; by simplify_eq.
Qed.

Lemma fences_app (tr1 tr2 : list event) :
  fences (tr1 ++ tr2) = (fences tr1 + fences tr2)%nat.
Proof. unfold fences. by rewrite omap_app, length_app. Qed.

Lemma sync_stores_app (tr1 tr2 : list event) :
  sync_stores (tr1 ++ tr2) = (sync_stores tr1 + sync_stores tr2)%nat.
Proof. unfold sync_stores. by rewrite omap_app, length_app. Qed.

(** Along a run, the fences taken so far plus the initial value of the
    latch is its current value; every fence comes with its store. *)
Lemma latch_run (fuel : nat) (ops : list op) q rs q' tr :
  run fuel ops q = Done (rs, q', tr) ->
  (fences tr + latch (done_sync_ q))%nat = latch (done_sync_ q') ∧
  sync_stores tr = fences tr.
Proof.
  intros Hrun.
  apply (kept_run (fun q1 tr1 =>
    (fences tr1 + latch (done_sync_ q))%nat = latch (done_sync_ q1) ∧
    sync_stores tr1 = fences tr1)) with (tr := []) in Hrun; try done.
  - intros q1 tr1 smp q2 [H1 H2] Hpush.
    rewrite fences_app, sync_stores_app, (try_push_done_sync _ _ _ _ Hpush).
    cbn. lia.
  - intros q1 tr1 [H1 H2] Hsync.
    rewrite fences_app, sync_stores_app. rewrite Hsync in H1. cbn in *. lia.
  - intros q1 tr1 dst fuel1 b dst' q2 ev [H1 H2] Hpop.
    apply try_pop_done_sync in Hpop as (-> & Hf & Hs).
    rewrite fences_app, sync_stores_app. lia.
  - intros q1 tr1 dst fuel1 b dst' q2 ev [H1 H2] Hpop.
    rewrite fences_app, sync_stores_app.
    assert (fences (elsewhere <$> ev) = 0%nat ∧
            sync_stores (elsewhere <$> ev) = 0%nat) as [-> ->].
    { unfold try_pop in Hpop. step_bind Hpop. destruct a as [claimed q3].
      destruct claimed as [read_index|]; [|by simplify_eq].
      unfold slot_of, item_at in Hpop.
      destruct (size_ q3 =? 0); [done|]. cbn in Hpop.
      destruct (buffer_ q3 !! _) as [it|]; [|done]. cbn in Hpop.
      destruct dst; cbn in Hpop; by simplify_eq. }
    apply try_pop_done_sync in Hpop as (-> & _ & _). lia.
  - intros q1 tr1 e [H1 H2] He.
    rewrite fences_app, sync_stores_app.
    destruct He as [->|[->| ->]]; cbn; lia.
Qed.

(** ** First in, first out *)

Lemma inv_try_pop_inv (C : Z) (dst : pack) (fuel : nat) (q : consumer_queue)
    b dst' q' ev :
  capacity_ok C -> inv C q -> try_pop dst fuel q = Done (b, dst', q', ev) ->
  (contents q = [] ∧ b = false ∧ dst' = dst ∧ q' = q ∧ ev = []) ∨
  (exists v l', contents q = v :: l' ∧ b = true ∧ dst' = taken_out dst v ∧
     q' = popped_state (left_in_slot dst v) q ∧ ev = [claim_event dst v] ∧
     inv C q' ∧ contents q' = l').
Proof.
  intros HC Hinv Hpop. destruct fuel as [|fuel]; [done|].
  pose proof (inv_try_pop C dst fuel q HC Hinv) as Hspec.
  destruct (contents q) as [|v l'].
  - left. rewrite Hspec in Hpop. by simplify_eq.
  - right. destruct Hspec as (_ & Heq & Hinv' & Hcont).
    rewrite Heq in Hpop. injection Hpop as <- <- <- <-. by exists v, l'.
Qed.

Lemma stored_app (tr1 tr2 : list event) :
  stored (tr1 ++ tr2) = stored tr1 ++ stored tr2.
Proof. apply omap_app. Qed.
Lemma removed_app (tr1 tr2 : list event) :
  removed (tr1 ++ tr2) = removed tr1 ++ removed tr2.
Proof. apply omap_app. Qed.
Lemma delivered_app (tr1 tr2 : list event) :
  delivered (tr1 ++ tr2) = delivered tr1 ++ delivered tr2.
Proof. apply omap_app. Qed.
Lemma moved_app (tr1 tr2 : list event) :
  moved (tr1 ++ tr2) = moved tr1 ++ moved tr2.
Proof. apply omap_app. Qed.
Lemma dropped_app (tr1 tr2 : list event) :
  dropped (tr1 ++ tr2) = dropped tr1 ++ dropped tr2.
Proof. apply omap_app. Qed.

Lemma fifo_claim (C : Z) (dst : pack) (fuel : nat) (g : event -> event)
    q tr b dst' q' ev :
  capacity_ok C ->
  (forall s, g (Moved s) = Moved s ∨ g (Moved s) = Taken s) ->
  (forall s, g (Dropped s) = Dropped s) ->
  fifo C q tr -> try_pop dst fuel q = Done (b, dst', q', ev) ->
  fifo C q' (tr ++ (g <$> ev)).
Proof.
  intros HC Hmoved Hdropped (Hinv & Hall & Hsub) Hpop.
  destruct (inv_try_pop_inv C dst fuel q b dst' q' ev HC Hinv Hpop)
    as [(Hc & -> & -> & -> & ->)|(v & l' & Hc & -> & -> & -> & -> & Hinv' & Hc')].
  { cbn. by rewrite app_nil_r. }
  rewrite Hc in Hall, Hsub. unfold fifo. rewrite Hc'.
  split; [done|]. rewrite stored_app, removed_app, delivered_app.
  assert (stored (g <$> [claim_event dst v]) = [] ∧
          removed (g <$> [claim_event dst v]) = [v] ∧
          (delivered (g <$> [claim_event dst v]) = [v] ∨
           delivered (g <$> [claim_event dst v]) = [])) as (-> & -> & Hd).
  { destruct dst; cbn.
    - rewrite Hdropped. cbn. auto.
    - destruct (Hmoved v) as [-> | ->]; cbn; auto. }
  rewrite app_nil_r. split.
  - intros HC2. rewrite <- app_assoc. by apply Hall.
  - destruct Hd as [-> | ->].
    + by rewrite <- app_assoc.
    + rewrite app_nil_r. etrans; [|done].
      apply sublist_app; [done|]. by apply sublist_cons.
Qed.

Lemma fifo_run (C : Z) (fuel : nat) (ops : list op) q tr rs q' ev :
  capacity_ok C -> fifo C q tr -> run fuel ops q = Done (rs, q', ev) ->
  fifo C q' (tr ++ ev).
Proof.
  intros HC Hq Hrun.
  apply (kept_run (fifo C)) with (tr := tr) in Hrun; try done.
  - intros q1 tr1 smp q2 (Hinv & Hall & Hsub) Hpush.
    unfold fifo. rewrite stored_app, removed_app, delivered_app. cbn.
    rewrite !app_nil_r.
    destruct (inv_try_push C smp q1 HC Hinv)
      as [(_ & _ & Heq)|(Heq & Hinv' & Hc)];
      rewrite Heq in Hpush; simplify_eq.
    split; [done|].
    destruct Hc as [[_ ->]|(-> & _ & ->)].
    + rewrite !app_assoc. split.
      * intros HC2. by rewrite Hall.
      * by apply sublist_app.
    + split; [lia|]. rewrite app_nil_r.
      apply sublist_inserts_r. etrans; [|done].
      by apply sublist_inserts_r.
  - intros q1 tr1 (Hinv & Hall & Hsub) _.
    unfold fifo. rewrite stored_app, removed_app, delivered_app. cbn.
    rewrite !app_nil_r. split; [by apply inv_sync|]. done.
  - intros q1 tr1 dst fuel1 b dst' q2 ev1 Hq1 Hpop.
    rewrite <- (list_fmap_id ev1). eapply fifo_claim; try done; auto.
  - intros q1 tr1 dst fuel1 b dst' q2 ev1 Hq1 Hpop.
    eapply (fifo_claim C dst fuel1 elsewhere); try done; cbn; auto.
  - intros q1 tr1 e (Hinv & Hall & Hsub) He.
    unfold fifo. rewrite stored_app, removed_app, delivered_app.
    destruct He as [->|[->| ->]]; cbn; by rewrite !app_nil_r.
Qed.

(** ** The public operations return *)

#[local] Arguments try_pop : simpl never.
#[local] Arguments try_push : simpl never.

Lemma inv_synced (C : Z) (q : consumer_queue) : inv C q -> inv C (synced q).
Proof. intros. unfold synced. destruct (done_sync_ q); [done|by apply inv_sync]. Qed.

Lemma contents_synced (q : consumer_queue) : contents (synced q) = contents q.
Proof. unfold synced. by destruct (done_sync_ q). Qed.

Lemma available_synced (q : consumer_queue) :
  read_available (synced q) = read_available q.
Proof. unfold synced. by destruct (done_sync_ q). Qed.

(** [push_sample]'s loop: either the first [try_push] stores the sample,
    or the queue is full, one [try_pop] drops the oldest sample and the
    second [try_push] stores. *)
Lemma push_sample_loop_failed (fuel : nat) (smp : sample_p) (q : consumer_queue) :
  try_push smp q = Done (false, q) ->
  push_sample_loop (S fuel) smp q =
    '(_, _, q2, ev2) ← try_pop NoArg (S fuel) (synced q);
    '(q3, ev3) ← push_sample_loop fuel smp q2;
    Done (q3, sync_events q ++ ev2 ++ ev3).
Proof.
  intros Hpush. cbn [push_sample_loop]. rewrite Hpush. cbn.
  unfold synced, sync_events. by destruct (done_sync_ q).
Qed.

Lemma push_sample_loop_spec (C : Z) (smp : sample_p) (q : consumer_queue) :
  capacity_ok C -> inv C q ->
  ((read_available q < C ∨ C = 1) ∧
   try_push smp q = Done (true, pushed_state smp q) ∧
   (forall fuel, push_sample_loop (S fuel) smp q =
                 Done (pushed_state smp q, [Stored smp])) ∧
   inv C (pushed_state smp q) ∧
   (2 ≤ C -> contents (pushed_state smp q) = contents q ++ [smp])) ∨
  (2 ≤ C ∧ read_available q = C ∧
   try_push smp q = Done (false, q) ∧
   exists v l', contents q = v :: l' ∧ payload_at q (read_idx_ q) = v ∧
     let q' := pushed_state smp (popped_state v (synced q)) in
     (forall fuel, push_sample_loop (S (S fuel)) smp q =
                   Done (q', sync_events q ++ [Dropped v; Stored smp])) ∧
     read_available (popped_state v (synced q)) = C - 1 ∧
     inv C q' ∧ contents q' = l' ++ [smp]).
Proof.
  intros HC Hinv.
  destruct (inv_try_push C smp q HC Hinv)
    as [(HC2 & Hfull & Hpush)|(Hpush & Hinv' & Hc)].
  - right. split; [done|]. split; [done|]. split; [done|].
    pose proof (inv_synced C q Hinv) as Hinv1.
    pose proof (inv_try_pop C NoArg 0 (synced q) HC Hinv1) as Hpop.
    rewrite contents_synced in Hpop.
    destruct (inv_available C q HC Hinv) as [_ Hlen].
    destruct (contents q) as [|v l'] eqn:Hcont; [cbn in Hlen; lia|].
    destruct Hpop as (Hpay & _ & Hinv2 & Hc2). cbn in Hinv2, Hc2.
    assert (forall fuel, try_pop NoArg (S fuel) (synced q) =
      Done (true, NoArg, popped_state v (synced q), [Dropped v])) as Hpop.
    { intros fuel.
      pose proof (inv_try_pop C NoArg fuel (synced q) HC Hinv1) as Hpop.
      rewrite contents_synced, Hcont in Hpop. by destruct Hpop as (_ & ? & _). }
    exists v, l'. split; [done|]. split.
    { unfold synced in Hpay. by destruct (done_sync_ q). }
    set (q2 := popped_state v (synced q)) in *.
    destruct (inv_available C q2 HC Hinv2) as [_ Hlen2].
    rewrite Hc2 in Hlen2. cbn in Hlen.
    destruct (inv_try_push C smp q2 HC Hinv2)
      as [(_ & Hfull2 & _)|(Hpush2 & Hinv3 & Hc3)]; [lia|].
    cbn zeta. split; [|split; [lia|split; [done|]]].
    + intros fuel. cbn [push_sample_loop]. rewrite Hpush. cbn.
      specialize (Hpop (S fuel)). unfold q2, synced, sync_events in *.
      destruct (done_sync_ q); cbn; rewrite Hpop; cbn; by rewrite Hpush2.
    + destruct Hc3 as [[_ ->]|(-> & _)]; [|lia]. by rewrite Hc2.
  - left. split; [destruct Hc as [[? _]|(-> & _)]; auto|].
    split; [done|]. split; [|split; [done|]].
    + intros fuel. cbn [push_sample_loop]. by rewrite Hpush.
    + intros HC2. destruct Hc as [[_ ->]|(-> & _)]; [done|lia].
Qed.

Lemma push_sample_total (C : Z) (smp : sample_p) (fuel : nat)
    (q : consumer_queue) :
  capacity_ok C -> inv C q -> (2 ≤ fuel)%nat ->
  exists q' ev, push_sample fuel smp q = Done (q', ev) ∧ inv C q' ∧
    moved ev = [] ∧ (length (dropped ev) ≤ 1)%nat.
Proof.
  intros HC Hinv Hfuel.
  destruct fuel as [|[|fuel]]; [lia|lia|]. unfold push_sample.
  destruct (push_sample_loop_spec C smp q HC Hinv)
    as [(_ & _ & Hrun & Hinv' & _)
       |(_ & _ & _ & v & l' & _ & _ & Hrun & _ & Hinv' & _)].
  - rewrite Hrun. cbn. eexists _, _. split; [done|]. split; [done|]. cbn. auto.
  - rewrite Hrun. cbn.
    eexists _, _. split; [done|]. split; [done|].
    unfold sync_events. destruct (done_sync_ q); cbn; auto.
Qed.

(** A consumer's own attempt. *)
Lemma own_try_pop (C : Z) (r0 : sample_p) (fuel : nat) (q : consumer_queue) :
  capacity_ok C -> inv C q -> (1 ≤ fuel)%nat ->
  (contents q = [] ∧
   try_pop (OneArg r0) fuel q = Done (false, OneArg r0, q, [])) ∨
  (exists v l', contents q = v :: l' ∧
     try_pop (OneArg r0) fuel q =
       Done (true, OneArg v, popped_state None q, [Moved v]) ∧
     inv C (popped_state None q) ∧ contents (popped_state None q) = l').
Proof.
  intros HC Hinv Hfuel. destruct fuel as [|fuel]; [lia|].
  pose proof (inv_try_pop C (OneArg r0) fuel q HC Hinv) as Hpop.
  destruct (contents q) as [|v l']; [by left|right].
  destruct Hpop as (_ & Hpop & Hinv' & Hc'). by exists v, l'.
Qed.

Lemma interfere_total (C : Z) (fuel : nat) (others : list act) :
  capacity_ok C -> (2 ≤ fuel)%nat ->
  forall q, inv C q ->
  exists q' ev, interfere fuel others q = Done (q', ev) ∧ inv C q' ∧
    moved ev = [].
Proof.
  intros HC Hfuel.
  induction others as [|a others IH]; intros q Hinv; cbn [interfere].
  - by eexists _, _.
  - assert (exists q1 ev1,
      match a with
      | ActPush smp => push_sample fuel smp q
      | ActPop =>
        '(_, _, q, ev) ← try_pop (OneArg None) fuel q;
        Done (q, elsewhere <$> (ev : list event))
      end = Done (q1, ev1) ∧ inv C q1 ∧ moved ev1 = [])
      as (q1 & ev1 & -> & Hinv1 & Hm1).
    { destruct a as [smp|].
      - destruct (push_sample_total C smp fuel q)
          as (q1 & ev1 & Hrun & Hinv1 & Hm & _); try done.
        by exists q1, ev1.
      - destruct (own_try_pop C None fuel q HC Hinv ltac:(lia))
          as [(_ & ->)|(v & l' & _ & -> & Hinv1 & _)]; cbn.
        + by eexists _, _.
        + by eexists _, _. }
    cbn. destruct (IH q1 Hinv1) as (q2 & ev2 & -> & Hinv2 & Hm2). cbn.
    eexists _, _. split; [done|]. split; [done|].
    by rewrite moved_app, Hm1, Hm2.
Qed.

Lemma wait_for_total (C : Z) (fuel : nat) (waits : list (cv_status * list act)) :
  capacity_ok C -> (2 ≤ fuel)%nat ->
  forall r0 q, inv C q ->
  exists result q' ev,
    wait_for fuel waits (OneArg r0) q = Done (result, q', ev) ∧ inv C q' ∧
    took r0 result ev.
Proof.
  intros HC Hfuel.
  induction waits as [|[st others] waits IH]; intros r0 q Hinv;
    cbn [wait_for].
  - destruct (own_try_pop C r0 fuel q HC Hinv ltac:(lia))
      as [(_ & ->)|(v & l' & _ & -> & Hinv1 & _)]; cbn.
    + destruct (own_try_pop C r0 fuel q HC Hinv ltac:(lia))
        as [(_ & ->)|(v & l' & _ & -> & Hinv1 & _)]; cbn.
      * eexists _, _, _. split; [done|]. split; [done|]. by left.
      * eexists _, _, _. split; [done|]. split; [done|]. right. by exists v.
    + eexists _, _, _. split; [done|]. split; [done|]. right. by exists v.
  - destruct (own_try_pop C r0 fuel q HC Hinv ltac:(lia))
      as [(_ & ->)|(v & l' & _ & -> & Hinv1 & _)]; cbn.
    2: { eexists _, _, _. split; [done|]. split; [done|]. right. by exists v. }
    destruct (interfere_total C fuel others HC Hfuel q Hinv)
      as (q2 & ev2 & -> & Hinv2 & Hm2). cbn.
    destruct st.
    + destruct (IH r0 q2 Hinv2) as (result & q3 & ev3 & -> & Hinv3 & Htook).
      cbn. eexists _, _, _. split; [done|]. split; [done|].
      unfold took in *. cbn. rewrite moved_app, Hm2. done.
    + destruct (own_try_pop C r0 fuel q2 HC Hinv2 ltac:(lia))
        as [(_ & ->)|(v & l' & _ & -> & Hinv3 & _)]; cbn.
      * eexists _, _, _. split; [done|]. split; [done|].
        left. cbn. by rewrite moved_app, Hm2.
      * eexists _, _, _. split; [done|]. split; [done|].
        right. exists v. cbn. by rewrite moved_app, Hm2.
Qed.

(** When the first attempt decides: there is a sample, or the timeout is
    not positive. *)
Lemma pop_sample_first (C : Z) (fuel : nat) (tmo : float) (others : list act)
    (waits : list (cv_status * list act)) (q : consumer_queue) :
  capacity_ok C -> inv C q -> (1 ≤ fuel)%nat ->
  contents q ≠ [] ∨ PrimFloat.ltb 0 tmo = false ->
  pop_sample fuel tmo others waits q =
    match contents q with
    | [] => Done (None, q, [])
    | v :: _ => Done (v, popped_state None q, [Moved v])
    end.
Proof.
  intros HC Hinv Hfuel Hfirst. unfold pop_sample.
  destruct (own_try_pop C None fuel q HC Hinv Hfuel)
    as [(Hc & ->)|(v & l' & Hc & -> & _)]; rewrite Hc; cbn.
  - destruct Hfirst as [?| ->]; [congruence|done].
  - done.
Qed.

Lemma pop_sample_total (C : Z) (fuel : nat) (tmo : float) (others : list act)
    (waits : list (cv_status * list act)) (q : consumer_queue) :
  capacity_ok C -> inv C q -> (2 ≤ fuel)%nat ->
  exists r q' ev, pop_sample fuel tmo others waits q = Done (r, q', ev) ∧
    inv C q' ∧ ((moved ev = [] ∧ r = None) ∨ moved ev = [r]).
Proof.
  intros HC Hinv Hfuel. unfold pop_sample.
  destruct (own_try_pop C None fuel q HC Hinv ltac:(lia))
    as [(_ & ->)|(v & l' & _ & -> & Hinv1 & _)]; cbn.
  2: { eexists _, _, _. split; [done|]. split; [done|]. by right. }
  destruct (PrimFloat.ltb 0 tmo).
  2: { eexists _, _, _. split; [done|]. split; [done|]. by left. }
  destruct (interfere_total C fuel others HC Hfuel q Hinv)
    as (q2 & ev2 & -> & Hinv2 & Hm2). cbn.
  destruct (own_try_pop C None fuel q2 HC Hinv2 ltac:(lia))
    as [(_ & ->)|(v & l' & _ & -> & Hinv3 & _)]; cbn.
  - destruct (wait_for_total C fuel waits HC Hfuel None q2 Hinv2)
      as (result & q4 & ev4 & -> & Hinv4 & Htook). cbn.
    eexists _, _, _. split; [done|]. split; [done|].
    rewrite moved_app, Hm2.
    change (moved (Lock :: ev4)) with (moved ev4).
    destruct Htook as [[-> ->]|(v & -> & ->)]; cbn; auto.
  - eexists _, _, _. split; [done|]. split; [done|].
    right. by rewrite moved_app, Hm2.
Qed.

Lemma wrap_uint32_id (n : Z) : 0 ≤ n < uint32_range -> wrap_uint32 n = n.
Proof. intros. unfold wrap_uint32. by apply Z.mod_small. Qed.

Lemma wrap_uint32_range (n : Z) : 0 ≤ wrap_uint32 n < uint32_range.
Proof. unfold wrap_uint32. by apply Z.mod_pos_bound. Qed.

(** [flush] drops everything unread and counts it, modulo [2 ^ 32]. *)
Lemma flush_loop_spec (C : Z) (fuel : nat) :
  capacity_ok C ->
  forall n q, inv C q -> (length (contents q) < fuel)%nat ->
  0 ≤ n < uint32_range ->
  exists q', flush_loop fuel n q =
      Done (wrap_uint32 (n + Z.of_nat (length (contents q))), q',
            Dropped <$> contents q) ∧
    inv C q' ∧ contents q' = [].
Proof.
  intros HC. induction fuel as [|fuel IH]; intros n q Hinv Hfuel Hn; [lia|].
  cbn [flush_loop].
  pose proof (inv_try_pop C NoArg fuel q HC Hinv) as Hpop.
  destruct (contents q) as [|v l'] eqn:Hc.
  - rewrite Hpop. cbn. exists q.
    rewrite Z.add_0_r, wrap_uint32_id by done. done.
  - destruct Hpop as (_ & -> & Hinv' & Hc'). cbn.
    cbn in Hfuel, Hinv', Hc'.
    destruct (IH (wrap_uint32 (n + 1)) (popped_state v q) Hinv')
      as (q' & -> & Hinv'' & Hc''); [rewrite Hc'; lia|apply wrap_uint32_range|].
    cbn. exists q'. split; [|done]. rewrite Hc'. do 3 f_equal.
    unfold wrap_uint32. rewrite mod_shift. f_equal. lia.
Qed.

Lemma run_total (C : Z) (fuel : nat) (ops : list op) :
  capacity_ok C -> (2 ≤ fuel)%nat -> C < Z.of_nat fuel ->
  forall q, inv C q ->
  exists rs q' ev, run fuel ops q = Done (rs, q', ev) ∧ inv C q'.
Proof.
  intros HC Hfuel HfuelC.
  induction ops as [|o ops IH]; intros q Hinv; cbn [run].
  - by eexists _, _, _.
  - assert (exists r q1 ev1, step fuel o q = Done (r, q1, ev1) ∧ inv C q1)
      as (r & q1 & ev1 & -> & Hinv1).
    { destruct o as [smp|tmo others waits|]; cbn [step].
      - destruct (push_sample_total C smp fuel q)
          as (q1 & ev1 & -> & Hinv1 & _); try done.
        by eexists _, _, _.
      - destruct (pop_sample_total C fuel tmo others waits q)
          as (r & q1 & ev1 & -> & Hinv1 & _); try done.
        by eexists _, _, _.
      - destruct (inv_available C q HC Hinv) as [Hav Hlen].
        destruct (flush_loop_spec C fuel HC 0 q Hinv)
          as (q1 & Hrun & Hinv1 & _); [lia|done|].
        unfold flush. rewrite Hrun. by eexists _, _, _. }
    cbn. destruct (IH q1 Hinv1) as (rs & q2 & ev2 & -> & Hinv2). cbn.
    by eexists _, _, _.
Qed.

(** ** Counting the slots that hold an unread value *)

Lemma length_filter_iff {A} (P Q : A -> Prop)
    `{forall x, Decision (P x)} `{forall x, Decision (Q x)} (l : list A) :
  Forall (fun x => P x <-> Q x) l ->
  length (filter P l) = length (filter Q l).
Proof.
  induction 1 as [|x l Hx _ IH]; [done|].
  rewrite !filter_cons.
  destruct (decide (P x)), (decide (Q x)); cbn; tauto || lia.
Qed.

Lemma filter_all {A} (P : A -> Prop) `{forall x, Decision (P x)} (l : list A) :
  Forall P l -> filter P l = l.
Proof.
  induction 1 as [|x l Hx _ IH]; [done|].
  by rewrite filter_cons_True, IH.
Qed.

Lemma filter_none {A} (P : A -> Prop) `{forall x, Decision (P x)} (l : list A) :
  Forall (fun x => ¬ P x) l -> filter P l = [].
Proof.
  induction 1 as [|x l Hx _ IH]; [done|].
  by rewrite filter_cons_False.
Qed.

Lemma length_filter_below (R W n : Z) :
  0 ≤ n -> R ≤ W ≤ R + n ->
  Z.of_nat (length (filter (fun p => p < W) (seqZ R n))) = W - R.
Proof.
  intros Hn HW.
  replace n with ((W - R) + (R + n - W)) by lia.
  rewrite seqZ_app, filter_app, length_app by lia.
  assert (filter (fun p => p < W) (seqZ R (W - R)) = seqZ R (W - R)) as ->.
  { apply filter_all, Forall_forall. intros x Hx. apply elem_of_seqZ in Hx. lia. }
  assert (filter (fun p => p < W) (seqZ (R + (W - R)) (R + n - W)) = []) as ->.
  { apply filter_none, Forall_forall. intros x Hx. apply elem_of_seqZ in Hx. lia. }
  rewrite length_seqZ. cbn. lia.
Qed.

(** With two slots or more: the slot of the [k]-th index of the read
    window passes the test of [try_pop] exactly when that index is below
    the write position. *)
Lemma repr_slot_unread (C R W : Z) (l : list sample_p) (q : consumer_queue) (k : Z) :
  capacity_ok C -> 2 ≤ C -> wf C q -> repr C R W l q -> 0 ≤ k < C ->
  slot_unread q k = true <-> R + k < W.
Proof.
  intros HC HC2 Hwf Hrepr Hk. pose proof HC as [HC0 Hmax].
  destruct (repr_slot _ _ _ _ _ Hrepr (R + k) ltac:(lia)) as (it & Hit & Hseq & _).
  pose proof (wf_wrap _ _ Hwf) as Hwrap.
  pose proof (wf_read _ _ Hwf) as Hr.
  unfold slot_unread. cbn zeta.
  rewrite (add_wrap_mod C q (read_idx_ q) k) by (done || lia).
  rewrite (repr_read _ _ _ _ _ Hrepr), Zplus_mod_idemp_l.
  rewrite (wf_size _ _ Hwf), (mod_twice C (R + k) HC0), Hit.
  pose proof (Z.mod_pos_bound (R + k) (2 * C) ltac:(lia)) as Hi.
  rewrite (add_wrap_mod C) by (done || lia).
  rewrite Zplus_mod_idemp_l, Z.eqb_eq, Hseq.
  destruct (Z.ltb_spec (R + k) W) as [Hlt|Hge]; [done|].
  split; [|lia]. intros Hmark. exfalso.
  assert (1 = 0); [|lia].
  apply (mod_offset_zero (2 * C) ((R + k) mod (2 * C))); try lia.
  rewrite Zplus_mod_idemp_l, <- Hmark. by rewrite Z.mod_mod by lia.
Qed.

Lemma repr_unread_slots (C R W : Z) (l : list sample_p) (q : consumer_queue) :
  capacity_ok C -> 2 ≤ C -> wf C q -> repr C R W l q ->
  unread_slots q = W - R.
Proof.
  intros HC HC2 Hwf Hrepr. pose proof HC as [HC0 Hmax].
  pose proof (repr_bounds _ _ _ _ _ Hrepr) as Hb.
  unfold unread_slots. rewrite (wf_size _ _ Hwf).
  rewrite (length_filter_iff _ (fun k => k < W - R)).
  - rewrite length_filter_below; lia.
  - apply Forall_forall. intros k Hk. apply elem_of_seqZ in Hk.
    rewrite (repr_slot_unread C R W l q k) by (done || lia). lia.
Qed.

(** With a single slot: the slot passes the test exactly when the cursors
    differ. *)
Lemma inv1_unread_slots (q : consumer_queue) :
  capacity_ok 1 -> wf 1 q -> inv1 q -> unread_slots q = read_available q.
Proof.
  intros HC Hwf Hinv.
  pose proof (wf_read _ _ Hwf) as Hr. pose proof (wf_write _ _ Hwf) as Hw.
  pose proof (wf_wrap _ _ Hwf) as Hwrap. pose proof (wf_size _ _ Hwf) as Hsz.
  destruct Hinv as ([s v] & Hbuf & Hseq). cbn in Hseq. subst s.
  unfold unread_slots, slot_unread, read_available, add_wrap.
  rewrite Hsz, Hwrap, Hbuf.
  assert (read_idx_ q = 0 ∨ read_idx_ q = 1) as [Hr'|Hr'] by lia;
  assert (write_idx_ q = 0 ∨ write_idx_ q = 1) as [Hw'|Hw'] by lia;
    rewrite Hr', Hw'; by vm_compute.
Qed.

Lemma inv_unread_slots (C : Z) (q : consumer_queue) :
  capacity_ok C -> inv C q -> unread_slots q = read_available q.
Proof.
  intros HC [Hwf [(HC2 & R & W & l & Hrepr)|(-> & Hinv1)]].
  - rewrite (repr_unread_slots C R W l), (repr_available C R W l); done.
  - by apply inv1_unread_slots.
Qed.

(** ** The slot at the read cursor *)

Lemma inv_read_slot (C : Z) (q : consumer_queue) :
  capacity_ok C -> inv C q ->
  exists it, buffer_ q !! Z.to_nat (read_idx_ q mod size_ q) = Some it ∧
    ((seq_state it = read_idx_ q ∧ contents q = []) ∨
     (seq_state it = add_wrap q (read_idx_ q) 1 ∧ seq_state it ≠ read_idx_ q ∧
      contents q ≠ [])).
Proof.
  intros HC Hinv. pose proof HC as [HC0 Hmax]. pose proof Hinv as [Hwf Hcase].
  destruct (wf_slot C q (read_idx_ q) HC0 Hwf) as [it Hit].
  exists it. split; [done|].
  assert (size_ q ≠ 0) as Hsz by by apply (wf_size_nonzero C).
  pose proof (wf_read _ _ Hwf) as Hr.
  assert (add_wrap q (read_idx_ q) 1 ≠ read_idx_ q) as Hne.
  { rewrite (add_wrap_mod C); [|done|apply (wf_wrap _ _ Hwf)|done|lia].
    intros Heq. assert (1 = 0); [|lia].
    apply (mod_offset_zero (2 * C) (read_idx_ q)); try lia.
    rewrite Heq. rewrite Z.mod_small; lia. }
  pose proof (inv_try_pop C NoArg 0 q HC Hinv) as Hpop.
  destruct Hcase as [(HC2 & R & W & l & Hrepr)|(-> & Hinv1)].
  - destruct (repr_next_read C R W l q HC Hwf Hrepr) as (Hnext & _ & Hidx).
    destruct (repr_slot _ _ _ _ _ Hrepr R) as (it' & Hit' & Hseq & _).
    { pose proof (repr_bounds _ _ _ _ _ Hrepr). lia. }
    rewrite <- Hidx, Hit in Hit'. injection Hit' as <-.
    rewrite (repr_contents C R W l q) in * by done.
    pose proof (repr_len _ _ _ _ _ Hrepr) as Hlen.
    destruct (Z.ltb_spec R W).
    + right. rewrite Hnext. split; [done|]. split; [congruence|].
      destruct l; [cbn in Hlen; lia|done].
    + left. rewrite (repr_read _ _ _ _ _ Hrepr). split; [done|].
      pose proof (repr_bounds _ _ _ _ _ Hrepr).
      destruct l; [done|cbn in Hlen; lia].
  - destruct (inv1_slot q (read_idx_ q) Hwf Hinv1) as (it' & _ & Hseq & Hit').
    rewrite Hit in Hit'. injection Hit' as <-.
    pose proof (wf_write _ _ Hwf) as Hw.
    pose proof (inv1_add_wrap q (read_idx_ q) HC Hwf ltac:(lia)) as Hnext.
    destruct (inv1_contents q HC Hwf Hinv1) as [(Heq & _ & ->)|(Hneq & _ & ->)].
    + left. split; [congruence|done].
    + right. split; [lia|]. split; [congruence|done].
Qed.

(** In a reachable state the loop of [try_pop] ends the same way whether
    or not the weak compare-exchange fails spuriously on the way. *)
Lemma reachable_weak_loop (C : Z) (spurious : list bool) (fuel : nat)
    (q : consumer_queue) :
  capacity_ok C -> reachable C q -> (length spurious < fuel)%nat ->
  try_pop_loop_weak spurious fuel (read_idx_ q) q =
    try_pop_loop 1 (read_idx_ q) q.
Proof.
  intros HC Hreach Hfuel. pose proof (reachable_inv C q HC Hreach) as Hinv.
  destruct (inv_read_slot C q HC Hinv) as (it & Hit & Hcase).
  apply (try_pop_loop_weak_eq spurious fuel q it); try done.
  - apply (wf_size_nonzero C); [by destruct HC|by apply inv_wf].
  - destruct Hcase as [(? & _)|(? & _)]; auto.
Qed.

(** ** What the calls return, along a run *)

Lemma moved_dropped (l : list sample_p) : moved (Dropped <$> l) = [].
Proof. induction l; [done|]. cbn. done. Qed.

Lemma run_results (C : Z) (fuel : nat) (ops : list op) :
  capacity_ok C -> (2 ≤ fuel)%nat -> C < Z.of_nat fuel ->
  forall q, inv C q ->
  exists rs q' ev, run fuel ops q = Done (rs, q', ev) ∧ inv C q' ∧
    non_null (pop_results rs) = non_null (moved ev).
Proof.
  intros HC Hfuel HfuelC.
  induction ops as [|o ops IH]; intros q Hinv; cbn [run].
  - by eexists _, _, _.
  - assert (exists r q1 ev1, step fuel o q = Done (r, q1, ev1) ∧ inv C q1 ∧
              non_null (pop_results [r]) = non_null (moved ev1))
      as (r & q1 & ev1 & -> & Hinv1 & Hres1).
    { destruct o as [smp|tmo others waits|]; cbn [step].
      - destruct (push_sample_total C smp fuel q)
          as (q1 & ev1 & -> & Hinv1 & Hm & _); try done.
        eexists _, _, _. split; [done|]. split; [done|]. by rewrite Hm.
      - destruct (pop_sample_total C fuel tmo others waits q)
          as (r & q1 & ev1 & -> & Hinv1 & Hm); try done.
        eexists _, _, _. split; [done|]. split; [done|].
        destruct Hm as [[-> ->]| ->]; done.
      - destruct (inv_available C q HC Hinv) as [Hav Hlen].
        destruct (flush_loop_spec C fuel HC 0 q Hinv)
          as (q1 & Hrun & Hinv1 & _); [lia|done|].
        unfold flush. rewrite Hrun.
        eexists _, _, _. split; [done|]. split; [done|].
        cbn. by rewrite moved_dropped. }
    cbn. destruct (IH q1 Hinv1) as (rs & q2 & ev2 & -> & Hinv2 & Hres2). cbn.
    eexists _, _, _. split; [done|]. split; [done|].
    change (r :: rs) with ([r] ++ rs).
    unfold pop_results, non_null in *.
    rewrite moved_app, !omap_app. by rewrite Hres1, Hres2.
Qed.

Lemma moved_delivered (tr : list event) : moved tr `sublist_of` delivered tr.
Proof.
  induction tr as [|e tr IH]; [done|].
  destruct e; cbn; try done; by constructor.
Qed.

Lemma delivered_removed (tr : list event) : delivered tr `sublist_of` removed tr.
Proof.
  induction tr as [|e tr IH]; [done|].
  destruct e; cbn; try done; by constructor.
Qed.

(** ** The new queue *)

Lemma available_new (C : Z) : read_available (new_consumer_queue C) = 0.
Proof. unfold read_available. cbn. apply Zmod_0_l. Qed.

(** ** Two facts shared by the properties below *)

Lemma reachable_count (C : Z) (q : consumer_queue) :
  capacity_ok C -> reachable C q ->
  unread_slots q = read_available q ∧ 0 ≤ read_available q ≤ C.
Proof.
  intros HC Hreach. pose proof (reachable_inv C q HC Hreach) as Hinv.
  split; [by apply (inv_unread_slots C)|by apply inv_available].
Qed.

Lemma reachable_flush (C : Z) (q : consumer_queue) (fuel : nat) :
  capacity_ok C -> reachable C q -> read_available q < Z.of_nat fuel ->
  exists q',
    flush fuel q =
      Done (read_available q mod 2 ^ 32, q', Dropped <$> contents q) ∧
    reachable C q' ∧ read_available q' = 0 ∧ contents q' = [] ∧
    (read_available q = 0 -> q' = q).
Proof.
  intros HC Hreach Hfuel. pose proof (reachable_inv C q HC Hreach) as Hinv.
  destruct (inv_available C q HC Hinv) as [Hav Hlen].
  destruct (flush_loop_spec C fuel HC 0 q Hinv) as (q' & Hrun & Hinv' & Hc');
    [lia|done|].
  rewrite Z.add_0_l, Hlen in Hrun. unfold flush.
  exists q'. split; [done|].
  destruct (inv_available C q' HC Hinv') as [_ Hlen'].
  rewrite Hc' in Hlen'. cbn in Hlen'.
  split; [|split; [done|split; [done|]]].
  - apply (reachable_step C fuel Flush q (RetFlush (read_available q mod 2 ^ 32))
             q' (Dropped <$> contents q)); [done|].
    cbn [step]. unfold flush. by rewrite Hrun.
  - intros Hzero. rewrite Hzero in Hlen. destruct fuel as [|fuel]; [lia|].
    cbn [flush_loop] in Hrun.
    pose proof (inv_try_pop C NoArg fuel q HC Hinv) as Hpop.
    destruct (contents q); [|cbn in Hlen; lia].
    rewrite Hpop in Hrun. cbn in Hrun. by simplify_eq.
Qed.

(** * The properties of the specification *)


(** Drop-oldest with two slots or more: when all [C] slots hold unread
    values, [push_sample] drops exactly one sample, the one at the read
    cursor, which is the oldest, and then stores the new one.  With
    capacity 3, pushing four samples leaves the last three, and the next
    pops return them in order and then nothing. *)
Theorem drop_oldest (C : Z) (q : consumer_queue) (smp : sample_p) :
  capacity_ok C -> 2 ≤ C -> reachable C q -> unread_slots q = size_ q ->
  (exists v l', contents q = v :: l' ∧ payload_at q (read_idx_ q) = v ∧
     exists q', (forall fuel, (2 ≤ fuel)%nat ->
         push_sample fuel smp q =
           Done (q', sync_events q ++ [Dropped v; Stored smp; Lock; Notify])) ∧
       reachable C q' ∧ contents q' = l' ++ [smp]) ∧
  (forall (a b c d : sample_p) (t1 t2 t3 t4 : float),
     exists q1 tr1 q2 tr2,
       run 2 [Push a; Push b; Push c; Push d] (new_consumer_queue 3) =
         Done ([RetPush; RetPush; RetPush; RetPush], q1, tr1) ∧
       dropped tr1 = [a] ∧ contents q1 = [b; c; d] ∧
       run 2 [Pop t1 [] []; Pop t2 [] []; Pop t3 [] []; Pop t4 [] []] q1 =
         Done ([RetPop b; RetPop c; RetPop d; RetPop None], q2, tr2) ∧
       contents q2 = []).
Proof.
  intros HC HC2 Hreach Hfull. split.
  - pose proof (reachable_inv C q HC Hreach) as Hinv.
    destruct (reachable_count C q HC Hreach) as [Hcount _].
    rewrite Hfull, (wf_size _ _ (inv_wf _ _ Hinv)) in Hcount.
    destruct (push_sample_loop_spec C smp q HC Hinv)
      as [([?|?] & _)|(_ & _ & Hfail & v & l' & Hc & Hpay & Hrun & _ & Hinv' & Hc')];
      [lia|lia|].
    cbn zeta in Hrun.
    exists v, l'. split; [done|]. split; [done|].
    exists (pushed_state smp (popped_state v (synced q))).
    assert (push_sample 2 smp q =
      Done (pushed_state smp (popped_state v (synced q)),
            sync_events q ++ [Dropped v; Stored smp; Lock; Notify])) as Hpush.
    { unfold push_sample. rewrite Hrun. cbn. by rewrite <- app_assoc. }
    split; [|split; [|done]].
    + intros fuel Hfuel. destruct fuel as [|[|fuel]]; [lia|lia|].
      unfold push_sample. rewrite Hrun. cbn. by rewrite <- app_assoc.
    + apply (reachable_step C 2 (Push smp) q RetPush _
               (sync_events q ++ [Dropped v; Stored smp; Lock; Notify])); [done|].
      cbn [step]. by rewrite Hpush.
  - intros a b c d t1 t2 t3 t4.
    destruct (PrimFloat.ltb 0 t4) eqn:Ht4;
      (eexists _, _, _, _; split; [vm_compute; reflexivity|];
       split; [reflexivity|]; split; [reflexivity|]; split;
       [cbn [run step]; unfold pop_sample; rewrite Ht4; vm_compute; reflexivity
       |reflexivity]).
Qed.


(** C4 ([try_pop]), as the code has it: in a reachable state, with [r] the
    read cursor and [s] the sequence number of slot [r mod C], [try_pop]
    fails exactly when [s = r], changing nothing; otherwise
    [s = (r + 1) mod (2 * C)] and [try_pop] succeeds, stores
    [(r + C) mod (2 * C)] into the slot's sequence number and advances the
    read cursor to [(r + 1) mod (2 * C)].  Called with a destination it
    moves the payload there and leaves the slot's handle null; called
    without one it leaves the payload in the slot. *)
Theorem try_pop_protocol (C : Z) (q : consumer_queue) (dst : pack) (fuel : nat) :
  capacity_ok C -> reachable C q ->
  let r := read_idx_ q in
  let i := Z.to_nat (r mod C) in
  exists it, buffer_ q !! i = Some it ∧
    ((seq_state it = r ∧
      try_pop dst (S fuel) q = Done (false, dst, q, [])) ∨
     (seq_state it ≠ r ∧ seq_state it = (r + 1) mod (2 * C) ∧
      try_pop dst (S fuel) q =
        Done (true,
              match dst with NoArg => NoArg | OneArg _ => OneArg (value it) end,
              Queue (<[i := Item ((r + C) mod (2 * C))
                                 match dst with
                                 | NoArg => value it
                                 | OneArg _ => None
                                 end]> (buffer_ q))
                    (size_ q) (wrap_at_ q) (done_sync_ q) (write_idx_ q)
                    ((r + 1) mod (2 * C)),
              [match dst with
               | NoArg => Dropped (value it)
               | OneArg _ => Moved (value it)
               end]))).
Proof.
  intros HC Hreach r i. pose proof HC as [HC0 Hmax].
  pose proof (reachable_inv C q HC Hreach) as Hinv.
  pose proof (inv_wf _ _ Hinv) as Hwf.
  pose proof (wf_size _ _ Hwf) as Hsz. pose proof (wf_wrap _ _ Hwf) as Hwrap.
  pose proof (wf_read _ _ Hwf) as Hr.
  destruct (inv_read_slot C q HC Hinv) as (it & Hit & Hcase).
  exists it. subst r i. rewrite <- Hsz at 1. split; [done|].
  assert (add_wrap q (read_idx_ q) 1 = (read_idx_ q + 1) mod (2 * C)) as Hnext
    by (apply add_wrap_mod; done || lia).
  assert (add_wrap q (read_idx_ q) (size_ q) = (read_idx_ q + C) mod (2 * C))
    as Hfree by (rewrite Hsz; apply add_wrap_mod; done || lia).
  rewrite (try_pop_eq dst fuel q it); [|lia|done|tauto].
  destruct Hcase as [(Hs & _)|(Hs & Hne & _)].
  - left. split; [done|].
    destruct (Z.eqb_spec (seq_state it) (add_wrap q (read_idx_ q) 1)) as [Heq|];
      [|done].
    exfalso. rewrite Hnext, Hs in Heq.
    assert (1 = 0); [|lia].
    apply (mod_offset_zero (2 * C) (read_idx_ q)); try lia.
    rewrite <- Heq. rewrite Z.mod_small; lia.
  - right. split; [done|]. split; [congruence|].
    rewrite Hs, Z.eqb_refl. unfold popped_state.
    rewrite Hnext, Hfree, Hsz. by destruct dst.
Qed.

(** C5 (first in, first out): a run of any operations on a new queue
    returns, and the samples the consumers received, followed by the ones
    still unread, are among the samples stored, in the order they were
    stored; the handles [pop_sample] returned are the ones moved out, in
    that order.  With two slots or more nothing is lost on the way: the
    samples stored are exactly the ones claimed (by a consumer or by an
    eviction or a flush), in the order of the claims, followed by the ones
    still unread. *)
Theorem fifo_survivors (C : Z) (fuel : nat) (ops : list op) :
  capacity_ok C -> (2 ≤ fuel)%nat -> C < Z.of_nat fuel ->
  exists rs q tr,
    run fuel ops (new_consumer_queue C) = Done (rs, q, tr) ∧
    non_null (pop_results rs) = non_null (moved tr) ∧
    moved tr `sublist_of` delivered tr ∧
    delivered tr ++ contents q `sublist_of` stored tr ∧
    (2 ≤ C ->
     removed tr ++ contents q = stored tr ∧
     delivered tr `sublist_of` removed tr).
Proof.
  intros HC Hfuel HfuelC.
  pose proof (inv_new C HC) as Hinv.
  destruct (run_results C fuel ops HC Hfuel HfuelC _ Hinv)
    as (rs & q & tr & Hrun & _ & Hres).
  exists rs, q, tr. split; [done|]. split; [done|].
  split; [apply moved_delivered|].
  assert (fifo C (new_consumer_queue C) []) as Hfifo.
  { split; [done|]. split; [done|]. cbn. unfold contents.
    by rewrite available_new. }
  destruct (fifo_run C fuel ops _ [] rs q tr HC Hfifo Hrun) as (_ & Hall & Hsub).
  split; [done|]. intros HC2. split; [by apply Hall|apply delivered_removed].
Qed.

(** C6 ([try_push] on a full queue): when the sequence number of the slot
    of the write cursor differs from the write cursor, [try_push] returns
    [false] and the queue is as it was. *)
Theorem try_push_full_unchanged (q : consumer_queue) (smp : sample_p)
    (it : item_t) :
  size_ q ≠ 0 ->
  buffer_ q !! Z.to_nat (write_idx_ q mod size_ q) = Some it ->
  seq_state it ≠ write_idx_ q ->
  try_push smp q = Done (false, q).
Proof.
  intros Hsz Hit Hne. rewrite (try_push_eq smp q it) by done.
  destruct (Z.eqb_spec (write_idx_ q) (seq_state it)); [congruence|done].
Qed.

(** C7 ([pop_sample]): with a timeout that is not positive the call takes
    no lock and does not wait; it returns the oldest unread sample when
    there is one and a null handle otherwise, the queue then being
    untouched.  With any timeout, whatever the other threads do meanwhile,
    the call returns, and what it returns is the sample it moved out of
    the queue, or a null handle when it moved none. *)
Theorem pop_sample_results (C : Z) (q : consumer_queue) (fuel : nat)
    (tmo : float) (others : list act) (waits : list (cv_status * list act)) :
  capacity_ok C -> reachable C q -> (2 ≤ fuel)%nat ->
  (PrimFloat.ltb 0 tmo = false ->
   pop_sample fuel tmo others waits q =
     match contents q with
     | [] => Done (None, q, [])
     | v :: _ => Done (v, popped_state None q, [Moved v])
     end) ∧
  exists r q' ev,
    pop_sample fuel tmo others waits q = Done (r, q', ev) ∧
    reachable C q' ∧
    ((moved ev = [] ∧ r = None) ∨ moved ev = [r]).
Proof.
  intros HC Hreach Hfuel. pose proof (reachable_inv C q HC Hreach) as Hinv.
  split.
  - intros Htmo. apply (pop_sample_first C); auto. lia.
  - destruct (pop_sample_total C fuel tmo others waits q HC Hinv Hfuel)
      as (r & q' & ev & Hrun & _ & Hres).
    exists r, q', ev. split; [done|]. split; [|done].
    apply (reachable_step C fuel (Pop tmo others waits) q (RetPop r) q' ev);
      [done|].
    cbn [step]. by rewrite Hrun.
Qed.

(** C8 ([flush]): from a reachable state holding [K] unread samples,
    [flush] returns, drops exactly these samples and leaves the queue
    empty.  Its result is [K] whenever [K] is a value of the declared
    return type [uint32_t]; on an empty queue it is 0 and the queue is left
    as it was. *)
Theorem flush_exact (C : Z) (q : consumer_queue) (fuel : nat) :
  capacity_ok C -> reachable C q -> read_available q < Z.of_nat fuel ->
  unread_slots q = read_available q ∧
  Z.of_nat (length (contents q)) = read_available q ∧
  exists n q',
    flush fuel q = Done (n, q', Dropped <$> contents q) ∧
    (read_available q < uint32_range -> n = read_available q) ∧
    reachable C q' ∧ unread_slots q' = 0 ∧ read_available q' = 0 ∧
    contents q' = [] ∧ empty q' = true ∧
    (read_available q = 0 -> n = 0 ∧ q' = q).
Proof.
  intros HC Hreach Hfuel.
  pose proof (reachable_inv C q HC Hreach) as Hinv.
  destruct (inv_available C q HC Hinv) as [Hav Hlen].
  destruct (reachable_count C q HC Hreach) as [Hcount _].
  split; [done|]. split; [done|].
  destruct (reachable_flush C q fuel HC Hreach Hfuel)
    as (q' & Hrun & Hreach' & Hav' & Hc' & Hsame).
  destruct (reachable_count C q' HC Hreach') as [Hcount' _].
  exists (read_available q mod 2 ^ 32), q'. split; [done|].
  split; [intros Hsmall; apply Z.mod_small; unfold uint32_range in Hsmall; lia|].
  split; [done|]. split; [by rewrite Hcount'|]. split; [done|]. split; [done|].
  split; [unfold empty; by rewrite Hav'|].
  intros Hzero. split; [by rewrite Hzero|by apply Hsame].
Qed.

(** C9 (the latch): along every run of the public operations the fence is
    taken at most once, each time together with the store to [done_sync_];
    once [done_sync_] is set it stays set, and no later push takes the
    fence. *)
Theorem sync_once (fuel : nat) (ops : list op) (q : consumer_queue)
    (rs : list ret) (q' : consumer_queue) (tr : list event) :
  run fuel ops q = Done (rs, q', tr) ->
  (fences tr ≤ 1)%nat ∧ sync_stores tr = fences tr ∧
  (done_sync_ q = true -> done_sync_ q' = true ∧ fences tr = 0%nat) ∧
  (fences tr = 1%nat -> done_sync_ q = false ∧ done_sync_ q' = true).
Proof.
  intros Hrun. destruct (latch_run fuel ops q rs q' tr Hrun) as [Hl Hs].
  unfold latch in Hl.
  destruct (done_sync_ q), (done_sync_ q'); repeat split; intros; lia || done.
Qed.

(** C10 (the index space is closed): for [x] in [0, 2 * C) and [delta]
    either 1 or [C], [add_wrap] is addition modulo [2 * C]; and in every
    reachable state both cursors and all sequence numbers are in
    [0, 2 * C). *)
Theorem index_space_closed (C : Z) :
  capacity_ok C ->
  (forall (q : consumer_queue) x delta,
     wrap_at_ q = 2 * C -> 0 ≤ x < 2 * C -> delta = 1 ∨ delta = C ->
     add_wrap q x delta = (x + delta) mod (2 * C) ∧
     0 ≤ add_wrap q x delta < 2 * C) ∧
  (forall q, reachable C q ->
     wrap_at_ q = 2 * C ∧
     0 ≤ write_idx_ q < 2 * C ∧ 0 ≤ read_idx_ q < 2 * C ∧
     Forall (fun it => 0 ≤ seq_state it < 2 * C) (buffer_ q)).
Proof.
  intros HC. pose proof HC as [HC0 Hmax]. split.
  - intros q x delta Hwrap Hx Hdelta.
    assert (0 ≤ delta ≤ C) by lia.
    split; [by apply add_wrap_mod|by apply (add_wrap_range C)].
  - intros q Hreach.
    destruct (inv_wf _ _ (reachable_inv C q HC Hreach)). done.
Qed.

(** * Further properties of the code *)

(** ** [try_pop] in any state *)

Lemma try_pop_loop_any (fuel : nat) :
  forall (q : consumer_queue) claimed q',
  try_pop_loop fuel (read_idx_ q) q = Done (claimed, q') ->
  size_ q ≠ 0 ∧
  exists it, buffer_ q !! Z.to_nat (read_idx_ q mod size_ q) = Some it ∧
    ((claimed = None ∧ q' = q ∧ seq_state it = read_idx_ q ∧
      seq_state it ≠ add_wrap q (read_idx_ q) 1) ∨
     (claimed = Some (read_idx_ q) ∧
      q' = set_read_idx (add_wrap q (read_idx_ q) 1) q ∧
      seq_state it = add_wrap q (read_idx_ q) 1)).
Proof.
  induction fuel as [|fuel IH]; intros q claimed q' Hrun; [done|].
  cbn [try_pop_loop] in Hrun. unfold slot_of, item_at in Hrun.
  destruct (Z.eqb_spec (size_ q) 0) as [|Hsz]; [done|]. cbn in Hrun.
  destruct (buffer_ q !! _) as [it|] eqn:Hit; [|done]. cbn in Hrun.
  destruct (Z.eqb_spec (seq_state it) (add_wrap q (read_idx_ q) 1)) as [Heq|Hne].
  - unfold compare_exchange in Hrun. rewrite Z.eqb_refl in Hrun.
    injection Hrun as <- <-. split; [done|]. exists it. split; [done|]. by right.
  - destruct (Z.eqb_spec (seq_state it) (read_idx_ q)) as [Heq|Hne'].
    + injection Hrun as <- <-. split; [done|]. exists it. split; [done|]. by left.
    + apply IH in Hrun. by rewrite Hit in Hrun.
Qed.

Lemma try_pop_any (dst : pack) (fuel : nat) (q : consumer_queue)
    b dst' q' ev :
  try_pop dst fuel q = Done (b, dst', q', ev) ->
  size_ q ≠ 0 ∧
  exists it, buffer_ q !! Z.to_nat (read_idx_ q mod size_ q) = Some it ∧
    ((b = false ∧ dst' = dst ∧ q' = q ∧ ev = [] ∧
      seq_state it = read_idx_ q ∧
      seq_state it ≠ add_wrap q (read_idx_ q) 1) ∨
     (b = true ∧ dst' = taken_out dst (value it) ∧
      q' = popped_state (left_in_slot dst (value it)) q ∧
      ev = [claim_event dst (value it)] ∧
      seq_state it = add_wrap q (read_idx_ q) 1)).
Proof.
  intros Hrun. unfold try_pop in Hrun.
  step_bind Hrun. destruct a as [claimed q1].
  apply try_pop_loop_any in Hstep as (Hsz & it & Hit & Hcase).
  split; [done|]. exists it. split; [done|].
  destruct Hcase as [(-> & -> & Hs & Hne)|(-> & -> & Hs)].
  - left. by simplify_eq.
  - right. unfold slot_of, item_at in Hrun. cbn in Hrun.
    rewrite (proj2 (Z.eqb_neq _ _) Hsz) in Hrun. cbn in Hrun.
    rewrite Hit in Hrun. cbn in Hrun.
    destruct dst; cbn in Hrun; injection Hrun as <- <- <- <-;
      (split; [done|]; split; [done|]; split; [|done]);
      unfold popped_state, update_item, set_buffer;
      cbn; f_equal; rewrite list_alter_alter_eq;
      by rewrite (alter_as_insert _ _ _ it).
Qed.

(** X1: in any state, a [try_pop] that returns [false] has changed
    nothing: the queue and the destination are as they were and nothing
    was claimed; the slot at the read cursor carries the read cursor as
    its sequence number. *)
Theorem try_pop_empty_unchanged (dst : pack) (fuel : nat) (q : consumer_queue)
    (dst' : pack) (q' : consumer_queue) (ev : list event) :
  try_pop dst fuel q = Done (false, dst', q', ev) ->
  dst' = dst ∧ q' = q ∧ ev = [] ∧
  exists it, buffer_ q !! Z.to_nat (read_idx_ q mod size_ q) = Some it ∧
    seq_state it = read_idx_ q.
Proof.
  intros Hrun.
  apply try_pop_any in Hrun as (_ & it & Hit & [(_ & -> & -> & -> & Hs & _)|(? & _)]);
    [|done].
  split; [done|]. split; [done|]. split; [done|]. by exists it.
Qed.

(** ** [try_push] in any state *)

Lemma try_push_any (smp : sample_p) (q : consumer_queue) b q' :
  try_push smp q = Done (b, q') ->
  size_ q ≠ 0 ∧
  exists it, buffer_ q !! Z.to_nat (write_idx_ q mod size_ q) = Some it ∧
    ((b = false ∧ q' = q ∧ seq_state it ≠ write_idx_ q) ∨
     (b = true ∧ q' = pushed_state smp q ∧ seq_state it = write_idx_ q)).
Proof.
  intros Hrun.
  assert (size_ q ≠ 0) as Hsz.
  { intros Hz. unfold try_push, slot_of in Hrun. by rewrite Hz in Hrun. }
  split; [done|].
  destruct (buffer_ q !! Z.to_nat (write_idx_ q mod size_ q)) as [it|] eqn:Hit.
  - exists it. split; [done|]. rewrite (try_push_eq smp q it) in Hrun by done.
    destruct (Z.eqb_spec (write_idx_ q) (seq_state it)); simplify_eq; auto.
  - unfold try_push, slot_of, item_at in Hrun.
    rewrite (proj2 (Z.eqb_neq _ _) Hsz) in Hrun. cbn in Hrun.
    by rewrite Hit in Hrun.
Qed.

Lemma try_push_frame (smp : sample_p) (q : consumer_queue) b q' :
  try_push smp q = Done (b, q') ->
  read_idx_ q' = read_idx_ q ∧ size_ q' = size_ q ∧
  wrap_at_ q' = wrap_at_ q ∧ done_sync_ q' = done_sync_ q ∧
  length (buffer_ q') = length (buffer_ q) ∧
  forall j, j ≠ Z.to_nat (write_idx_ q mod size_ q) ->
    buffer_ q' !! j = buffer_ q !! j.
Proof.
  intros Hrun.
  apply try_push_any in Hrun as (_ & it & _ & [(_ & -> & _)|(_ & -> & _)]);
    [done|].
  cbn. rewrite length_insert. repeat split; try done.
  intros j Hj. by rewrite list_lookup_insert_ne.
Qed.

Lemma try_pop_frame (dst : pack) (fuel : nat) (q : consumer_queue) b dst' q' ev :
  try_pop dst fuel q = Done (b, dst', q', ev) ->
  write_idx_ q' = write_idx_ q ∧ size_ q' = size_ q ∧
  wrap_at_ q' = wrap_at_ q ∧ done_sync_ q' = done_sync_ q ∧
  length (buffer_ q') = length (buffer_ q) ∧
  forall j, j ≠ Z.to_nat (read_idx_ q mod size_ q) ->
    buffer_ q' !! j = buffer_ q !! j.
Proof.
  intros Hrun.
  apply try_pop_any in Hrun as (_ & it & _ & [(_ & _ & -> & _)|(_ & _ & -> & _)]);
    [done|].
  cbn. rewrite length_insert. repeat split; try done.
  intros j Hj. by rewrite list_lookup_insert_ne.
Qed.

(** X2: the cursors have one writer each.  In any state, [try_push] leaves
    the read cursor, and [try_pop] the write cursor, as it was; neither
    changes [size_], [wrap_at_], [done_sync_] or the number of slots, and
    each writes to no slot but the one at its own cursor. *)
Theorem cursor_ownership (q : consumer_queue) :
  (forall smp b q', try_push smp q = Done (b, q') ->
     read_idx_ q' = read_idx_ q ∧ size_ q' = size_ q ∧
     wrap_at_ q' = wrap_at_ q ∧ done_sync_ q' = done_sync_ q ∧
     length (buffer_ q') = length (buffer_ q) ∧
     forall j, j ≠ Z.to_nat (write_idx_ q mod size_ q) ->
       buffer_ q' !! j = buffer_ q !! j) ∧
  (forall dst fuel b dst' q' ev, try_pop dst fuel q = Done (b, dst', q', ev) ->
     write_idx_ q' = write_idx_ q ∧ size_ q' = size_ q ∧
     wrap_at_ q' = wrap_at_ q ∧ done_sync_ q' = done_sync_ q ∧
     length (buffer_ q') = length (buffer_ q) ∧
     forall j, j ≠ Z.to_nat (read_idx_ q mod size_ q) ->
       buffer_ q' !! j = buffer_ q !! j).
Proof.
  split.
  - intros smp b q'. apply try_push_frame.
  - intros dst fuel b dst' q' ev. apply try_pop_frame.
Qed.

(** ** [push_sample] in any state *)

Lemma add_wrap_same_wrap (q q' : consumer_queue) (x delta : Z) :
  wrap_at_ q' = wrap_at_ q -> add_wrap q' x delta = add_wrap q x delta.
Proof. intros Hw. unfold add_wrap. by rewrite Hw. Qed.

Lemma notifies_app (tr1 tr2 : list event) :
  notifies (tr1 ++ tr2) = (notifies tr1 + notifies tr2)%nat.
Proof. unfold notifies. by rewrite omap_app, length_app. Qed.

Lemma push_sample_loop_any (fuel : nat) (smp : sample_p) :
  forall (q q' : consumer_queue) (ev : list event),
  push_sample_loop fuel smp q = Done (q', ev) ->
  write_idx_ q' = add_wrap q (write_idx_ q) 1 ∧
  payload_at q' (write_idx_ q) = smp ∧
  size_ q' = size_ q ∧ wrap_at_ q' = wrap_at_ q ∧
  length (buffer_ q') = length (buffer_ q) ∧
  exists ev0, ev = ev0 ++ [Stored smp] ∧
    stored ev0 = [] ∧ moved ev0 = [] ∧ notifies ev0 = 0%nat ∧
    (length (dropped ev0) < fuel)%nat.
Proof.
  induction fuel as [|fuel IH]; intros q q' ev Hrun; [done|].
  cbn [push_sample_loop] in Hrun.
  step_bind Hrun. destruct a as [pushed q1].
  apply try_push_any in Hstep as (Hsz & it & Hit & [(-> & -> & _)|(-> & -> & _)]).
  - set (q1 := if negb (done_sync_ q) then (set_done_sync true q, [Fence; SyncStore])
               else (q, [])) in Hrun.
    assert (write_idx_ q1.1 = write_idx_ q ∧ size_ q1.1 = size_ q ∧
            wrap_at_ q1.1 = wrap_at_ q ∧
            length (buffer_ q1.1) = length (buffer_ q) ∧
            stored q1.2 = [] ∧ moved q1.2 = [] ∧ notifies q1.2 = 0%nat ∧
            dropped q1.2 = []) as (Hw1 & Hs1 & Hwr1 & Hl1 & Hst1 & Hm1 & Hn1 & Hd1).
    { subst q1. by destruct (done_sync_ q). }
    destruct q1 as [q1 ev1]. cbn [fst snd] in *.
    step_bind Hrun. destruct a as [[[b dst'] q2] ev2].
    step_bind Hrun. destruct a as [q3 ev3]. injection Hrun as <- <-.
    destruct (try_pop_frame _ _ _ _ _ _ _ Hstep) as (Hw2 & Hs2 & Hwr2 & _ & Hl2 & _).
    apply try_pop_any in Hstep as (_ & it2 & _ & Hcase).
    apply IH in Hstep0 as (Hw3 & Hp3 & Hs3 & Hwr3 & Hl3 & ev0 & -> & Hst & Hm & Hn & Hd).
    rewrite Hw2, Hw1 in Hw3, Hp3.
    rewrite (add_wrap_same_wrap q q2) in Hw3 by congruence.
    split; [done|]. split; [done|]. split; [congruence|]. split; [congruence|].
    split; [congruence|].
    exists (ev1 ++ ev2 ++ ev0). split; [by rewrite <- !app_assoc|].
    rewrite !stored_app, !moved_app, !notifies_app, !dropped_app, !length_app.
    rewrite Hst1, Hm1, Hn1, Hd1, Hst, Hm, Hn.
    destruct Hcase as [(_ & _ & _ & -> & _)|(_ & _ & _ & -> & _)]; cbn.
    + repeat split; try done. lia.
    + destruct dst'; cbn; repeat split; try done; lia.
  - injection Hrun as <- <-. cbn. rewrite length_insert.
    split; [done|]. split.
    { unfold payload_at. cbn.
      rewrite list_lookup_insert_eq by (by eapply lookup_lt_Some). done. }
    repeat split; try done. exists []. repeat split; try done. cbn. lia.
Qed.

(** X3: whatever the state, a [push_sample] that returns has stored its
    sample exactly once, in the slot of the write cursor it found, has
    advanced the write cursor by one step of [add_wrap], has handed no
    sample to anyone, and has ended by one [notify_one] under the mutex. *)
Theorem push_sample_effect (fuel : nat) (smp : sample_p)
    (q q' : consumer_queue) (ev : list event) :
  push_sample fuel smp q = Done (q', ev) ->
  write_idx_ q' = add_wrap q (write_idx_ q) 1 ∧
  payload_at q' (write_idx_ q) = smp ∧
  stored ev = [smp] ∧ moved ev = [] ∧ notifies ev = 1%nat ∧
  (length (dropped ev) < fuel)%nat ∧
  exists ev0, ev = ev0 ++ [Stored smp; Lock; Notify].
Proof.
  intros Hrun. unfold push_sample in Hrun.
  step_bind Hrun. destruct a as [q1 ev1]. injection Hrun as <- <-.
  apply push_sample_loop_any
    in Hstep as (Hw & Hp & _ & _ & _ & ev0 & -> & Hst & Hm & Hn & Hd).
  split; [done|]. split; [done|].
  rewrite !stored_app, !moved_app, !notifies_app, !dropped_app, !length_app.
  rewrite Hst, Hm, Hn. cbn. repeat split; try done; try lia.
  exists ev0. by rewrite <- app_assoc.
Qed.

(** ** No operation goes out of bounds *)

Lemma bind_defined {A B} (m : outcome A) (f : A -> outcome B) :
  m ≠ Undefined -> (forall a, m = Done a -> f a ≠ Undefined) ->
  m ≫= f ≠ Undefined.
Proof. destruct m as [a| |]; cbn; [|done|done]. intros _ Hf. by apply Hf. Qed.

Lemma shape_slot (q : consumer_queue) (index : Z) :
  shape q ->
  size_ q ≠ 0 ∧ exists it, buffer_ q !! Z.to_nat (index mod size_ q) = Some it.
Proof.
  intros [Hsz Hlen]. split; [lia|].
  apply lookup_lt_is_Some. rewrite Hlen.
  pose proof (Z.mod_pos_bound index (size_ q) Hsz). lia.
Qed.

Lemma shape_same (q q' : consumer_queue) :
  size_ q' = size_ q -> length (buffer_ q') = length (buffer_ q) ->
  shape q -> shape q'.
Proof. unfold shape. intros -> ->. done. Qed.

Lemma shape_try_push (smp : sample_p) (q : consumer_queue) b q' :
  shape q -> try_push smp q = Done (b, q') -> shape q'.
Proof.
  intros Hq Hrun. apply try_push_frame in Hrun as (_ & Hs & _ & _ & Hl & _).
  by apply (shape_same q).
Qed.

Lemma shape_try_pop (dst : pack) (fuel : nat) (q : consumer_queue) b dst' q' ev :
  shape q -> try_pop dst fuel q = Done (b, dst', q', ev) -> shape q'.
Proof.
  intros Hq Hrun. apply try_pop_frame in Hrun as (_ & Hs & _ & _ & Hl & _).
  by apply (shape_same q).
Qed.

Lemma try_push_defined (smp : sample_p) (q : consumer_queue) :
  shape q -> exists b q', try_push smp q = Done (b, q').
Proof.
  intros Hq. destruct (shape_slot q (write_idx_ q) Hq) as (Hsz & it & Hit).
  rewrite (try_push_eq smp q it) by done.
  destruct (write_idx_ q =? seq_state it); eauto.
Qed.

Lemma try_pop_loop_defined (fuel : nat) :
  forall (read_index : Z) (q : consumer_queue),
  shape q ->
  try_pop_loop fuel read_index q ≠ Undefined ∧
  forall claimed q', try_pop_loop fuel read_index q = Done (claimed, q') ->
    shape q'.
Proof.
  induction fuel as [|fuel IH]; intros read_index q Hq; [done|].
  cbn [try_pop_loop].
  destruct (shape_slot q read_index Hq) as (Hsz & it & Hit).
  unfold slot_of, item_at. rewrite (proj2 (Z.eqb_neq _ _) Hsz). cbn.
  rewrite Hit. cbn.
  destruct (seq_state it =? add_wrap q read_index 1).
  - unfold compare_exchange. destruct (read_idx_ q =? read_index).
    + split; [done|]. intros claimed q' [= <- <-]. done.
    + by apply IH.
  - destruct (seq_state it =? read_index).
    + split; [done|]. by intros claimed q' [= <- <-].
    + by apply IH.
Qed.

Lemma try_pop_defined (dst : pack) (fuel : nat) (q : consumer_queue) :
  shape q -> try_pop dst fuel q ≠ Undefined.
Proof.
  intros Hq. unfold try_pop.
  destruct (try_pop_loop_defined fuel (read_idx_ q) q Hq) as [Hdef Hshape].
  apply bind_defined; [done|]. intros [claimed q1] Hloop.
  destruct claimed as [read_index|]; [|done].
  destruct (shape_slot q1 read_index (Hshape _ _ Hloop)) as (Hsz & it & Hit).
  unfold slot_of, item_at. rewrite (proj2 (Z.eqb_neq _ _) Hsz). cbn.
  rewrite Hit. cbn. by destruct (move_or_drop (value it) dst) as [[? ?] ?].
Qed.

Lemma shape_run (fuel : nat) (ops : list op) (q : consumer_queue) rs q' ev :
  shape q -> run fuel ops q = Done (rs, q', ev) -> shape q'.
Proof.
  intros Hq Hrun.
  apply (kept_run (fun q _ => shape q)) with (tr := []) in Hrun; try done.
  - intros. by eapply shape_try_push.
  - intros. by eapply shape_try_pop.
  - intros. by eapply shape_try_pop.
Qed.

Lemma shape_step (fuel : nat) (o : op) (q : consumer_queue) r q' ev :
  shape q -> step fuel o q = Done (r, q', ev) -> shape q'.
Proof.
  intros Hq Hrun. apply (shape_run fuel [o] q [r] q' ev Hq).
  cbn. rewrite Hrun. cbn. by rewrite app_nil_r.
Qed.

Lemma shape_push_sample (fuel : nat) (smp : sample_p) (q : consumer_queue) q' ev :
  shape q -> push_sample fuel smp q = Done (q', ev) -> shape q'.
Proof.
  intros Hq Hrun. apply (shape_step fuel (Push smp) q RetPush q' ev Hq).
  cbn. by rewrite Hrun.
Qed.

Lemma shape_interfere (fuel : nat) (others : list act) :
  forall (q : consumer_queue) q' ev,
  shape q -> interfere fuel others q = Done (q', ev) -> shape q'.
Proof.
  induction others as [|a others IH]; intros q q' ev Hq Hrun; cbn in Hrun.
  - by injection Hrun as <- _.
  - step_bind Hrun. destruct a0 as [q1 ev1].
    step_bind Hrun. destruct a0 as [q2 ev2]. injection Hrun as <- _.
    eapply IH; [|done]. destruct a as [smp|].
    + by eapply shape_push_sample.
    + step_bind Hstep. destruct a as [[[b dst'] q3] ev3]. injection Hstep as <- _.
      by eapply shape_try_pop.
Qed.

Lemma push_sample_loop_defined (fuel : nat) (smp : sample_p) :
  forall q : consumer_queue, shape q -> push_sample_loop fuel smp q ≠ Undefined.
Proof.
  induction fuel as [|fuel IH]; intros q Hq; [done|].
  cbn [push_sample_loop].
  destruct (try_push_defined smp q Hq) as (b & q1 & Hpush). rewrite Hpush. cbn.
  destruct b; [done|]. apply try_push_failed in Hpush as ->.
  assert (forall d, shape (set_done_sync d q)) as Hq' by (intros d; exact Hq).
  destruct (done_sync_ q); cbn [negb];
    (apply bind_defined; [apply try_pop_defined; auto|]);
    intros [[[b dst'] q2] ev2] Hpop;
    (apply bind_defined;
       [apply IH; eapply shape_try_pop; [|exact Hpop]; auto|]);
    by intros [q3 ev3] _.
Qed.

Lemma push_sample_defined (fuel : nat) (smp : sample_p) (q : consumer_queue) :
  shape q -> push_sample fuel smp q ≠ Undefined.
Proof.
  intros Hq. unfold push_sample.
  apply bind_defined; [by apply push_sample_loop_defined|]. by intros [q1 ev1] _.
Qed.

Lemma interfere_defined (fuel : nat) (others : list act) :
  forall q : consumer_queue, shape q -> interfere fuel others q ≠ Undefined.
Proof.
  induction others as [|a others IH]; intros q Hq; [done|].
  cbn [interfere]. apply bind_defined.
  - destruct a as [smp|]; [by apply push_sample_defined|].
    apply bind_defined; [by apply try_pop_defined|]. by intros [[[? ?] ?] ?] _.
  - intros [q1 ev1] Hact. apply bind_defined; [|by intros [? ?] _].
    apply IH. apply (shape_interfere fuel [a] q q1 (ev1 ++ []) Hq).
    cbn [interfere]. rewrite Hact. done.
Qed.

Lemma wait_for_defined (fuel : nat) (waits : list (cv_status * list act)) :
  forall (result : pack) (q : consumer_queue),
  shape q -> wait_for fuel waits result q ≠ Undefined.
Proof.
  induction waits as [|[st others] waits IH]; intros result q Hq;
    cbn [wait_for];
    (apply bind_defined; [by apply try_pop_defined|]);
    intros [[[ok r1] q1] ev1] Hpop; (destruct ok; [done|]);
    pose proof (shape_try_pop _ _ _ _ _ _ _ Hq Hpop) as Hq1.
  - apply bind_defined; [by apply try_pop_defined|]. by intros [[[? ?] ?] ?] _.
  - apply bind_defined; [by apply interfere_defined|].
    intros [q2 ev2] Hint.
    pose proof (shape_interfere _ _ _ _ _ Hq1 Hint) as Hq2.
    destruct st.
    + apply bind_defined; [by apply IH|]. by intros [[? ?] ?] _.
    + apply bind_defined; [by apply try_pop_defined|]. by intros [[[? ?] ?] ?] _.
Qed.

Lemma pop_sample_defined (fuel : nat) (tmo : float) (others : list act)
    (waits : list (cv_status * list act)) (q : consumer_queue) :
  shape q -> pop_sample fuel tmo others waits q ≠ Undefined.
Proof.
  intros Hq. unfold pop_sample.
  apply bind_defined; [by apply try_pop_defined|].
  intros [[[ok r1] q1] ev1] Hpop.
  pose proof (shape_try_pop _ _ _ _ _ _ _ Hq Hpop) as Hq1.
  destruct (negb ok && PrimFloat.ltb 0 tmo); [|done].
  apply bind_defined; [by apply interfere_defined|].
  intros [q2 ev2] Hint.
  pose proof (shape_interfere _ _ _ _ _ Hq1 Hint) as Hq2.
  apply bind_defined; [by apply try_pop_defined|].
  intros [[[ok3 r3] q3] ev3] Hpop3.
  pose proof (shape_try_pop _ _ _ _ _ _ _ Hq2 Hpop3) as Hq3.
  destruct ok3; cbn [negb]; [done|].
  apply bind_defined; [by apply wait_for_defined|]. by intros [[? ?] ?] _.
Qed.

Lemma flush_loop_defined (fuel : nat) :
  forall (n : Z) (q : consumer_queue), shape q -> flush_loop fuel n q ≠ Undefined.
Proof.
  induction fuel as [|fuel IH]; intros n q Hq; [done|].
  cbn [flush_loop]. apply bind_defined; [by apply try_pop_defined|].
  intros [[[ok r1] q1] ev1] Hpop. destruct ok; [|done].
  apply bind_defined; [|by intros [[? ?] ?] _].
  apply IH. by eapply shape_try_pop.
Qed.

Lemma step_defined (fuel : nat) (o : op) (q : consumer_queue) :
  shape q -> step fuel o q ≠ Undefined.
Proof.
  intros Hq. destruct o as [smp|tmo others waits|]; cbn [step].
  - apply bind_defined; [by apply push_sample_defined|]. by intros [? ?] _.
  - apply bind_defined; [by apply pop_sample_defined|]. by intros [[? ?] ?] _.
  - apply bind_defined; [by apply flush_loop_defined|]. by intros [[? ?] ?] _.
Qed.

(** X4: no operation reads or writes outside the buffer or divides by
    zero.  From any state with [size_ > 0] and [size_] slots (whatever the
    cursors, sequence numbers and [wrap_at_] are) a run of the public
    operations, with any interference and any fuel, is never undefined, and
    it leaves [size_] and the number of slots as they were. *)
Theorem run_in_bounds (fuel : nat) (ops : list op) (q : consumer_queue) :
  shape q ->
  run fuel ops q ≠ Undefined ∧
  forall rs q' ev, run fuel ops q = Done (rs, q', ev) ->
    size_ q' = size_ q ∧ length (buffer_ q') = length (buffer_ q).
Proof.
  intros Hq. split.
  - revert q Hq. induction ops as [|o ops IH]; intros q Hq; [done|].
    cbn [run]. apply bind_defined; [by apply step_defined|].
    intros [[r q1] ev1] Hstep. apply bind_defined; [|by intros [[? ?] ?] _].
    apply IH. by eapply shape_step.
  - intros rs q' ev Hrun.
    apply (kept_run (fun q1 _ => size_ q1 = size_ q ∧
                                 length (buffer_ q1) = length (buffer_ q)))
      with (tr := []) in Hrun; try done.
    + intros q1 _ smp q2 [Hs Hl] Hpush.
      apply try_push_frame in Hpush as (_ & Hs2 & _ & _ & Hl2 & _).
      split; congruence.
    + intros q1 _ dst f b dst' q2 ev0 [Hs Hl] Hpop.
      apply try_pop_frame in Hpop as (_ & Hs2 & _ & _ & Hl2 & _).
      split; congruence.
    + intros q1 _ dst f b dst' q2 ev0 [Hs Hl] Hpop.
      apply try_pop_frame in Hpop as (_ & Hs2 & _ & _ & Hl2 & _).
      split; congruence.
Qed.

(** X5: with no slot to index ([size_ = 0]) every operation is undefined
    at its first [index % size_]. *)
Theorem no_slots_undefined (fuel : nat) (o : op) (q : consumer_queue) :
  size_ q = 0 -> step (S fuel) o q = Undefined.
Proof.
  intros Hsz.
  assert (forall smp, try_push smp q = Undefined) as Hpush.
  { intros smp. unfold try_push, slot_of. by rewrite Hsz. }
  assert (forall dst, try_pop dst (S fuel) q = Undefined) as Hpop.
  { intros dst. unfold try_pop. cbn [try_pop_loop]. unfold slot_of.
    by rewrite Hsz. }
  destruct o as [smp|tmo others waits|]; cbn [step].
  - unfold push_sample. cbn [push_sample_loop]. by rewrite Hpush.
  - unfold pop_sample. by rewrite Hpop.
  - unfold flush. cbn [flush_loop]. by rewrite Hpop.
Qed.

(** ** When [try_pop] returns *)

Lemma try_pop_loop_spins (fuel : nat) (q : consumer_queue) (it : item_t) :
  size_ q ≠ 0 ->
  buffer_ q !! Z.to_nat (read_idx_ q mod size_ q) = Some it ->
  seq_state it ≠ add_wrap q (read_idx_ q) 1 -> seq_state it ≠ read_idx_ q ->
  try_pop_loop fuel (read_idx_ q) q = OutOfFuel.
Proof.
  intros Hsz Hit Hnext Hcur. induction fuel as [|fuel IH]; [done|].
  rewrite (try_pop_loop_eq fuel q it) by done.
  rewrite (proj2 (Z.eqb_neq _ _) Hnext), (proj2 (Z.eqb_neq _ _) Hcur). done.
Qed.

(** X6: [try_pop] returns exactly when the slot at the read cursor is
    marked filled ([seq_state] is the next index) or marked empty
    ([seq_state] is the read cursor).  With any other mark it goes round
    its loop without changing anything, however often it tries: it can
    only be released by another thread. *)
Theorem try_pop_returns_iff (dst : pack) (q : consumer_queue) (it : item_t) :
  size_ q ≠ 0 ->
  buffer_ q !! Z.to_nat (read_idx_ q mod size_ q) = Some it ->
  ((seq_state it = add_wrap q (read_idx_ q) 1 ∨ seq_state it = read_idx_ q) ->
     forall fuel, exists result, try_pop dst (S fuel) q = Done result) ∧
  (seq_state it ≠ add_wrap q (read_idx_ q) 1 ∧ seq_state it ≠ read_idx_ q ->
     forall fuel, try_pop dst fuel q = OutOfFuel).
Proof.
  intros Hsz Hit. split.
  - intros Hseq fuel. rewrite (try_pop_eq dst fuel q it) by done.
    destruct (seq_state it =? add_wrap q (read_idx_ q) 1); eauto.
  - intros [Hnext Hcur] fuel. unfold try_pop.
    by rewrite (try_pop_loop_spins fuel q it).
Qed.

(** X7: spurious failures of [compare_exchange_weak] only delay
    [try_pop].  In a reachable state the loop with any pattern of spurious
    failures, once it is given more rounds than there are failures, ends
    as the loop without them does, and that one needs a single round. *)
Theorem weak_exchange_only_delays (C : Z) (spurious : list bool)
    (fuel fuel' : nat) (q : consumer_queue) :
  capacity_ok C -> reachable C q -> (length spurious < fuel)%nat ->
  try_pop_loop_weak spurious fuel (read_idx_ q) q =
    try_pop_loop (S fuel') (read_idx_ q) q ∧
  try_pop_loop (S fuel') (read_idx_ q) q ≠ OutOfFuel.
Proof.
  intros HC Hreach Hfuel.
  rewrite (reachable_weak_loop C spurious fuel q) by done.
  pose proof (reachable_inv C q HC Hreach) as Hinv.
  destruct (inv_read_slot C q HC Hinv) as (it & Hit & Hcase).
  assert (size_ q ≠ 0) as Hsz.
  { apply (wf_size_nonzero C); [by destruct HC|by apply inv_wf]. }
  rewrite !(try_pop_loop_eq _ q it) by done.
  destruct Hcase as [(Heq & _)|(Heq & _)].
  - destruct (seq_state it =? add_wrap q (read_idx_ q) 1); [done|].
    by rewrite Heq, Z.eqb_refl.
  - by rewrite Heq, Z.eqb_refl.
Qed.

(** ** Spurious wake-ups *)

(** X8: a spurious wake-up is harmless.  In any state, a wait that ends
    without a timeout and during which no other thread touched the queue
    changes neither what [wait_for] returns nor the queue it leaves. *)
Theorem spurious_wakeup_harmless (fuel : nat)
    (waits : list (cv_status * list act)) (result : pack) (q : consumer_queue) :
  untraced (wait_for fuel ((no_timeout, []) :: waits) result q) =
    untraced (wait_for fuel waits result q).
Proof.
  assert (forall ws, wait_for fuel ws result q =
            '(ok, result', q', ev1) ← try_pop result fuel q;
            if ok : bool then Done (result', q', ev1)
            else match ws with
                 | [] => '(_, r, q2, ev2) ← try_pop result' fuel q';
                         Done (r, q2, ev1 ++ Wait :: ev2)
                 | (st, others) :: ws' =>
                   '(q2, ev2) ← interfere fuel others q';
                   match st with
                   | timeout => '(_, r, q3, ev3) ← try_pop result' fuel q2;
                                Done (r, q3, ev1 ++ Wait :: ev2 ++ ev3)
                   | no_timeout => '(r, q3, ev3) ← wait_for fuel ws' result' q2;
                                   Done (r, q3, ev1 ++ Wait :: ev2 ++ ev3)
                   end
                 end) as Hunfold by (by intros [|[st others] ws']).
  rewrite (Hunfold ((no_timeout, []) :: waits)).
  pose proof (Hunfold waits) as Hrest.
  destruct (try_pop result fuel q) as [[[[ok r1] q1] ev1]| |] eqn:Hpop;
    [|by rewrite Hrest..].
  destruct ok; [by rewrite Hrest|]. clear Hrest.
  apply try_pop_any in Hpop as (_ & it & _ & [(_ & -> & -> & -> & _)|(? & _)]);
    [|done].
  cbn. by destruct (wait_for fuel waits result q) as [[[? ?] ?]| |].
Qed.

(** ** The queue of one slot *)

Lemma single_slot_lookup (q : consumer_queue) (index : Z) :
  single_slot q ->
  size_ q ≠ 0 ∧ exists it, buffer_ q = [it] ∧ seq_state it = write_idx_ q ∧
    buffer_ q !! Z.to_nat (index mod size_ q) = Some it.
Proof.
  intros (Hsz & it & Hbuf & Hseq). split; [lia|]. exists it.
  rewrite Hsz, Z.mod_1_r, Hbuf. done.
Qed.

Lemma single_slot_try_push (smp : sample_p) (q : consumer_queue) :
  single_slot q ->
  try_push smp q = Done (true, pushed_state smp q) ∧
  single_slot (pushed_state smp q).
Proof.
  intros Hq.
  destruct (single_slot_lookup q (write_idx_ q) Hq) as (Hnz & it & Hbuf & Hseq & Hit).
  rewrite (try_push_eq smp q it) by done. rewrite Hseq, Z.eqb_refl.
  split; [done|]. destruct Hq as [Hsz _]. split; [done|].
  eexists. cbn. rewrite Hbuf, Hsz, Z.mod_1_r. cbn. done.
Qed.

Lemma single_slot_try_pop (dst : pack) (fuel : nat) (q : consumer_queue)
    b dst' q' ev :
  single_slot q -> try_pop dst fuel q = Done (b, dst', q', ev) -> single_slot q'.
Proof.
  intros Hq Hpop.
  destruct (single_slot_lookup q (read_idx_ q) Hq) as (Hnz & it & Hbuf & Hseq & Hit).
  apply try_pop_any in Hpop as (_ & it' & Hit' & Hcase).
  rewrite Hit in Hit'. injection Hit' as <-.
  destruct Hcase as [(_ & _ & -> & _)|(_ & _ & -> & _ & Hnext)]; [done|].
  destruct Hq as [Hsz _]. split; [done|].
  eexists. cbn. rewrite Hbuf, Hsz, Z.mod_1_r. cbn. split; [done|]. cbn.
  congruence.
Qed.

(** X9: a queue of one slot is never full.  If the only slot carries the
    write cursor as its sequence number (as in a new queue), then, whatever
    [wrap_at_] is, this stays so along every run of the public operations,
    and every [push_sample] stores at its first attempt: it overwrites the
    slot without evicting anything, whether or not the slot was read. *)
Theorem single_slot_never_full (fuel fuel' : nat) (ops : list op)
    (q : consumer_queue) rs q' ev (smp : sample_p) :
  single_slot q -> run fuel ops q = Done (rs, q', ev) ->
  single_slot q' ∧
  try_push smp q' = Done (true, pushed_state smp q') ∧
  push_sample (S fuel') smp q' =
    Done (pushed_state smp q', [Stored smp; Lock; Notify]).
Proof.
  intros Hq Hrun.
  assert (single_slot q') as Hq'.
  { apply (kept_run (fun q _ => single_slot q)) with (tr := []) in Hrun;
      try done.
    - intros q1 _ smp1 q2 Hq1 Hpush.
      destruct (single_slot_try_push smp1 q1 Hq1) as [Heq Hq2].
      rewrite Heq in Hpush. by injection Hpush as <-.
    - intros. by eapply single_slot_try_pop.
    - intros. by eapply single_slot_try_pop. }
  destruct (single_slot_try_push smp q' Hq') as [Hpush _].
  split; [done|]. split; [done|].
  unfold push_sample. cbn [push_sample_loop]. by rewrite Hpush.
Qed.

(** ** [add_wrap] for any [wrap_at_] *)

(** X10: whatever [wrap_at_] is, as long as the sum does not overflow
    [size_t], [add_wrap] is addition modulo [wrap_at_] on indices below
    [wrap_at_], for steps up to [wrap_at_]; it stays below [wrap_at_], and
    two steps in a row are one step by their sum. *)
Theorem add_wrap_modular (q : consumer_queue) (x a b : Z) :
  0 ≤ x < wrap_at_ q -> 0 ≤ a -> 0 ≤ b -> a + b ≤ wrap_at_ q ->
  x + a + b < size_t_range ->
  add_wrap q x a = (x + a) mod wrap_at_ q ∧
  0 ≤ add_wrap q x a < wrap_at_ q ∧
  add_wrap q (add_wrap q x a) b = add_wrap q x (a + b).
Proof.
  intros Hx Ha Hb Hab Hmax.
  assert (forall y d, 0 ≤ y < wrap_at_ q -> 0 ≤ d ≤ wrap_at_ q ->
            y + d < size_t_range ->
            add_wrap q y d = (y + d) mod wrap_at_ q) as Hmod.
  { intros y d Hy Hd Hyd. unfold add_wrap.
    rewrite (wrap_size_t_id (y + d)) by lia.
    destruct (Z.leb_spec (wrap_at_ q) (y + d)).
    - rewrite wrap_size_t_id by lia. rewrite mod_wrap_once; lia.
    - rewrite Z.mod_small; lia. }
  pose proof (Z.mod_pos_bound (x + a) (wrap_at_ q) ltac:(lia)) as Hrange.
  assert ((x + a) mod wrap_at_ q ≤ x + a) as Hle
    by (apply Z.mod_le; lia).
  rewrite !(Hmod x) by lia. split; [done|]. split; [done|].
  rewrite Hmod by lia.
  rewrite Zplus_mod_idemp_l. f_equal. lia.
Qed.

(** ** A consumer on an empty queue *)

Lemma cursors_equal_empty (q : consumer_queue) :
  write_idx_ q = read_idx_ q -> read_available q = 0 ∧ contents q = [].
Proof.
  intros Heq. unfold contents, read_available.
  rewrite Heq, Z.sub_diag, Zmod_0_l. done.
Qed.

Lemma blocks_app (tr1 tr2 : list event) :
  blocks (tr1 ++ tr2) = (blocks tr1 + blocks tr2)%nat.
Proof. unfold blocks. by rewrite omap_app, length_app. Qed.

Lemma try_pop_nothing (C : Z) (r0 : sample_p) (fuel : nat) (q : consumer_queue) :
  capacity_ok C -> inv C q -> contents q = [] ->
  try_pop (OneArg r0) (S fuel) q = Done (false, OneArg r0, q, []).
Proof.
  intros HC Hinv Hempty.
  destruct (own_try_pop C r0 (S fuel) q HC Hinv ltac:(lia))
    as [(_ & Hpop)|(v & l' & Hl & _)]; [done|congruence].
Qed.

Lemma wait_for_quiet_empty (C : Z) (r0 : sample_p) (fuel : nat)
    (q : consumer_queue) (waits : list (cv_status * list act)) :
  capacity_ok C -> inv C q -> contents q = [] -> quiet_waits waits ->
  exists k, (1 ≤ k ≤ S (length waits))%nat ∧
    wait_for (S fuel) waits (OneArg r0) q = Done (OneArg r0, q, replicate k Wait).
Proof.
  intros HC Hinv Hempty Hquiet.
  pose proof (try_pop_nothing C r0 fuel q HC Hinv Hempty) as Hpop.
  induction Hquiet as [|[st others] waits Hnil Hquiet IH].
  - exists 1%nat. split; [cbn; lia|].
    cbn [wait_for]. rewrite Hpop. cbn. rewrite Hpop. done.
  - cbn in Hnil. subst others. destruct st.
    + destruct IH as (k & Hk & Hwait). exists (S k). split; [cbn; lia|].
      cbn [wait_for]. rewrite Hpop. cbn. rewrite Hwait. done.
    + exists 1%nat. split; [cbn; lia|].
      cbn [wait_for]. rewrite Hpop. cbn. rewrite Hpop. done.
Qed.

Lemma pop_sample_quiet_empty (C : Z) (fuel : nat) (tmo : float)
    (q : consumer_queue) (waits : list (cv_status * list act)) :
  capacity_ok C -> inv C q -> contents q = [] -> quiet_waits waits ->
  exists k, (1 ≤ k ≤ S (length waits))%nat ∧
    pop_sample (S fuel) tmo [] waits q =
      Done (None, q, if PrimFloat.ltb 0 tmo then Lock :: replicate k Wait else []).
Proof.
  intros HC Hinv Hempty Hquiet.
  pose proof (try_pop_nothing C None fuel q HC Hinv Hempty) as Hpop.
  destruct (wait_for_quiet_empty C None fuel q waits HC Hinv Hempty Hquiet)
    as (k & Hk & Hwait).
  exists k. split; [done|]. unfold pop_sample. rewrite Hpop. cbn.
  destruct (PrimFloat.ltb 0 tmo); [|done].
  cbn. rewrite Hpop. cbn. rewrite Hwait. done.
Qed.

(** X11: a consumer that is left alone on an empty queue comes back
    empty-handed.  In a reachable state whose cursors are equal, a
    [pop_sample] during which no other thread acts returns null and leaves
    the queue as it is; with a positive timeout it has taken the mutex once
    and blocked at least once and at most once more than it was woken;
    otherwise it has done neither. *)
Theorem pop_empty_undisturbed (C : Z) (fuel : nat) (tmo : float)
    (q : consumer_queue) (waits : list (cv_status * list act)) :
  capacity_ok C -> reachable C q -> write_idx_ q = read_idx_ q ->
  quiet_waits waits ->
  exists k, (1 ≤ k ≤ S (length waits))%nat ∧
    pop_sample (S fuel) tmo [] waits q =
      Done (None, q, if PrimFloat.ltb 0 tmo then Lock :: replicate k Wait else []).
Proof.
  intros HC Hreach Heq Hquiet.
  apply (pop_sample_quiet_empty C); try done.
  - by apply reachable_inv.
  - by apply cursors_equal_empty.
Qed.

(** ** A sample and its consumer *)

#[local] Arguments push_sample : simpl never.

Lemma push_into_empty (C : Z) (x : sample_p) (fuel : nat) (q : consumer_queue) :
  capacity_ok C -> inv C q -> write_idx_ q = read_idx_ q ->
  push_sample (S fuel) x q = Done (pushed_state x q, [Stored x; Lock; Notify]) ∧
  inv C (pushed_state x q) ∧ contents (pushed_state x q) = [x].
Proof.
  intros HC Hinv Heq.
  destruct (cursors_equal_empty q Heq) as [Hav Hempty].
  destruct (inv_try_push C x q HC Hinv)
    as [(_ & Hfull & _)|(Hpush & Hinv' & [(_ & Hl)|(_ & Hone & _)])].
  - destruct HC. lia.
  - split; [|split; [done|by rewrite Hl, Hempty]].
    unfold push_sample. cbn [push_sample_loop]. by rewrite Hpush.
  - lia.
Qed.

Lemma pop_the_only (C : Z) (x r0 : sample_p) (fuel : nat) (q : consumer_queue) :
  capacity_ok C -> inv C q -> contents q = [x] ->
  try_pop (OneArg r0) (S fuel) q =
    Done (true, OneArg x, popped_state None q, [Moved x]) ∧
  inv C (popped_state None q) ∧ contents (popped_state None q) = [].
Proof.
  intros HC Hinv Hl.
  destruct (own_try_pop C r0 (S fuel) q HC Hinv ltac:(lia))
    as [(Hempty & _)|(v & l' & Hl' & Hpop & Hinv' & Hrest)]; [congruence|].
  rewrite Hl in Hl'. injection Hl' as <- <-. done.
Qed.

(** X12: what goes in comes out.  In a reachable state of any capacity
    whose cursors are equal, [push_sample(x)] stores [x] at its first
    attempt, the next [pop_sample], whatever its timeout, returns [x]
    without taking the mutex, and the cursors are equal again. *)
Theorem push_pop_round_trip (C : Z) (x : sample_p) (fuel fuel' : nat)
    (tmo : float) (others : list act) (waits : list (cv_status * list act))
    (q : consumer_queue) :
  capacity_ok C -> reachable C q -> write_idx_ q = read_idx_ q ->
  let q1 := pushed_state x q in
  let q2 := popped_state None q1 in
  push_sample (S fuel) x q = Done (q1, [Stored x; Lock; Notify]) ∧
  pop_sample (S fuel') tmo others waits q1 = Done (x, q2, [Moved x]) ∧
  write_idx_ q2 = read_idx_ q2 ∧ reachable C q2.
Proof.
  intros HC Hreach Heq q1 q2. subst q2 q1.
  set (q1 := pushed_state x q). set (q2 := popped_state None q1).
  pose proof (reachable_inv C q HC Hreach) as Hinv.
  destruct (push_into_empty C x fuel q HC Hinv Heq) as (Hpush & Hinv1 & Hl1).
  fold q1 in Hpush, Hinv1, Hl1.
  destruct (pop_the_only C x None fuel' q1 HC Hinv1 Hl1) as (Hpop & _).
  split; [done|].
  assert (pop_sample (S fuel') tmo others waits q1 = Done (x, q2, [Moved x]))
    as Hget.
  { rewrite (pop_sample_first C) by (done || lia || (left; by rewrite Hl1)).
    by rewrite Hl1. }
  split; [done|]. split.
  - subst q2 q1. cbn. unfold add_wrap. cbn. by rewrite Heq.
  - assert (reachable C q1) as Hreach1.
    { apply (reachable_step C (S fuel) (Push x) q RetPush q1
               [Stored x; Lock; Notify] Hreach).
      cbn [step]. by rewrite Hpush. }
    apply (reachable_step C (S fuel') (Pop tmo others waits) q1 (RetPop x) q2
             [Moved x] Hreach1).
    cbn [step]. by rewrite Hget.
Qed.

(** X13: a sample pushed between two attempts of a consumer is returned
    by that call of [pop_sample].  A consumer with a positive timeout that
    found the queue empty claims, at its next [try_pop], the sample that
    the producer pushes before the consumer takes the mutex (it then does
    not block), or the sample pushed while it is blocked, whether that
    wait ends without or with a timeout. *)
Theorem push_reaches_waiter (C : Z) (x : sample_p) (fuel : nat) (tmo : float)
    (st : cv_status) (waits : list (cv_status * list act)) (q : consumer_queue) :
  capacity_ok C -> reachable C q -> write_idx_ q = read_idx_ q ->
  PrimFloat.ltb 0 tmo = true ->
  let q' := popped_state None (pushed_state x q) in
  pop_sample (S fuel) tmo [ActPush x] waits q =
    Done (x, q', [Stored x; Lock; Notify; Lock; Moved x]) ∧
  pop_sample (S fuel) tmo [] ((st, [ActPush x]) :: waits) q =
    Done (x, q', [Lock; Wait; Stored x; Lock; Notify; Moved x]).
Proof.
  intros HC Hreach Heq Htmo q'.
  pose proof (reachable_inv C q HC Hreach) as Hinv.
  destruct (cursors_equal_empty q Heq) as [_ Hempty].
  pose proof (try_pop_nothing C None fuel q HC Hinv Hempty) as Hfail.
  destruct (push_into_empty C x fuel q HC Hinv Heq) as (Hpush & Hinv1 & Hl1).
  destruct (pop_the_only C x None fuel _ HC Hinv1 Hl1) as (Hpop & _).
  assert (forall ws, wait_for (S fuel) ws (OneArg None) (pushed_state x q) =
            Done (OneArg x, q', [Moved x])) as Hnow.
  { intros [|[st' others'] ws']; cbn [wait_for]; by rewrite Hpop. }
  split.
  - unfold pop_sample. rewrite Hfail. cbn. rewrite Htmo, Hpush. cbn.
    rewrite Hpop. done.
  - unfold pop_sample. rewrite Hfail. cbn. rewrite Htmo, Hfail. cbn.
    rewrite Hfail. cbn. rewrite Hpush. cbn.
    destruct st.
    + rewrite Hnow. done.
    + rewrite Hpop. done.
Qed.

(** ** The queue as a bounded list *)

Lemma step_refines (C : Z) (fuel : nat) (o : op) (q : consumer_queue) :
  capacity_ok C -> 2 ≤ C -> inv C q -> quiet o -> C < Z.of_nat fuel ->
  exists q' ev,
    step fuel o q = Done ((list_step C o (contents q)).1, q', ev) ∧
    inv C q' ∧ contents q' = (list_step C o (contents q)).2.
Proof.
  intros HC HC2 Hinv Hquiet Hfuel.
  destruct fuel as [|[|fuel]]; [lia..|].
  destruct (inv_available C q HC Hinv) as [Hav Hlen].
  destruct o as [x|tmo others waits|]; cbn [step list_step fst snd].
  - destruct (push_sample_loop_spec C x q HC Hinv)
      as [(Hlt & _ & Hloop & Hinv' & Hl)|(_ & Hfull & _ & v & l' & Hc & _ & Hrest)].
    + exists (pushed_state x q), ([Stored x] ++ [Lock; Notify]).
      unfold push_sample. rewrite Hloop. split; [done|]. split; [done|].
      rewrite Hl by done. unfold list_push.
      by rewrite (proj2 (Z.ltb_lt _ _)) by lia.
    + cbv zeta in Hrest. destruct Hrest as (Hloop & _ & Hinv' & Hl).
      eexists _, _. unfold push_sample. rewrite Hloop. split; [done|].
      split; [done|]. rewrite Hl. unfold list_push.
      rewrite (proj2 (Z.ltb_ge _ _)) by lia. by rewrite Hc.
  - destruct Hquiet as [-> Hquiet].
    destruct (contents q) as [|v l] eqn:Hc.
    + destruct (pop_sample_quiet_empty C (S fuel) tmo q waits HC Hinv Hc Hquiet)
        as (k & _ & Hpop).
      eexists _, _. rewrite Hpop. cbn. by rewrite Hc.
    + rewrite (pop_sample_first C) by (done || lia || (left; by rewrite Hc)).
      rewrite Hc.
      destruct (own_try_pop C None 1 q HC Hinv ltac:(lia))
        as [(Hempty & _)|(v' & l' & Hl' & _ & Hinv' & Hrest)]; [congruence|].
      rewrite Hc in Hl'. injection Hl' as <- <-.
      eexists _, _. cbn. done.
  - destruct (flush_loop_spec C (S (S fuel)) HC 0 q Hinv ltac:(lia))
      as (q' & Hflush & Hinv' & Hl'); [unfold uint32_range; lia|].
    eexists _, _. unfold flush. rewrite Hflush. cbn. done.
Qed.

(** X14: undisturbed, the queue is a bounded list.  For a capacity of at
    least 2, along any sequence of [push_sample], [pop_sample] and [flush]
    calls during which no other thread acts, each call returns what the
    list machine returns (a push appends, dropping the head first when
    the list has [C] elements; a pop returns the head, or null on the
    empty list; a flush returns the length modulo [2^32] and empties), and
    the unread samples are the list.  Timeouts and wake-ups change
    nothing. *)
Theorem queue_refines_list (C : Z) (fuel : nat) (ops : list op)
    (q : consumer_queue) :
  capacity_ok C -> 2 ≤ C -> reachable C q -> Forall quiet ops ->
  C < Z.of_nat fuel ->
  exists q' ev,
    run fuel ops q = Done ((list_run C ops (contents q)).1, q', ev) ∧
    contents q' = (list_run C ops (contents q)).2 ∧ reachable C q'.
Proof.
  intros HC HC2 Hreach Hquiet Hfuel.
  assert (exists q' ev,
    run fuel ops q = Done ((list_run C ops (contents q)).1, q', ev) ∧
    contents q' = (list_run C ops (contents q)).2) as (q' & ev & Hrun & Hl).
  { pose proof (reachable_inv C q HC Hreach) as Hinv. clear Hreach.
    revert q Hinv. induction Hquiet as [|o ops Ho Hops IH]; intros q Hinv.
    - by exists q, [].
    - destruct (step_refines C fuel o q HC HC2 Hinv Ho Hfuel)
        as (q1 & ev1 & Hstep & Hinv1 & Hl1).
      destruct (IH q1 Hinv1) as (q2 & ev2 & Hrun & Hl2).
      exists q2, (ev1 ++ ev2). cbn [run list_run].
      rewrite Hstep. cbn. rewrite Hrun. cbn.
      destruct (list_step C o (contents q)) as [r l1]. cbn [fst snd] in *.
      rewrite Hl1 in *.
      destruct (list_run C ops l1) as [rs l2]. done. }
  exists q', ev. split; [done|]. split; [done|]. by eapply reachable_run.
Qed.

(** ** Producer and consumer on different slots *)

Lemma add_wrap_pushed (x : sample_p) (q : consumer_queue) (y delta : Z) :
  add_wrap (pushed_state x q) y delta = add_wrap q y delta.
Proof. done. Qed.

Lemma add_wrap_popped (src : sample_p) (q : consumer_queue) (y delta : Z) :
  add_wrap (popped_state src q) y delta = add_wrap q y delta.
Proof. done. Qed.

(** X16: while the two cursors point to different slots, the producer
    and a consumer do not disturb each other.  In any such state
    [try_push] and [try_pop] give the same results, the same events and
    the same final queue in either order. *)
Theorem push_pop_commute (x : sample_p) (dst : pack) (fuel : nat)
    (q : consumer_queue) bp q1 bc dst' q2 ev :
  0 ≤ size_ q ->
  write_idx_ q mod size_ q ≠ read_idx_ q mod size_ q ->
  try_push x q = Done (bp, q1) ->
  try_pop dst (S fuel) q = Done (bc, dst', q2, ev) ->
  exists q3,
    try_pop dst (S fuel) q1 = Done (bc, dst', q3, ev) ∧
    try_push x q2 = Done (bp, q3).
Proof.
  intros Hsize Hslots Hpush Hpop.
  apply try_push_any in Hpush as (Hsz & itw & Hitw & Hpush).
  apply try_pop_any in Hpop as (_ & itr & Hitr & Hpop).
  assert (Z.to_nat (write_idx_ q mod size_ q) ≠
          Z.to_nat (read_idx_ q mod size_ q)) as Hne.
  { pose proof (Z.mod_pos_bound (write_idx_ q) (size_ q) ltac:(lia)).
    pose proof (Z.mod_pos_bound (read_idx_ q) (size_ q) ltac:(lia)). lia. }
  assert (forall src, try_push x (popped_state src q) =
            if write_idx_ q =? seq_state itw
            then Done (true, pushed_state x (popped_state src q))
            else Done (false, popped_state src q)) as Hthen_push.
  { intros src. apply (try_push_eq x (popped_state src q) itw); [done|].
    cbn. by rewrite list_lookup_insert_ne. }
  assert (try_pop dst (S fuel) (pushed_state x q) =
            if seq_state itr =? add_wrap q (read_idx_ q) 1
            then Done (true, taken_out dst (value itr),
                       popped_state (left_in_slot dst (value itr))
                         (pushed_state x q),
                       [claim_event dst (value itr)])
            else Done (false, dst, pushed_state x q, [])) as Hthen_pop.
  { apply (try_pop_eq dst fuel (pushed_state x q) itr); [done| |].
    - cbn. by rewrite list_lookup_insert_ne.
    - destruct Hpop as [(_ & _ & _ & _ & ? & _)|(_ & _ & _ & _ & ?)]; auto. }
  assert (forall src, popped_state src (pushed_state x q) =
                      pushed_state x (popped_state src q)) as Hswap.
  { intros src. unfold popped_state, pushed_state. cbn. f_equal.
    by apply list_insert_insert_ne. }
  destruct Hpush as [(-> & -> & Hw)|(-> & -> & Hw)];
    destruct Hpop as [(-> & -> & -> & -> & Hr & Hn)|(-> & -> & -> & -> & Hn)].
  - exists q. split.
    + rewrite (try_pop_eq dst fuel q itr) by auto.
      by rewrite (proj2 (Z.eqb_neq _ _) Hn).
    + rewrite (try_push_eq x q itw) by done.
      by rewrite (proj2 (Z.eqb_neq _ _)) by congruence.
  - eexists. split.
    + rewrite (try_pop_eq dst fuel q itr) by auto.
      by rewrite Hn, Z.eqb_refl.
    + rewrite Hthen_push. by rewrite (proj2 (Z.eqb_neq _ _)) by congruence.
  - eexists. split.
    + rewrite Hthen_pop. by rewrite (proj2 (Z.eqb_neq _ _) Hn).
    + rewrite (try_push_eq x q itw) by done. by rewrite Hw, Z.eqb_refl.
  - eexists. split.
    + rewrite Hthen_pop. by rewrite Hn, Z.eqb_refl.
    + rewrite Hthen_push, Hw, Z.eqb_refl. by rewrite Hswap.
Qed.

(** ** The mutex around [notify_one] *)

Lemma consumer_holds_notified (c : consumer_pc) :
  consumer_holds (notified c) = consumer_holds c.
Proof. by destruct c. Qed.

Lemma reachable_synced (C : Z) (q : consumer_queue) :
  reachable C q -> reachable C (synced q).
Proof.
  intros Hq. unfold synced. destruct (done_sync_ q); [done|by apply reach_sync].
Qed.

(** A failed [try_pop] has seen the queue empty and left it so. *)
Lemma try_pop_failed_empty (C : Z) (dst : pack) (fuel : nat) (q : consumer_queue)
    dst' q' ev :
  capacity_ok C -> reachable C q ->
  try_pop dst fuel q = Done (false, dst', q', ev) -> q' = q ∧ contents q = [].
Proof.
  intros HC Hq Hpop.
  destruct (inv_try_pop_inv C dst fuel q _ _ _ _ HC (reachable_inv C q HC Hq) Hpop)
    as [(Hempty & _ & _ & -> & _)|(v & l' & _ & ? & _)]; done.
Qed.

(** A [try_pop] leaves a queue that holds something only if it found
    something. *)
Lemma try_pop_leaves (C : Z) (dst : pack) (fuel : nat) (q : consumer_queue)
    b dst' q' ev :
  capacity_ok C -> reachable C q ->
  try_pop dst fuel q = Done (b, dst', q', ev) ->
  contents q' ≠ [] -> contents q ≠ [].
Proof.
  intros HC Hq Hpop Hne.
  destruct (inv_try_pop_inv C dst fuel q _ _ _ _ HC (reachable_inv C q HC Hq) Hpop)
    as [(_ & _ & _ & -> & _)|(v & l' & Hc & _)]; [done|by rewrite Hc].
Qed.

Ltac mutex_cases :=
  unfold owner in *; cbn in *;
  repeat match goal with
  | c : consumer_pc |- _ => destruct c
  | p : producer_pc |- _ => destruct p
  end; cbn in *;
  repeat match goal with
  | H : ?a = ?a -> _ |- _ => specialize (H eq_refl)
  end; try congruence; auto.

Lemma sys_step_inv (C : Z) (tmo : float) (s s' : system) :
  capacity_ok C -> sys_inv C s -> sys_step tmo s s' -> sys_inv C s'.
Proof.
  intros HC [Hq Hm Hex Hw Hb] Hstep.
  destruct Hstep; cbn in *.
  - (* P_begin *)
    split; cbn; [done|mutex_cases|mutex_cases| |].
    + intros r Hc Hne. by specialize (Hw r Hc Hne).
    + intros r Hc Hne. by destruct (Hb r Hc Hne).
  - (* P_store_ok *)
    split; cbn; [by eapply reach_try_push|mutex_cases|mutex_cases| |]; auto.
  - (* P_store_full *)
    apply try_push_failed in H as ->.
    split; cbn; [by apply reachable_synced|mutex_cases|mutex_cases| |];
      intros r Hc Hne; rewrite contents_synced in Hne.
    + by specialize (Hw r Hc Hne).
    + by destruct (Hb r Hc Hne).
  - (* P_evict *)
    pose proof (try_pop_leaves C _ _ _ _ _ _ _ HC Hq H) as Hkeep.
    split; cbn; [by eapply reach_try_pop|mutex_cases|mutex_cases| |];
      intros r Hc Hne.
    + by specialize (Hw r Hc (Hkeep Hne)).
    + by destruct (Hb r Hc (Hkeep Hne)).
  - (* P_lock *)
    split; cbn; [done|mutex_cases|mutex_cases| |]; intros r Hc Hne.
    + subst c. by mutex_cases.
    + by right.
  - (* P_notify *)
    split; cbn; [done| | | |].
    + rewrite Hm. unfold owner. cbn. done.
    + intros _. rewrite consumer_holds_notified. by apply Hex.
    + intros r Hc Hne. destruct c; try done. cbn in Hex. by specialize (Hex eq_refl).
    + intros r Hc Hne. by destruct c.
  - (* P_unlock *)
    split; cbn; [done|mutex_cases|mutex_cases| |]; intros r Hc Hne.
    + subst c. cbn in Hex. by specialize (Hex eq_refl).
    + by destruct (Hb r Hc Hne).
  - (* C_first_ok *)
    split; cbn; [by eapply reach_try_pop|mutex_cases|mutex_cases|done|done].
  - (* C_first_empty *)
    split; cbn; [by eapply reach_try_pop| | | |];
      destruct (PrimFloat.ltb 0 tmo); try done; mutex_cases.
  - (* C_lock *)
    split; cbn; [done|mutex_cases|mutex_cases|done|done].
  - (* C_second_ok *)
    split; cbn; [by eapply reach_try_pop|mutex_cases|mutex_cases|done|done].
  - (* C_second_empty *)
    split; cbn; [by eapply reach_try_pop|mutex_cases|mutex_cases|done|done].
  - (* C_pred_ok *)
    split; cbn; [by eapply reach_try_pop|mutex_cases|mutex_cases|done|done].
  - (* C_pred_empty *)
    destruct (try_pop_failed_empty C _ _ _ _ _ _ HC Hq H) as [-> Hempty].
    split; cbn; [done|mutex_cases|mutex_cases| |done].
    intros r _ Hne. done.
  - (* C_wait *)
    split; cbn; [done|mutex_cases|mutex_cases|done|].
    intros r _ Hne. left. by apply (Hw result).
  - (* C_timeout *)
    split; cbn; [done|mutex_cases|mutex_cases|done|done].
  - (* C_spurious *)
    split; cbn; [done|mutex_cases|mutex_cases|done|done].
  - (* C_relock *)
    split; cbn; [done| | | |]; destruct st; try done; mutex_cases.
  - (* C_last *)
    split; cbn; [by eapply reach_try_pop|mutex_cases|mutex_cases|done|done].
  - (* C_unlock *)
    split; cbn; [done|mutex_cases|mutex_cases|done|done].
Qed.

Lemma sys_reachable_inv (C : Z) (tmo : float) (s : system) :
  capacity_ok C -> sys_reachable C tmo s -> sys_inv C s.
Proof.
  intros HC. induction 1 as [q todo Hq|s s' _ IH Hstep].
  - by split.
  - by apply (sys_step_inv C tmo s).
Qed.


End ConsumerQueue.

Arguments sample_p : clear implicits.
Arguments item_t : clear implicits.
Arguments consumer_queue : clear implicits.
Arguments event : clear implicits.
Arguments pack : clear implicits.
Arguments act : clear implicits.
Arguments op : clear implicits.
Arguments ret : clear implicits.
Arguments producer_pc : clear implicits.
Arguments consumer_pc : clear implicits.
Arguments system : clear implicits.

(** * The properties on concrete queues *)

Lemma reachable_after {sample : Type} (C : Z) (ops : list (op sample)) :
  reachable C (after C ops).
Proof.
  unfold after.
  destruct (run 4 ops (new_consumer_queue C)) as [[[rs q] tr]| |] eqn:Hrun;
    try constructor.
  eapply reachable_run; [constructor|done].
Qed.

Lemma capacity_ok_small (C : Z) : 0 < C ≤ 2 ^ 32 -> capacity_ok C.
Proof.
  intros HC. split; [lia|].
  transitivity (3 * 2 ^ 32); [lia|]. by vm_compute.
Qed.


Lemma drop_oldest_witness :
  capacity_ok 3 ∧ 2 ≤ 3 ∧
  unread_slots (after 3 [Push hA; Push hB; Push hC]) =
    size_ (after 3 [Push hA; Push hB; Push hC]) ∧
  exists v l', contents (after 3 [Push hA; Push hB; Push hC]) = v :: l' ∧
    payload_at (after 3 [Push hA; Push hB; Push hC])
      (read_idx_ (after 3 [Push hA; Push hB; Push hC])) = v ∧
    exists q', (forall fuel, (2 ≤ fuel)%nat ->
        push_sample fuel hD (after 3 [Push hA; Push hB; Push hC]) =
          Done (q', sync_events (after 3 [Push hA; Push hB; Push hC]) ++
                    [Dropped v; Stored hD; Lock; Notify])) ∧
      reachable 3 q' ∧ contents q' = l' ++ [hD].
Proof.
  assert (capacity_ok 3) as HC by (apply capacity_ok_small; lia).
  split; [done|]. split; [lia|]. split; [by vm_compute|].
  apply (drop_oldest 3 (after 3 [Push hA; Push hB; Push hC]) hD HC ltac:(lia)
           (reachable_after 3 _)).
  by vm_compute.
Defined.

(** C2 (drop-oldest) against the code with a single slot.  The slot holds
    the unread sample [A]: all slots hold unread values.  [try_push]
    nevertheless returns [true], so [push_sample(B)] evicts nothing; it
    stores [B] over [A] and leaves the cursors equal.  No slot holds an
    unread value afterwards and the next pop returns nothing: [B] is not
    stored as a sample of the queue. *)
Lemma drop_oldest_single_slot :
  capacity_ok 1 ∧ reachable 1 (after 1 [Push hA]) ∧
  unread_slots (after 1 [Push hA]) = size_ (after 1 [Push hA]) ∧
  contents (after 1 [Push hA]) = [hA] ∧
  try_push hB (after 1 [Push hA]) = Done (true, after 1 [Push hA; Push hB]) ∧
  push_sample 2 hB (after 1 [Push hA]) =
    Done (after 1 [Push hA; Push hB], [Stored hB; Lock; Notify]) ∧
  after 1 [Push hA; Push hB] = Queue [Item 0 hB] 1 2 false 0 0 ∧
  unread_slots (after 1 [Push hA; Push hB]) = 0 ∧
  contents (after 1 [Push hA; Push hB]) = [] ∧
  pop_sample 2 0 [] [] (after 1 [Push hA; Push hB]) =
    Done (None, after 1 [Push hA; Push hB], []).
Proof.
  split; [apply capacity_ok_small; lia|].
  split; [apply reachable_after|].
  repeat split; by vm_compute.
Qed.


#[local] Arguments try_pop : simpl never.


Lemma try_pop_protocol_witness :
  capacity_ok 3 ∧
  try_pop (OneArg None) 1 (after 3 [Push hA; Push hB]) =
    Done (true, OneArg hA,
          Queue [Item 3 None; Item 2 hB; Item 2 None] 3 6 false 2 1,
          [Moved hA]).
Proof.
  assert (capacity_ok 3) as HC by (apply capacity_ok_small; lia).
  split; [done|].
  destruct (try_pop_protocol 3 (after 3 [Push hA; Push hB]) (OneArg None) 0 HC
              (reachable_after 3 _)) as (it & Hit & [[Hs _]|(_ & _ & Hpop)]).
  - injection Hit as <-. by vm_compute in Hs.
  - injection Hit as <-. exact Hpop.
Defined.

(** C4 fails for the call without a destination: [try_pop()] claims the
    slot and leaves the payload in it. *)
Lemma try_pop_drop_keeps_payload :
  capacity_ok 2 ∧ reachable 2 (after 2 [Push hA]) ∧
  after 2 [Push hA] = Queue [Item 1 hA; Item 1 None] 2 4 false 1 0 ∧
  try_pop NoArg 1 (after 2 [Push hA]) =
    Done (true, NoArg, Queue [Item 2 hA; Item 1 None] 2 4 false 1 1,
          [Dropped hA]) ∧
  payload_at (Queue [Item 2 hA; Item 1 None] 2 4 false 1 1) 0 = hA ∧
  payload_at (Queue [Item 2 hA; Item 1 None] 2 4 false 1 1) 0 ≠ None.
Proof.
  split; [apply capacity_ok_small; lia|].
  split; [apply reachable_after|].
  repeat split; by vm_compute.
Qed.

Lemma fifo_survivors_witness :
  capacity_ok 2 ∧
  exists rs q tr,
    run 3 [Push hA; Push hB; Push hC; Pop 0 [] []; Push hD; Flush; Pop 0 [] []]
      (new_consumer_queue 2) = Done (rs, q, tr) ∧
    non_null (pop_results rs) = non_null (moved tr) ∧
    moved tr `sublist_of` delivered tr ∧
    delivered tr ++ contents q `sublist_of` stored tr ∧
    (2 ≤ 2 ->
     removed tr ++ contents q = stored tr ∧
     delivered tr `sublist_of` removed tr).
Proof.
  assert (capacity_ok 2) as HC by (apply capacity_ok_small; lia).
  split; [done|].
  apply (fifo_survivors 2 3 _ HC); lia.
Defined.

Lemma try_push_full_unchanged_witness :
  size_ (after 3 [Push hA; Push hB; Push hC]) ≠ 0 ∧
  try_push hD (after 3 [Push hA; Push hB; Push hC]) =
    Done (false, after 3 [Push hA; Push hB; Push hC]).
Proof.
  assert (size_ (after 3 [Push hA; Push hB; Push hC]) ≠ 0) as Hsz by by vm_compute.
  split; [done|].
  apply (try_push_full_unchanged (after 3 [Push hA; Push hB; Push hC]) hD
           (Item 1 hA) Hsz); by vm_compute.
Defined.

Lemma pop_sample_results_witness :
  capacity_ok 3 ∧
  (PrimFloat.ltb 0 0 = false ->
   pop_sample 2 0 [ActPush hB] [] (after 3 [Push hA; Flush]) =
     match contents (after 3 [Push hA; Flush]) with
     | [] => Done (None, after 3 [Push hA; Flush], [])
     | v :: _ => Done (v, popped_state None (after 3 [Push hA; Flush]), [Moved v])
     end) ∧
  exists r q' ev,
    pop_sample 2 0 [ActPush hB] [] (after 3 [Push hA; Flush]) = Done (r, q', ev) ∧
    reachable 3 q' ∧ ((moved ev = [] ∧ r = None) ∨ moved ev = [r]).
Proof.
  assert (capacity_ok 3) as HC by (apply capacity_ok_small; lia).
  split; [done|].
  apply (pop_sample_results 3 (after 3 [Push hA; Flush]) 2 0 [ActPush hB] [] HC
           (reachable_after 3 _)).
  lia.
Defined.

Lemma flush_exact_witness :
  capacity_ok 3 ∧
  unread_slots (after 3 [Push hA; Push hB]) = 2 ∧
  exists q',
    flush 4 (after 3 [Push hA; Push hB]) = Done (2, q', [Dropped hA; Dropped hB]) ∧
    reachable 3 q' ∧ unread_slots q' = 0 ∧ contents q' = [] ∧ empty q' = true.
Proof.
  assert (capacity_ok 3) as HC by (apply capacity_ok_small; lia).
  split; [done|].
  destruct (flush_exact 3 (after 3 [Push hA; Push hB]) 4 HC (reachable_after 3 _))
    as (Hcount & _ & n & q' & Hrun & Hn & Hreach & Hnone & _ & Hc & Hempty & _);
    [by vm_compute|].
  split; [exact Hcount|]. exists q'.
  rewrite (Hn ltac:(by vm_compute)) in Hrun. by repeat split.
Defined.

Lemma sync_once_witness :
  run 2 [Push hA; Push hB; Push hC; Push hD] (new_consumer_queue 2) =
    Done ([RetPush; RetPush; RetPush; RetPush],
          Queue [Item 3 hC; Item 0 hD] 2 4 true 0 2, four_pushes_trace hA hB hC hD) ∧
  (fences (four_pushes_trace hA hB hC hD) ≤ 1)%nat ∧
  sync_stores (four_pushes_trace hA hB hC hD) =
    fences (four_pushes_trace hA hB hC hD).
Proof.
  assert (run 2 [Push hA; Push hB; Push hC; Push hD] (new_consumer_queue 2) =
    Done ([RetPush; RetPush; RetPush; RetPush],
          Queue [Item 3 hC; Item 0 hD] 2 4 true 0 2, four_pushes_trace hA hB hC hD)) as Hrun
    by by vm_compute.
  split; [exact Hrun|].
  destruct (sync_once 2 _ _ _ _ _ Hrun) as (H1 & H2 & _). by split.
Defined.

Lemma index_space_closed_witness :
  capacity_ok 3 ∧
  (add_wrap (after 3 [Push hA]) 5 1 = (5 + 1) mod (2 * 3) ∧
   0 ≤ add_wrap (after 3 [Push hA]) 5 1 < 2 * 3) ∧
  0 ≤ write_idx_ (after 3 [Push hA; Push hB; Push hC; Push hD]) < 2 * 3.
Proof.
  assert (capacity_ok 3) as HC by (apply capacity_ok_small; lia).
  split; [done|].
  destruct (@index_space_closed mark 3 HC) as [Hadd Hreach].
  split.
  - apply Hadd; [by vm_compute|lia|by left].
  - by destruct (Hreach _ (reachable_after 3 [Push hA; Push hB; Push hC; Push hD]))
      as (_ & ? & _).
Defined.

(** * The further properties on concrete queues *)

Lemma try_pop_empty_unchanged_witness :
  try_pop (OneArg hA) 1 (new_consumer_queue 2) =
    Done (false, OneArg hA, new_consumer_queue 2, []) ∧
  exists it,
    buffer_ (new_consumer_queue (sample := mark) 2)
      !! Z.to_nat (read_idx_ (new_consumer_queue (sample := mark) 2)
                   mod size_ (new_consumer_queue (sample := mark) 2)) = Some it ∧
    seq_state it = read_idx_ (new_consumer_queue (sample := mark) 2).
Proof.
  assert (try_pop (OneArg hA) 1 (new_consumer_queue 2) =
    Done (false, OneArg hA, new_consumer_queue 2, [])) as Hrun by by vm_compute.
  split; [exact Hrun|].
  by destruct (try_pop_empty_unchanged _ _ _ _ _ _ Hrun) as (_ & _ & _ & Hit).
Defined.

Lemma push_sample_effect_witness :
  push_sample 2 hC (after 2 [Push hA; Push hB]) =
    Done (after 2 [Push hA; Push hB; Push hC],
          [Fence; SyncStore; Dropped hA; Stored hC; Lock; Notify]) ∧
  write_idx_ (after 2 [Push hA; Push hB; Push hC]) =
    add_wrap (after 2 [Push hA; Push hB])
      (write_idx_ (after 2 [Push hA; Push hB])) 1 ∧
  payload_at (after 2 [Push hA; Push hB; Push hC])
    (write_idx_ (after 2 [Push hA; Push hB])) = hC.
Proof.
  assert (push_sample 2 hC (after 2 [Push hA; Push hB]) =
    Done (after 2 [Push hA; Push hB; Push hC],
          [Fence; SyncStore; Dropped hA; Stored hC; Lock; Notify])) as Hrun
    by by vm_compute.
  split; [exact Hrun|].
  destruct (push_sample_effect _ _ _ _ _ Hrun) as (Hw & Hp & _). by split.
Defined.

Lemma run_in_bounds_witness :
  shape (Queue [Item 7 hA; Item 9 None] 2 5 false 3 11) ∧
  run 3 [Push hB; Pop 0 [] []; Flush]
    (Queue [Item 7 hA; Item 9 None] 2 5 false 3 11) ≠ Undefined.
Proof.
  assert (shape (Queue [Item 7 hA; Item 9 None] 2 5 false 3 11)) as Hq
    by (split; [cbn; lia|reflexivity]).
  split; [exact Hq|].
  by destruct (run_in_bounds 3 [Push hB; Pop 0 [] []; Flush] _ Hq) as [Hdef _].
Defined.

Lemma no_slots_undefined_witness :
  size_ (new_consumer_queue (sample := mark) 0) = 0 ∧
  step 1 (Push hA) (new_consumer_queue 0) = Undefined.
Proof.
  split; [reflexivity|].
  apply (no_slots_undefined 0 (Push hA) (new_consumer_queue 0)). reflexivity.
Defined.

Lemma try_pop_returns_iff_witness :
  size_ (Queue [Item 5 hA; Item 1 None] 2 4 false 0 0) ≠ 0 ∧
  forall fuel,
    try_pop (OneArg None) fuel (Queue [Item 5 hA; Item 1 None] 2 4 false 0 0) =
      OutOfFuel.
Proof.
  assert (size_ (Queue [Item 5 hA; Item 1 None] 2 4 false 0 0) ≠ 0) as Hsz
    by (cbn; lia).
  split; [exact Hsz|].
  destruct (try_pop_returns_iff (OneArg None)
              (Queue [Item 5 hA; Item 1 None] 2 4 false 0 0) (Item 5 hA) Hsz)
    as [_ Hspin]; [reflexivity|].
  apply Hspin. by vm_compute.
Defined.

Lemma weak_exchange_only_delays_witness :
  capacity_ok 2 ∧
  try_pop_loop_weak [true; true] 3 (read_idx_ (after 2 [Push hA]))
      (after 2 [Push hA]) =
    try_pop_loop 1 (read_idx_ (after 2 [Push hA])) (after 2 [Push hA]).
Proof.
  assert (capacity_ok 2) as HC by (apply capacity_ok_small; lia).
  split; [exact HC|].
  destruct (weak_exchange_only_delays 2 [true; true] 3 0 (after 2 [Push hA]) HC
              (reachable_after 2 _)) as [Heq _]; [cbn; lia|exact Heq].
Defined.

Lemma single_slot_never_full_witness :
  single_slot (new_consumer_queue (sample := mark) 1) ∧
  run 2 [Push hA; Push hB] (new_consumer_queue 1) =
    Done ([RetPush; RetPush], Queue [Item 0 hB] 1 2 false 0 0,
          [Stored hA; Lock; Notify; Stored hB; Lock; Notify]) ∧
  push_sample 1 hC (Queue [Item 0 hB] 1 2 false 0 0) =
    Done (pushed_state hC (Queue [Item 0 hB] 1 2 false 0 0),
          [Stored hC; Lock; Notify]).
Proof.
  assert (single_slot (new_consumer_queue (sample := mark) 1)) as Hq.
  { split; [reflexivity|]. exists (Item 0 None). by split. }
  assert (run 2 [Push hA; Push hB] (new_consumer_queue 1) =
    Done ([RetPush; RetPush], Queue [Item 0 hB] 1 2 false 0 0,
          [Stored hA; Lock; Notify; Stored hB; Lock; Notify])) as Hrun
    by by vm_compute.
  split; [exact Hq|]. split; [exact Hrun|].
  by destruct (single_slot_never_full 2 0 _ _ _ _ _ hC Hq Hrun) as (_ & _ & Hpush).
Defined.

Lemma add_wrap_modular_witness :
  0 ≤ 5 < wrap_at_ (new_consumer_queue (sample := mark) 3) ∧
  add_wrap (new_consumer_queue (sample := mark) 3) 5 1 =
    (5 + 1) mod wrap_at_ (new_consumer_queue (sample := mark) 3) ∧
  add_wrap (new_consumer_queue (sample := mark) 3)
      (add_wrap (new_consumer_queue (sample := mark) 3) 5 1) 3 =
    add_wrap (new_consumer_queue (sample := mark) 3) 5 (1 + 3).
Proof.
  assert (wrap_at_ (new_consumer_queue (sample := mark) 3) = 6) as Hwrap
    by by vm_compute.
  assert (0 ≤ 5 < wrap_at_ (new_consumer_queue (sample := mark) 3)) as Hx
    by (rewrite Hwrap; lia).
  split; [exact Hx|].
  destruct (add_wrap_modular (new_consumer_queue (sample := mark) 3) 5 1 3 Hx)
    as (Hmod & _ & Hsum); [lia|lia|rewrite Hwrap; lia|by vm_compute|].
  by split.
Defined.

Lemma pop_empty_undisturbed_witness :
  capacity_ok 2 ∧
  write_idx_ (after 2 [Push hA; Pop 0 [] []]) =
    read_idx_ (after 2 [Push hA; Pop 0 [] []]) ∧
  exists k, (1 ≤ k ≤ 3)%nat ∧
    pop_sample 1 1 [] [(no_timeout, []); (timeout, [])]
        (after 2 [Push hA; Pop 0 [] []]) =
      Done (None, after 2 [Push hA; Pop 0 [] []], Lock :: replicate k Wait).
Proof.
  assert (capacity_ok 2) as HC by (apply capacity_ok_small; lia).
  assert (write_idx_ (after 2 [Push hA; Pop 0 [] []]) =
          read_idx_ (after 2 [Push hA; Pop 0 [] []])) as Heq by by vm_compute.
  split; [exact HC|]. split; [exact Heq|].
  apply (pop_empty_undisturbed 2 0 1 (after 2 [Push hA; Pop 0 [] []])
           [(no_timeout, []); (timeout, [])] HC (reachable_after 2 _) Heq).
  by repeat constructor.
Defined.

Lemma push_pop_round_trip_witness :
  capacity_ok 1 ∧
  push_sample 1 hA (new_consumer_queue 1) =
    Done (pushed_state hA (new_consumer_queue 1), [Stored hA; Lock; Notify]) ∧
  pop_sample 1 1 [ActPop] [] (pushed_state hA (new_consumer_queue 1)) =
    Done (hA, popped_state None (pushed_state hA (new_consumer_queue 1)),
          [Moved hA]).
Proof.
  assert (capacity_ok 1) as HC by (apply capacity_ok_small; lia).
  split; [exact HC|].
  destruct (push_pop_round_trip 1 hA 0 0 1 [ActPop] [] (new_consumer_queue 1) HC
              (reach_new 1)) as (Hpush & Hpop & _); [reflexivity|].
  by split.
Defined.

Lemma push_reaches_waiter_witness :
  capacity_ok 2 ∧ PrimFloat.ltb 0 1 = true ∧
  pop_sample 1 1 [] [(timeout, [ActPush hA])] (new_consumer_queue 2) =
    Done (hA, popped_state None (pushed_state hA (new_consumer_queue 2)),
          [Lock; Wait; Stored hA; Lock; Notify; Moved hA]).
Proof.
  assert (capacity_ok 2) as HC by (apply capacity_ok_small; lia).
  assert (PrimFloat.ltb 0 1 = true) as Htmo by reflexivity.
  split; [exact HC|]. split; [exact Htmo|].
  by destruct (push_reaches_waiter 2 hA 0 1 timeout [] (new_consumer_queue 2) HC
                 (reach_new 2) eq_refl Htmo) as [_ Hwait].
Defined.

Lemma queue_refines_list_witness :
  capacity_ok 2 ∧
  Forall quiet [Push hA; Push hB; Push hC; Pop 1 [] []; Flush;
                Pop 1 [] [(no_timeout, [])]] ∧
  exists q' ev,
    run 3 [Push hA; Push hB; Push hC; Pop 1 [] []; Flush;
           Pop 1 [] [(no_timeout, [])]] (new_consumer_queue 2) =
      Done ([RetPush; RetPush; RetPush; RetPop hB; RetFlush 1; RetPop None],
            q', ev) ∧
    contents q' = [] ∧ reachable 2 q'.
Proof.
  assert (capacity_ok 2) as HC by (apply capacity_ok_small; lia).
  assert (Forall (quiet (sample := mark))
            [Push hA; Push hB; Push hC; Pop 1 [] []; Flush;
             Pop 1 [] [(no_timeout, [])]]) as Hquiet
    by (repeat constructor).
  split; [exact HC|]. split; [exact Hquiet|].
  apply (queue_refines_list 2 3 _ (new_consumer_queue 2) HC ltac:(lia)
           (reach_new 2) Hquiet ltac:(lia)).
Defined.

Lemma push_pop_commute_witness :
  write_idx_ (after 2 [Push hA]) mod size_ (after 2 [Push hA]) ≠
    read_idx_ (after 2 [Push hA]) mod size_ (after 2 [Push hA]) ∧
  try_push hB (after 2 [Push hA]) =
    Done (true, pushed_state hB (after 2 [Push hA])) ∧
  try_pop (OneArg None) 1 (after 2 [Push hA]) =
    Done (true, OneArg hA, popped_state None (after 2 [Push hA]), [Moved hA]) ∧
  exists q3,
    try_pop (OneArg None) 1 (pushed_state hB (after 2 [Push hA])) =
      Done (true, OneArg hA, q3, [Moved hA]) ∧
    try_push hB (popped_state None (after 2 [Push hA])) = Done (true, q3).
Proof.
  assert (write_idx_ (after 2 [Push hA]) mod size_ (after 2 [Push hA]) ≠
          read_idx_ (after 2 [Push hA]) mod size_ (after 2 [Push hA])) as Hslots
    by by vm_compute.
  assert (try_push hB (after 2 [Push hA]) =
          Done (true, pushed_state hB (after 2 [Push hA]))) as Hpush
    by by vm_compute.
  assert (try_pop (OneArg None) 1 (after 2 [Push hA]) =
          Done (true, OneArg hA, popped_state None (after 2 [Push hA]),
                [Moved hA])) as Hpop by by vm_compute.
  split; [exact Hslots|]. split; [exact Hpush|]. split; [exact Hpop|].
  apply (push_pop_commute hB (OneArg None) 0 (after 2 [Push hA]) _ _ _ _ _ _
           ltac:(by vm_compute) Hslots Hpush Hpop).
Defined.

